(** * Housing-sales exploratory analysis script (lab2.2.py)

    A shallow embedding of the script's stages and the properties its
    description states about them.

    Conventions of the embedding.
    - A finite float64 value is written as a rational and NaN is kept
      apart ([None] in a float64 column, [NaN] in a computed statistic);
      infinities and the sign of zero are not modelled.  An int64 value
      is an integer; where pandas converts it to float64 the conversion
      rounds it to 53 significant bits ([float64_of_int]).
    - What pandas computes in float64 arithmetic (mean, variance, median,
      quantiles, correlation coefficients) is a parameter of the
      embedding ([float_stat], [float_corr]), as are the statistics of
      columns that are not numeric.  Only what does not depend on the
      rounding is fixed: maximum and minimum, the share of missing
      values, the result on an empty or one-valued column, and the NaN
      coefficient of a constant column or of fewer than two complete
      rows.  The same statistics in exact arithmetic ([exact_stat],
      [exact_corr]) are kept as a reference and as one instance of the
      parameters.
    - A column has one of pandas' storage types: float64, int64, object,
      category (with its ordered list of categories), or another one
      (bool, datetime64, ...), kept with its name.
    - pandas, scipy and sqlalchemy are libraries, not part of the script.
      What the script relies on in pandas (factorize, unique, mode, min,
      max, select_dtypes, sort_values, ...) is modelled after the
      library's documented behaviour; the statistical tests of scipy and
      the database calls are taken as parameters.
    - Python exceptions, [exit()] and [print] are modelled by a small
      monad over a world made of the object heap and the output trace. *)

From Stdlib Require Import ZArith QArith Qround Reals Lia Lra Lqa Psatz String List.
From Stdlib Require Import Sorted Permutation.
From stdpp Require Import base gmap list strings pretty.

Open Scope Z_scope.

(** ** Python control effects *)

Module Py.

(** The exceptions the script can meet.  [KeyboardInterrupt] and
    [SystemExit] derive from [BaseException] only, so a handler
    [except Exception] lets them through. *)
Inductive exn :=
| KeyError (key : string)
| TypeError (msg : string)
| ValueError (msg : string)
| OperationalError (msg : string)
| KeyboardInterrupt
| SystemExit.

Definition is_Exception (e : exn) : bool :=
  match e with
  | KeyboardInterrupt | SystemExit => false
  | _ => true
  end.

Inductive outcome (A : Type) :=
| Return (a : A)
| Raise (e : exn).
Arguments Return {A} a.
Arguments Raise {A} e.

Section Monad.
(** [W] is the state of the world threaded through a run. *)
Context {W : Type}.

Definition M (A : Type) : Type := W -> outcome A * W.

Definition ret {A} (a : A) : M A := fun w => (Return a, w).

Definition bind {A B} (m : M A) (k : A -> M B) : M B :=
  fun w =>
    match m w with
    | (Return a, w') => k a w'
    | (Raise e, w') => (Raise e, w')
    end.

Definition raise {A} (e : exn) : M A := fun w => (Raise e, w).

(** [exit()] raises [SystemExit]. *)
Definition exit_ {A} : M A := raise SystemExit.

(** A pure library call that may raise. *)
Definition lift {A} (o : outcome A) : M A := fun w => (o, w).

(** [try: body  except Exception as e: handler e]. *)
Definition try_except {A} (body : M A) (handler : exn -> M A) : M A :=
  fun w =>
    match body w with
    | (Return a, w') => (Return a, w')
    | (Raise e, w') =>
        if is_Exception e then handler e w' else (Raise e, w')
    end.

(** [for x in xs: body x]. *)
Fixpoint for_each {A} (xs : list A) (body : A -> M unit) : M unit :=
  match xs with
  | [] => ret tt
  | x :: rest => bind (body x) (fun _ => for_each rest body)
  end.

(** A list comprehension [[f x for x in xs]] whose element
    expression may raise. *)
Fixpoint comprehension {A B} (xs : list A) (f : A -> M B) : M (list B) :=
  match xs with
  | [] => ret []
  | x :: rest =>
      bind (f x) (fun y =>
      bind (comprehension rest f) (fun ys => ret (y :: ys)))
  end.
End Monad.

Arguments M W A : clear implicits.

End Py.

Import Py.

Declare Scope py_scope.
Delimit Scope py_scope with py.
Notation "x <- m ;; k" := (bind m (fun x => k))
  (at level 100, m at next level, right associativity) : py_scope.
Notation "m ;;; k" := (bind m (fun _ => k))
  (at level 100, right associativity) : py_scope.
Open Scope py_scope.

(** ** Data model *)

(** The two storage types the Encoder selects.  A category column comes
    with its categories, in their order. *)
Inductive text_dtype := Object | Category (categories : list string).

(** One value of a row.  A [datetime64] value is its count of
    nanoseconds since the epoch. *)
Inductive cell :=
| CNull
| CInt (z : Z)
| CFloat (q : Q)
| CText (s : string)
| CBool (b : bool)
| CTime (t : Z).

(** A column is stored with one type.  A float64 column holds NaN for a
    missing value, an int64 column has no missing values, and an object
    or category column holds text or [None], each value of a category
    column being one of its categories.  A column of any other
    storage type (bool, datetime64, int32, float32, ...) is kept with
    the name of its type and its values: the Encoder does not select
    it, and neither does the Correlation Reporter. *)
Inductive column :=
| Float64 (xs : list (option Q))
| Int64 (xs : list Z)
| Text (d : text_dtype) (xs : list (option string))
| Other (dtype : string) (xs : list cell).

Definition float_cell (x : option Q) : cell :=
  match x with Some q => CFloat q | None => CNull end.

Definition text_cell (x : option string) : cell :=
  match x with Some s => CText s | None => CNull end.

Definition cells (c : column) : list cell :=
  match c with
  | Float64 xs => map float_cell xs
  | Int64 xs => map CInt xs
  | Text _ xs => map text_cell xs
  | Other _ xs => xs
  end.

(** [pd.isnull] on one value. *)
Definition isnull (c : cell) : bool :=
  match c with CNull => true | _ => false end.

(** The number a numeric value stands for; [True] is 1 and [False] is
    0. *)
Definition cell_num (c : cell) : option Q :=
  match c with
  | CInt z => Some (inject_Z z)
  | CFloat q => Some q
  | CBool b => Some (if b then 1 else 0)%Q
  | _ => None
  end.

(** Python's [==] on two values: numbers (and booleans) are compared by
    value, texts with texts and dates with dates; a null equals
    nothing. *)
Definition cell_eqb (a b : cell) : bool :=
  match a, b with
  | CInt x, CInt y => Z.eqb x y
  | CText x, CText y => String.eqb x y
  | CTime x, CTime y => Z.eqb x y
  | _, _ =>
      match cell_num a, cell_num b with
      | Some x, Some y => Qeq_bool x y
      | _, _ => false
      end
  end.

(** The dataset: named columns, in order. *)
Abbreviation DataFrame := (list (string * column)).

Fixpoint frame_get (df : DataFrame) (name : string) : option column :=
  match df with
  | [] => None
  | (n, c) :: rest => if String.eqb n name then Some c else frame_get rest name
  end.

(** [df[name] = c]: replaces the column in place, or adds it last. *)
Fixpoint frame_set (df : DataFrame) (name : string) (c : column) : DataFrame :=
  match df with
  | [] => [(name, c)]
  | (n, c0) :: rest =>
      if String.eqb n name then (n, c) :: rest
      else (n, c0) :: frame_set rest name c
  end.

Definition column_length (c : column) : nat := length (cells c).

(** [df.shape]. *)
Definition shape (df : DataFrame) : nat * nat :=
  (match df with [] => O | (_, c) :: _ => column_length c end, length df).

Definition is_text (c : column) : bool :=
  match c with Text _ _ => true | _ => false end.

Definition is_numeric (c : column) : bool :=
  match c with Float64 _ | Int64 _ => true | _ => false end.

(** [df.select_dtypes(include=...).columns] for a predicate on the
    storage type. *)
Definition select_dtypes (include : column -> bool) (df : DataFrame) : list string :=
  map fst (List.filter (fun p => include (snd p)) df).

(** A computed float: a rational or NaN. *)
Inductive num :=
| NaN
| Fin (q : Q).

(** ** pandas: factorize *)

Section Factorize.
Context {A : Type} (eqb : A -> A -> bool).

(** Position of a label in the vector of labels seen so far (the hash
    table of the library maps a label to this position). *)
Fixpoint index_of (v : A) (uniques : list A) : option nat :=
  match uniques with
  | [] => None
  | u :: rest => if eqb u v then Some O else option_map S (index_of v rest)
  end.

(** One pass over the values: a label seen before gets its position, a
    new label is appended and gets the next position, a missing value
    gets the sentinel -1. *)
Fixpoint factorize_loop (xs : list (option A)) (uniques : list A)
  : list Z * list A :=
  match xs with
  | [] => ([], uniques)
  | None :: rest =>
      let '(codes, us) := factorize_loop rest uniques in
      (-1 :: codes, us)
  | Some v :: rest =>
      match index_of v uniques with
      | Some i =>
          let '(codes, us) := factorize_loop rest uniques in
          (Z.of_nat i :: codes, us)
      | None =>
          let '(codes, us) := factorize_loop rest (uniques ++ [v]) in
          (Z.of_nat (length uniques) :: codes, us)
      end
  end.

Definition factorize (xs : list (option A)) : list Z * list A :=
  factorize_loop xs [].
End Factorize.

(** [pd.factorize(df[col])]: the codes and the labels. *)
Definition pd_factorize (c : column) : list Z * list cell :=
  match c with
  | Text _ xs =>
      let '(codes, us) := factorize String.eqb xs in (codes, map CText us)
  | Float64 xs =>
      let '(codes, us) := factorize Qeq_bool xs in (codes, map CFloat us)
  | Int64 xs =>
      let '(codes, us) := factorize Z.eqb (map Some xs) in (codes, map CInt us)
  | Other _ xs =>
      factorize cell_eqb (map (fun v => if isnull v then None else Some v) xs)
  end.

(** ** Sorting, as the library does wherever it sorts values *)

Section Sort.
Context {A : Type} (leb : A -> A -> bool).

Fixpoint insert_sorted (x : A) (l : list A) : list A :=
  match l with
  | [] => [x]
  | y :: rest => if leb x y then x :: l else y :: insert_sorted x rest
  end.

Fixpoint sort (l : list A) : list A :=
  match l with
  | [] => []
  | x :: rest => insert_sorted x (sort rest)
  end.
End Sort.

(** ** pandas: descriptive statistics of a numeric column *)

Fixpoint dropna {A} (xs : list (option A)) : list A :=
  match xs with
  | [] => []
  | Some x :: rest => x :: dropna rest
  | None :: rest => dropna rest
  end.

(** The values of a column of numeric storage type, NaN as [None]. *)
Definition numeric_values (c : column) : option (list (option Q)) :=
  match c with
  | Float64 xs => Some xs
  | Int64 xs => Some (map (fun z => Some (inject_Z z)) xs)
  | _ => None
  end.

Definition qmax (a b : Q) : Q := if Qle_bool a b then b else a.
Definition qmin (a b : Q) : Q := if Qle_bool a b then a else b.

Definition qsum (xs : list Q) : Q := fold_right Qplus 0%Q xs.

Definition qlen (xs : list Q) : Q := inject_Z (Z.of_nat (length xs)).

(** [Series.isnull().mean()]: the share of missing values. *)
Definition null_share (cs : list cell) : num :=
  match cs with
  | [] => NaN
  | _ => Fin (inject_Z (Z.of_nat (length (List.filter isnull cs)))
              / inject_Z (Z.of_nat (length cs)))
  end.

(** [Series.max()], [Series.min()]: over the non-missing values. *)
Definition nanmax (xs : list Q) : num :=
  match xs with
  | [] => NaN
  | x :: rest => Fin (fold_left qmax rest x)
  end.

Definition nanmin (xs : list Q) : num :=
  match xs with
  | [] => NaN
  | x :: rest => Fin (fold_left qmin rest x)
  end.

(** ** Number formatting *)

(** Round to the nearest integer, ties to the even one. *)
Definition round_half_even (x : Q) : Z :=
  let f := Qfloor x in
  let r := (x - inject_Z f)%Q in
  match (r ?= 1 # 2)%Q with
  | Lt => f
  | Gt => f + 1
  | Eq => if Z.even f then f else f + 1
  end.

(** The number a field formatted with [.4f] displays. *)
Definition round4 (x : Q) : Q :=
  (inject_Z (round_half_even (x * 10000)) / 10000)%Q.

(** ** int64 values as float64 *)

(** The float64 value pandas takes for an int64 value wherever it
    computes in float64: the integer itself up to 2^53 in absolute
    value, beyond that the nearest number with 53 binary digits, a tie
    going to the one whose last digit is even. *)
Definition float64_of_int (z : Z) : Z :=
  if Z.abs z <? 2 ^ 53 then z
  else
    let unit := 2 ^ (Z.log2 (Z.abs z) - 52) in
    round_half_even (inject_Z z / inject_Z unit) * unit.

(** ** pandas: the first-seen distinct values, counts and the mode *)

Section Distinct.
Context {A : Type} (eqb : A -> A -> bool).

(** [Series.unique()]: one pass that appends each value not seen
    before. *)
Fixpoint unique_loop (xs : list A) (seen : list A) : list A :=
  match xs with
  | [] => seen
  | x :: rest =>
      if existsb (eqb x) seen then unique_loop rest seen
      else unique_loop rest (seen ++ [x])
  end.

Definition unique (xs : list A) : list A := unique_loop xs [].

Definition count (v : A) (xs : list A) : nat := length (List.filter (eqb v) xs).

Definition max_count (xs : list A) : nat :=
  fold_right Nat.max O (map (fun v => count v xs) xs).

(** [Series.mode()]: the most frequent values, sorted. *)
Definition modes (leb : A -> A -> bool) (xs : list A) : list A :=
  sort leb (List.filter (fun v => Nat.eqb (count v xs) (max_count xs)) (unique xs)).
End Distinct.

(** In a hash table all missing values are one key. *)
Definition same_key (a b : cell) : bool :=
  cell_eqb a b || (isnull a && isnull b).

(** [df[col].unique()]. *)
Definition pd_unique (c : column) : list cell := unique same_key (cells c).

(** [df[col].nunique()]: missing values are not counted. *)
Definition pd_nunique (c : column) : nat :=
  length (List.filter (fun v => negb (isnull v)) (pd_unique c)).

(** [s.dropna()] on values. *)
Definition dropna_cells (cs : list cell) : list cell :=
  List.filter (fun v => negb (isnull v)) cs.

(** The order of a category column: that of its categories. *)
Definition category_rank (categories : list string) (v : string) : nat :=
  match index_of String.eqb v categories with
  | Some i => i
  | None => length categories
  end.

Definition category_leb (categories : list string) (a b : string) : bool :=
  Nat.leb (category_rank categories a) (category_rank categories b).

(** The order of the values of a column of another storage type:
    numbers and booleans by value, dates by time. *)
Definition cell_rank (c : cell) : nat :=
  match c with
  | CNull => 0
  | CInt _ | CFloat _ | CBool _ => 1
  | CTime _ => 2
  | CText _ => 3
  end.

Definition cell_leb (a b : cell) : bool :=
  match a, b with
  | CTime x, CTime y => Z.leb x y
  | CText x, CText y => String.leb x y
  | _, _ =>
      match cell_num a, cell_num b with
      | Some x, Some y => Qle_bool x y
      | _, _ => Nat.leb (cell_rank a) (cell_rank b)
      end
  end.

(** [df[col].mode()]: missing values are dropped; the modes come
    sorted, those of a category column in the order of its
    categories. *)
Definition pd_mode (c : column) : list cell :=
  match c with
  | Float64 xs => map CFloat (modes Qeq_bool Qle_bool (dropna xs))
  | Int64 xs => map CInt (modes Z.eqb Z.leb xs)
  | Text Object xs => map CText (modes String.eqb String.leb (dropna xs))
  | Text (Category categories) xs =>
      map CText (modes String.eqb (category_leb categories) (dropna xs))
  | Other _ xs => modes same_key cell_leb (dropna_cells xs)
  end.

(** [s[mask]]: the values at the rows where the mask holds. *)
Fixpoint mask_select {A} (mask : list bool) (xs : list A) : list A :=
  match mask, xs with
  | b :: m, x :: rest => if b then x :: mask_select m rest else mask_select m rest
  | _, _ => []
  end.

(** ** pandas: Pearson correlation *)

(** The values of a float64 or int64 column in the float64 copy of the
    dataset [DataFrame.corr] works on, as real numbers. *)
Definition reals (c : column) : list (option R) :=
  match c with
  | Float64 xs => map (option_map Q2R) xs
  | Int64 xs => map (fun z => Some (IZR (float64_of_int z))) xs
  | _ => []
  end.

(** The rows where both columns have a value. *)
Fixpoint complete_pairs (xs ys : list (option R)) : list (R * R) :=
  match xs, ys with
  | Some x :: xr, Some y :: yr => (x, y) :: complete_pairs xr yr
  | _ :: xr, _ :: yr => complete_pairs xr yr
  | _, _ => []
  end.

(** All the values are the same (also when there is one value, or
    none). *)
Definition constant (xs : list R) : bool :=
  match xs with
  | [] => true
  | x :: rest => forallb (fun y => if Req_dec_T y x then true else false) rest
  end.

(** The coefficient of two columns, over the rows where both have a
    value.  When one of the columns has the same value in all these
    rows, or there are fewer than two of them, the sum of its squared
    deviations is zero, and so is the divisor: pandas gives NaN
    ([None]).  Otherwise the coefficient is a result of float64
    arithmetic inside pandas, and [float_corr] stands for what it
    computes from these rows. *)
Definition pearson (float_corr : list (R * R) -> option R)
           (xs ys : list (option R)) : option R :=
  let ps := complete_pairs xs ys in
  if constant (map fst ps) || constant (map snd ps) then None
  else float_corr ps.

(** A labelled series of coefficients. *)
Definition series := list (string * option R).

Fixpoint series_get (s : series) (name : string) : option (option R) :=
  match s with
  | [] => None
  | (n, v) :: rest => if String.eqb n name then Some v else series_get rest name
  end.

Definition frame_reals (df : DataFrame) (name : string) : list (option R) :=
  match frame_get df name with
  | Some c => reals c
  | None => []
  end.

(** One entry of the matrix.  pandas computes the entries on and below
    the diagonal, each from the later of the two columns (in the order
    of the matrix) paired with the earlier one, and copies them above
    the diagonal. *)
Definition coefficient (float_corr : list (R * R) -> option R)
           (df : DataFrame) (names : list string) (a b : string) : option R :=
  match index_of String.eqb a names, index_of String.eqb b names with
  | Some i, Some j =>
      if (j <=? i)%nat
      then pearson float_corr (frame_reals df a) (frame_reals df b)
      else pearson float_corr (frame_reals df b) (frame_reals df a)
  | _, _ => None
  end.

(** [df[names].corr()]: one row per column, one entry per column. *)
Definition corr (float_corr : list (R * R) -> option R)
           (df : DataFrame) (names : list string) : list (string * series) :=
  map (fun a => (a, map (fun b => (b, coefficient float_corr df names a b)) names))
      names.

(** [matrix[target]]: the column of the matrix under that label. *)
Definition matrix_getitem (m : list (string * series)) (target : string)
  : outcome series :=
  if existsb (String.eqb target) (map fst m)
  then Return (map (fun row =>
                      (fst row,
                       match series_get (snd row) target with
                       | Some v => v
                       | None => None
                       end)) m)
  else Raise (KeyError target).

(** The order of [sort_values(ascending=False)]: a number comes before
    every number below it, and before NaN. *)
Definition entry_geb (a b : string * option R) : bool :=
  match snd a, snd b with
  | Some x, Some y => if Rle_dec y x then true else false
  | Some _, None => true
  | None, Some _ => false
  | None, None => true
  end.

(** [s.sort_values(ascending=False)]: the numbers in descending order,
    then the NaN entries. *)
Definition sort_values_desc (s : series) : series := sort entry_geb s.

(** ** The world: the object heap and what the script has output *)

Inductive stat :=
| MissingShare
| Maximum
| Minimum
| Mean
| Median
| Variance
| Quantile01
| Quantile09
| Quartile1
| Quartile3.

Inductive hypothesis := LandUsePrice | VacantAcreage.

(** One output of the script: a printed line with the values it shows,
    or the heat map window. *)
Inductive line :=
| ConnectOk
| ConnectError (e : exn)
| LoadOk
| QueryError (e : exn)
| NumericHeader (col : string)
| Stat (s : stat) (v : num)
| StatText (s : stat) (t : string)
| NumericError (col : string) (e : exn)
| CategoricalHeader (col : string)
| UniqueCount (n : nat)
| ModeLine (m : option cell)
| EncodedHeader (col : string)
| ColumnHead (values : list cell)
| UniquePreview (labels : list cell)
| ShapeLine (rows columns : nat)
| HypothesisHeader (h : hypothesis)
| TestResult (h : hypothesis) (statistic p_value : num)
| Decision (h : hypothesis) (rejected : bool)
| CorrelationHeader
| CorrelationTable (t : series)
| HeatmapShown (m : list (string * series)).

Abbreviation loc := positive.

Record world := World {
  heap : gmap loc DataFrame;
  stdout : list line
}.

Definition print (l : line) : M world unit :=
  fun w => (Return tt, World (heap w) (stdout w ++ [l])).

(** Reading the object a variable refers to. *)
Definition deref (df : loc) : M world DataFrame :=
  fun w =>
    match heap w !! df with
    | Some frame => (Return frame, w)
    | None => (Raise (TypeError "not a DataFrame"), w)
    end.

(** A new object on the heap. *)
Definition alloc (frame : DataFrame) : M world loc :=
  fun w =>
    let l := fresh (dom (heap w)) in
    (Return l, World (<[l := frame]> (heap w)) (stdout w)).

(** [df[col]]. *)
Definition getitem (df : loc) (col : string) : M world column :=
  frame <- deref df;;
  match frame_get frame col with
  | Some c => ret c
  | None => raise (KeyError col)
  end.

(** [df[col] = c]: the object is changed in place. *)
Definition setitem (df : loc) (col : string) (c : column) : M world unit :=
  fun w =>
    match heap w !! df with
    | Some frame =>
        (Return tt, World (<[df := frame_set frame col c]> (heap w)) (stdout w))
    | None => (Raise (TypeError "not a DataFrame"), w)
    end.

(** The number a statistic's line displays: the maximum and the minimum
    are printed as they are, the others with four decimals. *)
Definition displayed (s : stat) (v : Q) : Q :=
  match s with
  | Maximum | Minimum => v
  | MissingShare => (round4 (v * 100) / 100)%Q
  | _ => round4 v
  end.

(** ** The stages of the script *)

Record engine := Engine { engine_url : string }.

(** The URL given to [create_engine] (line 10). *)
Definition connection_url (host : string) (port : N)
           (user password database : string) : string :=
  "postgresql://" +:+ user +:+ ":" +:+ password +:+ "@" +:+ host +:+ ":"
  +:+ pretty port +:+ "/" +:+ database +:+ "?client_encoding=utf8".

(** An SQL identifier between double quotes. *)
Definition quoted (name : string) : string :=
  String (Ascii.ascii_of_nat 34) name +:+ String (Ascii.ascii_of_nat 34) EmptyString.

(** [p_value < 0.05]; a comparison with NaN is false. *)
Definition num_ltb (x : num) (y : Q) : bool :=
  match x with
  | Fin q => negb (Qle_bool y q)
  | NaN => false
  end.

(** The values of a float64 or int64 column that are not missing. *)
Definition numbers (c : column) : list Q :=
  match c with
  | Float64 xs => dropna xs
  | Int64 zs => map inject_Z zs
  | _ => []
  end.

(** The same values as float64. *)
Definition float64_values (c : column) : list Q :=
  match c with
  | Float64 xs => dropna xs
  | Int64 zs => map (fun z => inject_Z (float64_of_int z)) zs
  | _ => []
  end.

(** The statistics of lines 33 to 41 on a float64 or int64 column.  The
    share of missing values is a ratio of two counts, and the maximum
    and the minimum are values of the column.  The other statistics are
    results of float64 arithmetic inside pandas, on the values of the
    column as float64: without values each is NaN; of a single value
    the mean, the median and every percentile are that value and there
    is no variance; from two values on, [float_stat] stands for what
    pandas computes. *)
Definition column_stat (float_stat : stat -> column -> num)
           (s : stat) (c : column) : num :=
  match s with
  | MissingShare => null_share (cells c)
  | Maximum => nanmax (numbers c)
  | Minimum => nanmin (numbers c)
  | _ =>
      match float64_values c with
      | [] => NaN
      | [v] => match s with Variance => NaN | _ => Fin v end
      | _ => float_stat s c
      end
  end.

(** The statistics in the order the profiler prints them. *)
Definition numeric_stats : list stat :=
  [MissingShare; Maximum; Minimum; Mean; Median; Variance;
   Quantile01; Quantile09; Quartile1; Quartile3].

(** The settings of the entry point (lines 103 to 113). *)
Definition main_url : string :=
  connection_url "povt-cluster.tstu.tver.ru" 5432 "mpi" "135a1" "db_housing".

Definition main_query : string :=
  "SELECT * FROM " +:+ quoted "Nashville_Housing" +:+ " LIMIT 1000".

Section Script.

(** The library calls the script makes and this development does not
    model: the database, the two statistical tests, what pandas computes
    in float64 (the statistics of a column of two values or more, the
    correlation coefficient of two columns that both vary), and what it
    answers when a numeric statistic is asked of a column that is
    neither float64 nor int64. *)
Variable create_engine : string -> outcome engine.
Variable read_sql_query : string -> engine -> outcome DataFrame.
Variable f_oneway : list (list cell) -> outcome (num * num).
Variable ttest_ind : list cell -> list cell -> bool -> outcome (num * num).
Variable float_stat : stat -> column -> num.
Variable float_corr : list (R * R) -> option R.
Variable text_stat : stat -> text_dtype -> list (option string) -> outcome (num + string).
Variable other_stat : stat -> string -> list cell -> outcome (num + string).

Definition connect_to_db (host : string) (port : N)
           (user password database : string) : M world engine :=
  try_except
    (engine <- lift (create_engine (connection_url host port user password database));;
     print ConnectOk;;;
     ret engine)
    (fun e => print (ConnectError e);;; exit_).

Definition load_data (engine : engine) (query : string) : M world loc :=
  try_except
    (frame <- lift (read_sql_query query engine);;
     df <- alloc frame;;
     print LoadOk;;;
     ret df)
    (fun e => print (QueryError e);;; exit_).

(** [df[col].<statistic>()] and its formatting. *)
Definition series_stat (s : stat) (c : column) : outcome (num + string) :=
  match s, c with
  | MissingShare, _ => Return (inl (null_share (cells c)))
  | _, (Float64 _ | Int64 _) => Return (inl (column_stat float_stat s c))
  | _, Text d xs => text_stat s d xs
  | _, Other d xs => other_stat s d xs
  end.

(** A text is printed as it is by an unformatted field and refused by
    a field formatted as a number. *)
Definition stat_line (s : stat) (v : num + string) : M world unit :=
  match v, s with
  | inl x, _ => print (Stat s x)
  | inr t, (Maximum | Minimum) => print (StatText s t)
  | inr _, _ => raise (ValueError "Unknown format code")
  end.

Definition print_stat (df : loc) (col : string) (s : stat) : M world unit :=
  c <- getitem df col;;
  v <- lift (series_stat s c);;
  stat_line s v.

(** The body of the Numeric Profiler's loop (lines 30 to 43). *)
Definition profile_numeric (df : loc) (col : string) : M world unit :=
  try_except
    (print (NumericHeader col);;;
     for_each numeric_stats (print_stat df col))
    (fun e => print (NumericError col e)).

Definition exploratory_analysis_numeric (df : loc) (columns : list string)
  : M world unit :=
  for_each columns (profile_numeric df).

(** The body of the Categorical Profiler's loop (lines 48 to 51); the
    mode is asked twice, first to see whether there is one. *)
Definition profile_categorical (df : loc) (col : string) : M world unit :=
  print (CategoricalHeader col);;;
  (c <- getitem df col;;
   print (Stat MissingShare (null_share (cells c))));;;
  (c <- getitem df col;;
   print (UniqueCount (pd_nunique c)));;;
  (c <- getitem df col;;
   match pd_mode c with
   | [] => print (ModeLine None)
   | _ :: _ =>
       c' <- getitem df col;;
       match pd_mode c' with
       | m :: _ => print (ModeLine (Some m))
       | [] => raise (KeyError "0")
       end
   end).

Definition exploratory_analysis_categorical (df : loc) (columns : list string)
  : M world unit :=
  for_each columns (profile_categorical df).

(** The body of the Encoder's loop (lines 57 to 60). *)
Definition encode_step (df : loc) (col : string) : M world unit :=
  c <- getitem df col;;
  let '(codes, unique_values) := pd_factorize c in
  setitem df col (Int64 codes);;;
  print (EncodedHeader col);;;
  (c' <- getitem df col;;
   print (ColumnHead (firstn 5 (cells c'))));;;
  print (UniquePreview (firstn 5 unique_values)).

Definition encode_categorical_variables (df : loc) : M world loc :=
  frame <- deref df;;
  let categorical_columns := select_dtypes is_text frame in
  for_each categorical_columns (encode_step df);;;
  ret df.

Definition analyze_dataset (df : loc) : M world unit :=
  frame <- deref df;;
  let '(rows, columns) := shape frame in
  print (ShapeLine rows columns).

(** [df[df[key] == value][col].dropna()]. *)
Definition group_values (df : loc) (key : string) (value : cell) (col : string)
  : M world (list cell) :=
  k <- getitem df key;;
  let mask := map (fun c => cell_eqb c value) (cells k) in
  c <- getitem df col;;
  ret (dropna_cells (mask_select mask (cells c))).

Definition report_test (h : hypothesis) (result : num * num) : M world unit :=
  let '(stat, p_value) := result in
  print (TestResult h stat p_value);;;
  if num_ltb p_value (5 # 100)
  then print (Decision h true)
  else print (Decision h false).

(** Test A (lines 70 to 77): one-way analysis of variance of the sale
    price over the groups of land use. *)
Definition test_landuse_price (df : loc) : M world unit :=
  print (HypothesisHeader LandUsePrice);;;
  landuse <- getitem df "landuse";;
  groups <- comprehension
              (List.filter (fun value => negb (isnull value)) (pd_unique landuse))
              (fun value => group_values df "landuse" value "saleprice");;
  result <- lift (f_oneway groups);;
  report_test LandUsePrice result.

(** Test B (lines 79 to 87): t-test of the acreage of the lots sold as
    vacant against the others, with [equal_var=False]. *)
Definition test_vacant_acreage (df : loc) : M world unit :=
  print (HypothesisHeader VacantAcreage);;;
  vacant <- group_values df "soldasvacant" (CInt 1) "acreage";;
  non_vacant <- group_values df "soldasvacant" (CInt 0) "acreage";;
  result <- lift (ttest_ind vacant non_vacant false);;
  report_test VacantAcreage result.

Definition test_hypotheses (df : loc) : M world unit :=
  test_landuse_price df;;;
  test_vacant_acreage df.

Definition correlation_table (df : loc) (target_column : string) : M world unit :=
  frame <- deref df;;
  let numeric_columns := select_dtypes is_numeric frame in
  column <- lift (matrix_getitem (corr float_corr frame numeric_columns) target_column);;
  let correlation := sort_values_desc column in
  print CorrelationHeader;;;
  print (CorrelationTable correlation);;;
  frame <- deref df;;
  print (HeatmapShown (corr float_corr frame numeric_columns)).

(** The entry point. *)
Definition main : M world unit :=
  engine <- connect_to_db "povt-cluster.tstu.tver.ru" 5432 "mpi" "135a1" "db_housing";;
  df <- load_data engine main_query;;
  df <- encode_categorical_variables df;;
  analyze_dataset df;;;
  test_hypotheses df;;;
  correlation_table df "saleprice".

End Script.

(** ** What the description says, as definitions to compare with *)

(** Mapping a code back through the list of labels; a negative code is
    the sentinel of a missing value. *)
Definition decode {A} (uniques : list A) (code : Z) : option A :=
  if code <? 0 then None else uniques !! Z.to_nat code.

(** The distinct values in the order of their first appearance. *)
Fixpoint first_seen {A} (eqb : A -> A -> bool) (xs : list A) : list A :=
  match xs with
  | [] => []
  | x :: rest => x :: List.filter (fun y => negb (eqb x y)) (first_seen eqb rest)
  end.

(** A code is the sentinel or a position in the labels. *)
Definition in_range {A} (uniques : list A) (c : Z) : Prop :=
  c = -1 \/ 0 <= c < Z.of_nat (length uniques).

(** Membership in the labels seen so far. *)
Definition mem {A} (eqb : A -> A -> bool) (us : list A) (v : A) : bool :=
  existsb (eqb v) us.

(** A column [xs] is encoded by [codes] with labels [uniques]: the labels
    are the distinct values in first-seen order, a missing value has the
    code -1, the other codes are positions in the labels, decoding gives
    the column back, two rows have the same code exactly when they have
    the same value, and every position is the code of some row. *)
Record encoding {A} (eqb : A -> A -> bool)
       (xs : list (option A)) (codes : list Z) (uniques : list A) : Prop := {
  enc_labels : uniques = first_seen eqb (dropna xs);
  enc_nodup : NoDup uniques;
  enc_range : Forall (in_range uniques) codes;
  enc_roundtrip : map (decode uniques) codes = xs;
  enc_null : forall i, xs !! i = Some None <-> codes !! i = Some (-1);
  enc_inj : forall i j ci cj,
      codes !! i = Some ci -> codes !! j = Some cj ->
      (ci = cj <-> xs !! i = xs !! j);
  enc_onto : forall c, (c < length uniques)%nat ->
      exists i, codes !! i = Some (Z.of_nat c)
}.

(** The dataset after the Encoder, and what the Encoder prints. *)
Definition encode_column (c : column) : column :=
  if is_text c then Int64 (fst (pd_factorize c)) else c.

Definition encode_frame (frame : DataFrame) : DataFrame :=
  map (fun p => (fst p, encode_column (snd p))) frame.

Definition encode_output (frame : DataFrame) : list line :=
  flat_map (fun p =>
              if is_text (snd p)
              then [EncodedHeader (fst p);
                    ColumnHead (firstn 5 (map CInt (fst (pd_factorize (snd p)))));
                    UniquePreview (firstn 5 (snd (pd_factorize (snd p))))]
              else []) frame.

(** The lines the Numeric Profiler prints for the statistics [ss] of a
    column, and the failure that stops it, if any. *)
Fixpoint stat_report
         (float_stat : stat -> column -> num)
         (text_stat : stat -> text_dtype -> list (option string) -> outcome (num + string))
         (other_stat : stat -> string -> list cell -> outcome (num + string))
         (c : column) (ss : list stat) : list line * option exn :=
  match ss with
  | [] => ([], None)
  | s :: rest =>
      match series_stat float_stat text_stat other_stat s c with
      | Raise e => ([], Some e)
      | Return (inl x) =>
          let '(ls, f) := stat_report float_stat text_stat other_stat c rest in
          (Stat s x :: ls, f)
      | Return (inr t) =>
          match s with
          | Maximum | Minimum =>
              let '(ls, f) := stat_report float_stat text_stat other_stat c rest in
              (StatText s t :: ls, f)
          | _ => ([], Some (ValueError "Unknown format code"))
          end
      end
  end.

(** The failure met while profiling a column, if any. *)
Definition numeric_failure
           (float_stat : stat -> column -> num)
           (text_stat : stat -> text_dtype -> list (option string) -> outcome (num + string))
           (other_stat : stat -> string -> list cell -> outcome (num + string))
           (frame : DataFrame) (col : string) : option exn :=
  match frame_get frame col with
  | None => Some (KeyError col)
  | Some c => snd (stat_report float_stat text_stat other_stat c numeric_stats)
  end.

(** Everything the Numeric Profiler prints for one column. *)
Definition numeric_report
           (float_stat : stat -> column -> num)
           (text_stat : stat -> text_dtype -> list (option string) -> outcome (num + string))
           (other_stat : stat -> string -> list cell -> outcome (num + string))
           (frame : DataFrame) (col : string) : list line :=
  NumericHeader col
  :: match frame_get frame col with
     | None => []
     | Some c => fst (stat_report float_stat text_stat other_stat c numeric_stats)
     end
  ++ match numeric_failure float_stat text_stat other_stat frame col with
     | Some e => [NumericError col e]
     | None => []
     end.

(** Everything the Categorical Profiler prints for a column that the
    dataset has. *)
Definition categorical_report (col : string) (c : column) : list line :=
  [CategoricalHeader col;
   Stat MissingShare (null_share (cells c));
   UniqueCount (pd_nunique c);
   ModeLine (head (pd_mode c))].

(** The values of one column at the rows whose key satisfies [p]. *)
Definition select_rows (p : cell -> bool) (keys values : list cell) : list cell :=
  map snd (List.filter (fun kv => p (fst kv)) (combine keys values)).

(** The non-missing values of [values] at the rows where [keys] equals
    [k]. *)
Definition group (keys values : list cell) (k : cell) : list cell :=
  dropna_cells (select_rows (fun c => cell_eqb c k) keys values).

(** The distinct non-missing values of a column. *)
Definition group_keys (c : column) : list cell :=
  List.filter (fun v => negb (isnull v)) (pd_unique c).

(** No two elements of the list are equal for [eqb]. *)
Fixpoint pairwise_distinct {A} (eqb : A -> A -> bool) (l : list A) : Prop :=
  match l with
  | [] => True
  | x :: rest => Forall (fun y => eqb x y = false) rest /\ pairwise_distinct eqb rest
  end.

(** [m] is the mode the description promises: a value of the column
    that no value outnumbers, and the least of the values that occur as
    often. *)
Definition is_mode {A} (eqb leb : A -> A -> bool) (xs : list A) (m : A) : Prop :=
  In m xs
  /\ (forall v, In v xs -> (count eqb v xs <= count eqb m xs)%nat)
  /\ (forall v, In v xs -> count eqb v xs = count eqb m xs -> leb m v = true).

(** What the mode line of a column may show: nothing when the column has
    no value, the mode of its values otherwise, the least in the order
    pandas sorts the modes with: that of the numbers, of the texts, or,
    for a category column, of its categories. *)
Definition reported_mode (c : column) (reported : option cell) : Prop :=
  match c, reported with
  | Float64 xs, None => dropna xs = []
  | Float64 xs, Some r =>
      exists m, r = CFloat m /\ is_mode Qeq_bool Qle_bool (dropna xs) m
  | Int64 xs, None => xs = []
  | Int64 xs, Some r => exists m, r = CInt m /\ is_mode Z.eqb Z.leb xs m
  | Text _ xs, None => dropna xs = []
  | Text Object xs, Some r =>
      exists m, r = CText m /\ is_mode String.eqb String.leb (dropna xs) m
  | Text (Category categories) xs, Some r =>
      exists m, r = CText m
                /\ is_mode String.eqb (category_leb categories) (dropna xs) m
  | Other _ xs, None => dropna_cells xs = []
  | Other _ xs, Some r => is_mode same_key cell_leb (dropna_cells xs) r
  end.

(** The statistics in exact arithmetic, after their definitions in the
    documentation of pandas (the sample variance; the median as the
    middle of the sorted values; a percentile by linear interpolation
    between the two sorted values around its position).  This is what
    the float64 results approximate, not what the script prints. *)
Definition nanmean (xs : list Q) : num :=
  match xs with
  | [] => NaN
  | _ => Fin (qsum xs / qlen xs)
  end.

(** [Series.var()]: the sample variance (one degree of freedom less). *)
Definition nanvar (xs : list Q) : num :=
  match xs with
  | [] | [_] => NaN
  | _ =>
      let m := (qsum xs / qlen xs)%Q in
      Fin (qsum (map (fun x => (x - m) * (x - m))%Q xs) / (qlen xs - 1))
  end.

(** [Series.median()]: the middle of the sorted values, or the mean of
    the two middle ones. *)
Definition nanmedian (xs : list Q) : num :=
  let s := sort Qle_bool xs in
  let n := length s in
  match n with
  | O => NaN
  | _ =>
      if Nat.even n
      then Fin ((nth (n / 2 - 1) s 0 + nth (n / 2) s 0) / 2)%Q
      else Fin (nth (n / 2) s 0%Q)
  end.

(** [Series.quantile(q)]: linear interpolation between the two sorted
    values around position [q * (n - 1)]. *)
Definition interpolate (s : list Q) (pos : Q) : Q :=
  let lo := Z.to_nat (Qfloor pos) in
  let frac := (pos - inject_Z (Qfloor pos))%Q in
  let a := nth lo s 0%Q in
  let b := nth (S lo) s a in
  (a + (b - a) * frac)%Q.

Definition nanquantile (q : Q) (xs : list Q) : num :=
  let s := sort Qle_bool xs in
  match s with
  | [] => NaN
  | _ => Fin (interpolate s (q * (qlen s - 1)))
  end.

Definition exact_stat (s : stat) (xs : list (option Q)) : num :=
  match s with
  | MissingShare => null_share (map float_cell xs)
  | Maximum => nanmax (dropna xs)
  | Minimum => nanmin (dropna xs)
  | Mean => nanmean (dropna xs)
  | Median => nanmedian (dropna xs)
  | Variance => nanvar (dropna xs)
  | Quantile01 => nanquantile (1 # 10) (dropna xs)
  | Quantile09 => nanquantile (9 # 10) (dropna xs)
  | Quartile1 => nanquantile (1 # 4) (dropna xs)
  | Quartile3 => nanquantile (3 # 4) (dropna xs)
  end.

(** A library whose float64 arithmetic makes no rounding error. *)
Definition exact_float_stat (s : stat) (c : column) : num :=
  match numeric_values c with
  | Some xs => exact_stat s xs
  | None => NaN
  end.

(** Sorted in ascending order. *)
Definition Qsorted (s : list Q) : Prop :=
  StronglySorted (fun a b => Qle_bool a b = true) s.

(** [a <= b] on computed floats; a comparison with NaN does not hold. *)
Definition num_le (a b : num) : Prop :=
  match a, b with
  | Fin x, Fin y => (x <= y)%Q
  | _, _ => False
  end.

Definition percentiles : list stat := [Quantile01; Quartile1; Quartile3; Quantile09].

(** The order the description states between the statistics of a
    column, [value s] being the number given for the statistic [s]. *)
Definition ordered_statistics (value : stat -> num) : Prop :=
  Forall (fun p => num_le (value Minimum) (value p)
                   /\ num_le (value p) (value Maximum)) percentiles
  /\ num_le (value Quartile1) (value Median)
  /\ num_le (value Median) (value Quartile3).

(** The number the line of a statistic displays. *)
Definition shown (s : stat) (v : num) : num :=
  match v with
  | NaN => NaN
  | Fin q => Fin (displayed s q)
  end.

(** The displayed number is within half a unit of the fourth decimal of
    the interval. *)
Definition num_near (lo v hi : num) : Prop :=
  match lo, v, hi with
  | Fin a, Fin x, Fin b => (a - (1 # 20000) <= x /\ x <= b + (1 # 20000))%Q
  | _, _, _ => False
  end.

(** What the description states of the printed correlation table: the
    entry of the target comes first, it is 1, and it is the maximum. *)
Definition self_correlation_first (table : series) (target : string) : Prop :=
  (exists rest, table = (target, Some 1%R) :: rest)
  /\ forall name r, In (name, Some r) table -> (r <= 1)%R.

(** The column of the correlation matrix a label selects. *)
Definition correlations_with (float_corr : list (R * R) -> option R)
           (df : DataFrame) (names : list string) (target : string) : series :=
  map (fun a => (a, coefficient float_corr df names a target)) names.

(** Pearson's coefficient in exact arithmetic: the sum of the products
    of the deviations from the means over the square root of the
    product of the two sums of squared deviations; NaN when the divisor
    is zero.  This is what the float64 result approximates. *)
Definition rsum (xs : list R) : R := fold_right Rplus 0%R xs.

Definition rmean (xs : list R) : R := (rsum xs / INR (length xs))%R.

Definition codeviation (xs ys : list R) : R :=
  rsum (map (fun p => ((fst p - rmean xs) * (snd p - rmean ys))%R)
            (combine xs ys)).

Definition exact_corr (ps : list (R * R)) : option R :=
  let a := map fst ps in
  let b := map snd ps in
  let divisor := sqrt (codeviation a a * codeviation b b) in
  if Req_dec_T divisor 0 then None
  else Some (codeviation a b / divisor)%R.

(** The storage types one of the Encoder and the Correlation Reporter
    selects: float64, int64, object and category. *)
Definition numeric_or_text (c : column) : bool := is_numeric c || is_text c.

(** A computation that leaves every object of the heap as it was,
    whatever its outcome. *)
Definition heap_preserving {A} (m : M world A) : Prop :=
  forall w, heap (snd (m w)) = heap w.

(** A computation that only appends to the output, and only lines that
    satisfy [P]. *)
Definition emits {A} (P : line -> Prop) (m : M world A) : Prop :=
  forall w, exists out, stdout (snd (m w)) = stdout w ++ out /\ Forall P out.

(** The lines only the two profilers print. *)
Definition profiler_line (l : line) : bool :=
  match l with
  | NumericHeader _ | Stat _ _ | StatText _ _ | NumericError _ _
  | CategoricalHeader _ | UniqueCount _ | ModeLine _ => true
  | _ => false
  end.

(** A table in the order of [sort_values(ascending=False)]: of two
    entries the earlier holds the larger number, and no NaN entry comes
    before a number. *)
Definition descending_nan_last (t : series) : Prop :=
  forall i j a b, (i < j)%nat -> t !! i = Some a -> t !! j = Some b ->
    match snd a, snd b with
    | Some x, Some y => (y <= x)%R
    | None, Some _ => False
    | _, None => True
    end.

(** ** Sample data *)

(** A small dataset with the columns the script names, with missing
    values and a tie for the most frequent land use. *)
Definition sample_frame : DataFrame :=
  [("landuse"%string,
    Text Object [Some "B"; Some "A"; None; Some "B"; Some "A"]%string);
   ("saleprice"%string, Int64 [200; 100; 5; 210; 110]);
   ("soldasvacant"%string, Int64 [1; 0; 1; 0; 1]);
   ("acreage"%string,
    Float64 [Some (5 # 1); Some (1 # 1); None; Some (52 # 10); Some (12 # 10)]%Q)].

Definition sample_world : world := World (<[1%positive := sample_frame]> ∅) [].

(** A dataset whose vacancy flag is still text, as the query gives it. *)
Definition flag_frame : DataFrame :=
  [("soldasvacant"%string, Text Object [Some "Yes"; Some "No"; Some "Yes"]%string);
   ("acreage"%string, Int64 [1; 2; 3])].

Definition flag_world : world := World (<[1%positive := flag_frame]> ∅) [].

(** The acreage column of the sample dataset. *)
Definition acreage_column : column :=
  Float64 [Some (5 # 1); Some (1 # 1); None; Some (52 # 10); Some (12 # 10)]%Q.

(** A column of one small price, 2^-15: a percentile of it is displayed
    as 0.0000, below the minimum displayed as it is. *)
Definition tiny_column : column := Float64 [Some (1 # 32768)]%Q.

(** A column of one large integer, 2^63 - 1, which is not a float64
    value. *)
Definition huge_column : column := Int64 [9223372036854775807].

(** A dataset whose sale price is the same in every row. *)
Definition constant_frame : DataFrame :=
  [("saleprice"%string, Int64 [100; 100])].

Definition constant_world : world := World (<[1%positive := constant_frame]> ∅) [].

(** A dataset whose two sale prices are the same float64 value. *)
Definition collapsed_frame : DataFrame :=
  [("saleprice"%string, Int64 [9007199254740992; 9007199254740993])].

Definition collapsed_world : world := World (<[1%positive := collapsed_frame]> ∅) [].

(** A dataset where two other columns hold the sale prices too. *)
Definition tied_frame : DataFrame :=
  [("before"%string, Int64 [1; 2]);
   ("saleprice"%string, Int64 [1; 2]);
   ("after"%string, Int64 [1; 2])].

Definition tied_world : world := World (<[1%positive := tied_frame]> ∅) [].

(** * Properties *)

(** ** The codes of factorize *)

Section FactorizeFacts.
Context {A : Type} (eqb : A -> A -> bool).
Hypothesis eqb_eq : forall x y, eqb x y = true <-> x = y.

Lemma index_of_Some v us i :
  index_of eqb v us = Some i -> us !! i = Some v.
Proof.
  revert i. induction us as [|u us IH]; intros i; simpl; [discriminate|].
  destruct (eqb u v) eqn:E.
  - intros [= <-]. apply eqb_eq in E. by subst.
  - destruct (index_of eqb v us) as [k|]; simpl; [|discriminate].
    intros [= <-]. simpl. by apply IH.
Qed.

Lemma index_of_None v us :
  index_of eqb v us = None -> v ∉ us.
Proof.
  induction us as [|u us IH]; simpl; intros H.
  - apply not_elem_of_nil.
  - destruct (eqb u v) eqn:E; [discriminate|].
    destruct (index_of eqb v us); [discriminate|].
    apply not_elem_of_cons. split; [|by apply IH].
    intros ->. rewrite (proj2 (eqb_eq u u) eq_refl) in E. discriminate.
Qed.

Lemma index_of_elem v us :
  v ∈ us -> is_Some (index_of eqb v us).
Proof.
  intros H. destruct (index_of eqb v us) eqn:E; [eauto|].
  by apply index_of_None in E.
Qed.

Lemma filter_filter_comm (p q : A -> bool) l :
  List.filter p (List.filter q l) = List.filter q (List.filter p l).
Proof.
  induction l as [|x l IH]; simpl; [done|].
  destruct (q x) eqn:Q, (p x) eqn:P; simpl; rewrite ?Q, ?P, ?IH; done.
Qed.

Lemma filter_absorb (p : A -> bool) x l :
  p x = false ->
  List.filter p (List.filter (fun y => negb (eqb x y)) l) = List.filter p l.
Proof.
  intros Hx. induction l as [|y l IH]; simpl; [done|].
  destruct (eqb x y) eqn:E; simpl.
  - apply eqb_eq in E. subst y. by rewrite Hx.
  - by rewrite IH.
Qed.

Lemma first_seen_filter (p : A -> bool) l :
  first_seen eqb (List.filter p l) = List.filter p (first_seen eqb l).
Proof.
  induction l as [|x l IH]; simpl; [done|].
  destruct (p x) eqn:P; simpl; rewrite ?P, IH.
  - f_equal. apply filter_filter_comm.
  - symmetry. by apply filter_absorb.
Qed.


Lemma filter_filter_and (p q : A -> bool) l :
  List.filter p (List.filter q l) = List.filter (fun x => q x && p x) l.
Proof.
  induction l as [|x l IH]; simpl; [done|].
  destruct (q x) eqn:Q; simpl; rewrite ?IH; done.
Qed.

Lemma first_seen_elem x l : x ∈ first_seen eqb l <-> x ∈ l.
Proof.
  induction l as [|y l IH]; simpl; [done|].
  rewrite !elem_of_cons, list_elem_of_In, filter_In, <- list_elem_of_In, IH.
  split; [tauto|]. intros [->|H]; [by left|].
  destruct (eqb y x) eqn:E; [left; symmetry; by apply eqb_eq|by right].
Qed.

Lemma first_seen_NoDup l : NoDup (first_seen eqb l).
Proof.
  induction l as [|y l IH]; simpl; [constructor|].
  apply NoDup_cons. split.
  - rewrite list_elem_of_In, filter_In. intros [_ H].
    rewrite (proj2 (eqb_eq y y) eq_refl) in H. discriminate.
  - apply NoDup_ListNoDup, List.NoDup_filter. by apply NoDup_ListNoDup.
Qed.

Lemma mem_elem us v : mem eqb us v = true <-> v ∈ us.
Proof.
  unfold mem. rewrite existsb_exists, list_elem_of_In. split.
  - intros (x & Hx & E). apply eqb_eq in E. by subst.
  - intros H. exists v. split; [done|]. by apply eqb_eq.
Qed.

Lemma index_of_mem v us :
  mem eqb us v = match index_of eqb v us with Some _ => true | None => false end.
Proof.
  destruct (index_of eqb v us) eqn:E.
  - apply mem_elem. apply index_of_Some in E. by eapply list_elem_of_lookup_2.
  - apply index_of_None in E. destruct (mem eqb us v) eqn:M; [|done].
    by apply mem_elem in M.
Qed.

(** The labels the loop ends with: those it started with, then the new
    ones in first-seen order. *)
Lemma factorize_loop_labels xs us :
  snd (factorize_loop eqb xs us)
  = us ++ first_seen eqb (List.filter (fun v => negb (mem eqb us v)) (dropna xs)).
Proof.
  revert us. induction xs as [|[v|] xs IH]; intros us; simpl.
  - by rewrite app_nil_r.
  - rewrite (index_of_mem v us).
    destruct (index_of eqb v us) as [i|] eqn:E; simpl.
    + specialize (IH us). destruct (factorize_loop eqb xs us). exact IH.
    + specialize (IH (us ++ [v])).
      destruct (factorize_loop eqb xs (us ++ [v])) as [codes us']. simpl in *.
      rewrite IH, <- app_assoc. simpl. do 2 f_equal.
      rewrite !first_seen_filter, filter_filter_and. apply List.filter_ext.
      intros y. unfold mem. rewrite existsb_app. simpl.
      rewrite orb_false_r, negb_orb. f_equal. f_equal.
      destruct (eqb y v) eqn:E1, (eqb v y) eqn:E2; try done.
      * apply eqb_eq in E1. subst. rewrite (proj2 (eqb_eq v v) eq_refl) in E2. done.
      * apply eqb_eq in E2. subst. rewrite (proj2 (eqb_eq y y) eq_refl) in E1. done.
  - specialize (IH us). destruct (factorize_loop eqb xs us). exact IH.
Qed.


Lemma decode_of_nat (us : list A) (i : nat) : decode us (Z.of_nat i) = us !! i.
Proof.
  unfold decode. destruct (Z.ltb_spec (Z.of_nat i) 0); [lia|].
  by rewrite Nat2Z.id.
Qed.

(** Decoding the codes of the loop gives the values back. *)
Lemma factorize_loop_codes xs us :
  map (decode (snd (factorize_loop eqb xs us))) (fst (factorize_loop eqb xs us)) = xs
  /\ Forall (in_range (snd (factorize_loop eqb xs us))) (fst (factorize_loop eqb xs us)).
Proof.
  revert us. induction xs as [|[v|] xs IH]; intros us; simpl.
  - split; constructor.
  - destruct (index_of eqb v us) as [i|] eqn:E.
    + pose proof (factorize_loop_labels xs us) as HL.
      destruct (IH us) as [IH1 IH2].
      destruct (factorize_loop eqb xs us) as [codes us']. simpl in *.
      apply index_of_Some in E.
      assert (us' !! i = Some v) as Hi.
      { rewrite HL. by apply lookup_app_l_Some. }
      split.
      * by rewrite decode_of_nat, Hi, IH1.
      * constructor; [|done]. right. apply lookup_lt_Some in Hi. lia.
    + pose proof (factorize_loop_labels xs (us ++ [v])) as HL.
      destruct (IH (us ++ [v])) as [IH1 IH2].
      destruct (factorize_loop eqb xs (us ++ [v])) as [codes us']. simpl in *.
      assert (us' !! length us = Some v) as Hi.
      { rewrite HL. apply lookup_app_l_Some. by apply list_lookup_middle. }
      split.
      * by rewrite decode_of_nat, Hi, IH1.
      * constructor; [|done]. right. apply lookup_lt_Some in Hi. lia.
  - destruct (IH us) as [IH1 IH2].
    destruct (factorize_loop eqb xs us) as [codes us']. simpl in *.
    split.
    + by rewrite IH1.
    + constructor; [by left|done].
Qed.

Lemma dropna_elem (xs : list (option A)) v :
  v ∈ dropna xs <-> exists i, xs !! i = Some (Some v).
Proof.
  induction xs as [|[x|] xs IH]; simpl.
  - split; [by intros ?%elem_of_nil|by intros [i ?]].
  - rewrite elem_of_cons, IH. split.
    + intros [->|[i Hi]]; [by exists O|by exists (S i)].
    + intros [[|i] Hi]; simpl in Hi; [left; congruence|right; eauto].
  - rewrite IH. split.
    + intros [i Hi]. by exists (S i).
    + intros [[|i] Hi]; simpl in Hi; [done|eauto].
Qed.

(** [factorize] encodes the column. *)
Lemma factorize_encoding xs :
  encoding eqb xs (fst (factorize eqb xs)) (snd (factorize eqb xs)).
Proof.
  unfold factorize.
  pose proof (factorize_loop_labels xs []) as HL.
  destruct (factorize_loop_codes xs []) as [HR HF].
  destruct (factorize_loop eqb xs []) as [codes us]. simpl in *.
  assert (us = first_seen eqb (dropna xs)) as Hus.
  { rewrite HL. f_equal. clear. induction (dropna xs) as [|y l IH]; simpl; congruence. }
  assert (NoDup us) as Hnd by (rewrite Hus; apply first_seen_NoDup).
  assert (forall i c, codes !! i = Some c -> xs !! i = Some (decode us c)) as Hdec.
  { intros i c Hc. rewrite <- HR, list_lookup_fmap, Hc. done. }
  assert (forall c, in_range us c -> decode us c = None -> c = -1) as Hnone.
  { intros c [->|Hc] Hd; [done|]. exfalso.
    unfold decode in Hd. destruct (Z.ltb_spec c 0); [lia|].
    apply lookup_ge_None in Hd. lia. }
  assert (forall i c, codes !! i = Some c -> in_range us c) as Hrange.
  { intros i c Hc. rewrite Forall_forall in HF. apply HF.
    by eapply list_elem_of_lookup_2. }
  assert (forall c d v, in_range us c -> in_range us d ->
            decode us c = Some v -> decode us d = Some v -> c = d) as Hinj.
  { intros c d v [->|Hc] [->|Hd]; try done. unfold decode.
    destruct (Z.ltb_spec c 0), (Z.ltb_spec d 0); try lia.
    intros H1 H2. pose proof (NoDup_lookup _ _ _ _ Hnd H1 H2). lia. }
  split; try done.
  - intros i. split.
    + intros Hi. rewrite <- HR, list_lookup_fmap in Hi.
      destruct (codes !! i) as [c|] eqn:Hc; [|done]. simpl in Hi.
      f_equal. eapply Hnone; [by eapply Hrange|congruence].
    + intros Hc. by rewrite (Hdec _ _ Hc).
  - intros i j ci cj Hi Hj. rewrite (Hdec _ _ Hi), (Hdec _ _ Hj). split; [by intros ->|].
    intros [= Heq]. destruct (decode us ci) as [v|] eqn:Hv.
    + eapply Hinj; eauto.
    + rewrite (Hnone ci), (Hnone cj); eauto.
  - intros c Hc. destruct (lookup_lt_is_Some_2 us c Hc) as [v Hv].
    assert (v ∈ dropna xs) as Hin.
    { eapply first_seen_elem. rewrite <- Hus. by eapply list_elem_of_lookup_2. }
    apply dropna_elem in Hin as [i Hi]. exists i.
    rewrite <- HR, list_lookup_fmap in Hi.
    destruct (codes !! i) as [ci|] eqn:Hci; [|done]. simpl in Hi.
    assert (decode us ci = Some v) as Hd by congruence.
    f_equal. apply (Hinj ci (Z.of_nat c) v); [by eapply Hrange|right; lia|done|].
    by rewrite decode_of_nat.
Qed.

End FactorizeFacts.

(** ** Frames *)

Lemma frame_get_app (a b : DataFrame) (n : string) :
  n ∉ map fst a -> frame_get (a ++ b) n = frame_get b n.
Proof.
  induction a as [|[m c] a IH]; simpl; [done|].
  intros H. apply not_elem_of_cons in H as [H1 H2].
  destruct (String.eqb_spec m n); [congruence|]. by apply IH.
Qed.

Lemma frame_set_app (a b : DataFrame) (n : string) (c : column) :
  n ∉ map fst a -> frame_set (a ++ b) n c = a ++ frame_set b n c.
Proof.
  induction a as [|[m c0] a IH]; simpl; [done|].
  intros H. apply not_elem_of_cons in H as [H1 H2].
  destruct (String.eqb_spec m n); [congruence|]. by rewrite IH.
Qed.

Lemma frame_get_elem (df : DataFrame) (n : string) (c : column) :
  frame_get df n = Some c -> (n, c) ∈ df.
Proof.
  induction df as [|[m c0] df IH]; simpl; [done|].
  destruct (String.eqb_spec m n).
  - intros [= ->]. subst. apply elem_of_cons. by left.
  - intros H. apply elem_of_cons. right. by apply IH.
Qed.

Lemma encode_frame_names (frame : DataFrame) :
  map fst (encode_frame frame) = map fst frame.
Proof. unfold encode_frame. rewrite map_map. done. Qed.

Lemma encode_frame_app (a b : DataFrame) :
  encode_frame (a ++ b) = encode_frame a ++ encode_frame b.
Proof. apply map_app. Qed.

Lemma frame_get_encode (frame : DataFrame) (n : string) :
  frame_get (encode_frame frame) n = option_map encode_column (frame_get frame n).
Proof.
  induction frame as [|[m c] frame IH]; simpl; [done|].
  destruct (String.eqb m n); [done|apply IH].
Qed.

(** ** Running the primitives *)

Lemma bind_run {W A B} (m : M W A) (k : A -> M W B) (w : W) :
  bind m k w
  = match m w with
    | (Return a, w') => k a w'
    | (Raise e, w') => (Raise e, w')
    end.
Proof. reflexivity. Qed.

Lemma run_print (l : line) (w : world) :
  print l w = (Return tt, World (heap w) (stdout w ++ [l])).
Proof. reflexivity. Qed.

Lemma run_deref (df : loc) (w : world) (frame : DataFrame) :
  heap w !! df = Some frame -> deref df w = (Return frame, w).
Proof. intros H. unfold deref. by rewrite H. Qed.

Lemma run_getitem (df : loc) (col : string) (w : world) (frame : DataFrame) (c : column) :
  heap w !! df = Some frame -> frame_get frame col = Some c ->
  getitem df col w = (Return c, w).
Proof. intros H1 H2. unfold getitem. by rewrite bind_run, (run_deref _ _ _ H1), H2. Qed.

Lemma run_getitem_missing (df : loc) (col : string) (w : world) (frame : DataFrame) :
  heap w !! df = Some frame -> frame_get frame col = None ->
  getitem df col w = (Raise (KeyError col), w).
Proof. intros H1 H2. unfold getitem. by rewrite bind_run, (run_deref _ _ _ H1), H2. Qed.

Lemma run_setitem (df : loc) (col : string) (c : column) (w : world) (frame : DataFrame) :
  heap w !! df = Some frame ->
  setitem df col c w
  = (Return tt, World (<[df := frame_set frame col c]> (heap w)) (stdout w)).
Proof. intros H. unfold setitem. by rewrite H. Qed.

(** The Encoder's loop over the columns still to visit. *)
Lemma encode_loop (df : loc) (suf pre : DataFrame) (h : gmap loc DataFrame) (out : list line) :
  NoDup (map fst (pre ++ suf)) ->
  h !! df = Some (encode_frame pre ++ suf) ->
  for_each (select_dtypes is_text suf) (encode_step df) (World h out)
  = (Return tt,
     World (<[df := encode_frame (pre ++ suf)]> h) (out ++ encode_output suf)).
Proof.
  revert pre h out. induction suf as [|[n c] suf IH]; intros pre h out Hnd Hh.
  - simpl. rewrite !app_nil_r in *. by rewrite insert_id.
  - assert (n ∉ map fst (encode_frame pre)) as Hn.
    { rewrite encode_frame_names. rewrite map_app in Hnd.
      apply NoDup_app in Hnd as (_ & Hnd & _). intros Hin.
      apply (Hnd _ Hin). simpl. apply elem_of_cons. by left. }
    assert (pre ++ (n, c) :: suf = (pre ++ [(n, c)]) ++ suf) as Hre
      by (by rewrite <- app_assoc).
    assert (NoDup (map fst ((pre ++ [(n, c)]) ++ suf))) as Hnd' by (by rewrite <- Hre).
    rewrite Hre. unfold select_dtypes, encode_output. cbn [List.filter flat_map snd fst].
    fold (encode_output suf).
    destruct (is_text c) eqn:Ht; cbn [map fst for_each]; fold (select_dtypes is_text suf).
    + destruct (pd_factorize c) as [codes uniques] eqn:Hf.
      assert (frame_get (encode_frame pre ++ (n, c) :: suf) n = Some c) as Hget.
      { rewrite frame_get_app by done. simpl. by rewrite String.eqb_refl. }
      rewrite bind_run. unfold encode_step.
      rewrite bind_run, (run_getitem df n (World h out) _ _ Hh Hget), Hf.
      rewrite bind_run, (run_setitem df n _ (World h out) _ Hh). cbn [heap stdout].
      rewrite bind_run, run_print. cbn [heap stdout].
      rewrite frame_set_app by done. cbn [frame_set]. rewrite String.eqb_refl.
      rewrite bind_run, bind_run.
      erewrite run_getitem; cycle 1.
      { cbn [heap]. apply lookup_insert_eq. }
      { rewrite frame_get_app by done. simpl. by rewrite String.eqb_refl. }
      rewrite !run_print. cbn [heap stdout].
      rewrite (IH (pre ++ [(n, c)])); [|done|].
      * rewrite insert_insert_eq. cbn [cells fst snd]. rewrite <- !app_assoc. done.
      * rewrite lookup_insert_eq, encode_frame_app, <- app_assoc. simpl.
        unfold encode_column. rewrite Ht, Hf. done.
    + rewrite (IH (pre ++ [(n, c)])); [done|done|].
      rewrite Hh, encode_frame_app, <- app_assoc. simpl.
      unfold encode_column. rewrite Ht. done.
Qed.

(** The Encoder replaces the dataset by its encoded form, in place, and
    returns the reference it was given. *)
Lemma encode_run (df : loc) (frame : DataFrame) (w : world) :
  heap w !! df = Some frame ->
  NoDup (map fst frame) ->
  encode_categorical_variables df w
  = (Return df,
     World (<[df := encode_frame frame]> (heap w)) (stdout w ++ encode_output frame)).
Proof.
  intros Hh Hnd. unfold encode_categorical_variables.
  unfold bind at 1, deref at 1. rewrite Hh.
  unfold bind at 1. destruct w as [h out]. simpl in *.
  rewrite (encode_loop df frame [] h out); done.
Qed.

(** ** The Encoder *)

(** C1. Every text column the Encoder meets is replaced by integer codes
    that encode it: the labels are the distinct values in first-seen
    order without repetition, the codes of the values are positions in
    the labels and every position is used, decoding each row's code
    through the labels gives the row's value back, and the missing
    values, and only they, have the code -1.  The run prints the first
    five labels. *)
Theorem encoder_roundtrip (df : loc) (frame : DataFrame) (w : world)
        (col : string) (d : text_dtype) (xs : list (option string)) :
  heap w !! df = Some frame ->
  NoDup (map fst frame) ->
  frame_get frame col = Some (Text d xs) ->
  exists w' frame' codes uniques,
    encode_categorical_variables df w = (Return df, w')
    /\ heap w' !! df = Some frame'
    /\ frame_get frame' col = Some (Int64 codes)
    /\ In (UniquePreview (firstn 5 (map CText uniques))) (stdout w')
    /\ encoding String.eqb xs codes uniques.
Proof.
  intros Hh Hnd Hcol.
  exists (World (<[df := encode_frame frame]> (heap w)) (stdout w ++ encode_output frame)),
         (encode_frame frame),
         (fst (factorize String.eqb xs)), (snd (factorize String.eqb xs)).
  split; [by apply encode_run|]. cbn [heap stdout].
  split; [apply lookup_insert_eq|].
  assert (pd_factorize (Text d xs)
          = (fst (factorize String.eqb xs), map CText (snd (factorize String.eqb xs)))) as Hf.
  { simpl. by destruct (factorize String.eqb xs). }
  split.
  { rewrite frame_get_encode, Hcol. simpl. unfold encode_column. simpl is_text.
    cbv iota. by rewrite Hf. }
  split.
  { apply in_or_app. right. unfold encode_output. apply in_flat_map.
    exists (col, Text d xs). split.
    - apply list_elem_of_In. by apply frame_get_elem.
    - cbn [fst snd is_text]. rewrite Hf. cbn [fst snd]. right. right. by left. }
  apply factorize_encoding. apply String.eqb_eq.
Qed.

Lemma encoder_roundtrip_witness :
  exists w' frame' codes uniques,
    encode_categorical_variables 1%positive sample_world = (Return 1%positive, w')
    /\ heap w' !! 1%positive = Some frame'
    /\ frame_get frame' "landuse" = Some (Int64 codes)
    /\ In (UniquePreview (firstn 5 (map CText uniques))) (stdout w')
    /\ encoding String.eqb [Some "B"; Some "A"; None; Some "B"; Some "A"]%string
                codes uniques.
Proof.
  apply (encoder_roundtrip 1%positive sample_frame sample_world "landuse" Object).
  - reflexivity.
  - apply NoDup_ListNoDup. repeat constructor; simpl; intuition discriminate.
  - reflexivity.
Defined.

Example sample_codes :
  factorize String.eqb [Some "B"; Some "A"; None; Some "B"; Some "A"]%string
  = ([0; 1; -1; 0; 1], ["B"; "A"]%string).
Proof. reflexivity. Qed.

(** ** Stages that only read the dataset *)

Lemma preserving_ret {A} (a : A) : heap_preserving (ret a).
Proof. by intros w. Qed.

Lemma preserving_raise {A} (e : exn) : heap_preserving (@raise world A e).
Proof. by intros w. Qed.

Lemma preserving_lift {A} (o : outcome A) : heap_preserving (lift o).
Proof. by intros w. Qed.

Lemma preserving_print (l : line) : heap_preserving (print l).
Proof. by intros w. Qed.

Lemma preserving_deref (df : loc) : heap_preserving (deref df).
Proof. intros w. unfold deref. by destruct (heap w !! df). Qed.

Lemma preserving_bind {A B} (m : M world A) (k : A -> M world B) :
  heap_preserving m -> (forall a, heap_preserving (k a)) ->
  heap_preserving (bind m k).
Proof.
  intros Hm Hk w. rewrite bind_run. specialize (Hm w).
  destruct (m w) as [[a|e] w']; simpl in *; [|done].
  by rewrite Hk.
Qed.

Lemma preserving_try {A} (m : M world A) (handler : exn -> M world A) :
  heap_preserving m -> (forall e, heap_preserving (handler e)) ->
  heap_preserving (try_except m handler).
Proof.
  intros Hm Hk w. unfold try_except. specialize (Hm w).
  destruct (m w) as [[a|e] w']; simpl in *; [done|].
  destruct (is_Exception e); [|done]. by rewrite Hk.
Qed.

Lemma preserving_for_each {A} (xs : list A) (body : A -> M world unit) :
  (forall x, heap_preserving (body x)) -> heap_preserving (for_each xs body).
Proof.
  intros Hb. induction xs as [|x xs IH]; simpl.
  - apply preserving_ret.
  - apply preserving_bind; [apply Hb|done].
Qed.

Lemma preserving_comprehension {A B} (xs : list A) (f : A -> M world B) :
  (forall x, heap_preserving (f x)) -> heap_preserving (comprehension xs f).
Proof.
  intros Hf. induction xs as [|x xs IH]; simpl.
  - apply preserving_ret.
  - apply preserving_bind; [apply Hf|]. intros y.
    apply preserving_bind; [done|]. intros ys. apply preserving_ret.
Qed.

Lemma preserving_getitem (df : loc) (col : string) : heap_preserving (getitem df col).
Proof.
  apply preserving_bind; [apply preserving_deref|]. intros frame.
  destruct (frame_get frame col); [apply preserving_ret|apply preserving_raise].
Qed.

(** Heap preservation follows the structure of the computation. *)
Ltac preserving :=
  repeat first
    [ progress intros
    | apply preserving_bind
    | apply preserving_try
    | apply preserving_for_each
    | apply preserving_comprehension
    | apply preserving_getitem
    | apply preserving_deref
    | apply preserving_print
    | apply preserving_lift
    | apply preserving_ret
    | apply preserving_raise
    | match goal with
      | |- heap_preserving (match ?x with _ => _ end) => destruct x
      | |- heap_preserving (if ?x then _ else _) => destruct x
      | |- heap_preserving (let '(_, _) := ?x in _) => destruct x
      end ].

Section ReadOnly.
Variable f_oneway : list (list cell) -> outcome (num * num).
Variable ttest_ind : list cell -> list cell -> bool -> outcome (num * num).
Variable float_corr : list (R * R) -> option R.
Variable float_stat : stat -> column -> num.
Variable text_stat : stat -> text_dtype -> list (option string) -> outcome (num + string).
Variable other_stat : stat -> string -> list cell -> outcome (num + string).

Lemma preserving_analyze (df : loc) : heap_preserving (analyze_dataset df).
Proof. unfold analyze_dataset. preserving. Qed.

Lemma preserving_group_values (df : loc) key value col :
  heap_preserving (group_values df key value col).
Proof. unfold group_values. preserving. Qed.

Lemma preserving_report_test h result : heap_preserving (report_test h result).
Proof. unfold report_test. preserving. Qed.

Lemma preserving_test_hypotheses (df : loc) :
  heap_preserving (test_hypotheses f_oneway ttest_ind df).
Proof.
  unfold test_hypotheses, test_landuse_price, test_vacant_acreage.
  repeat first [ apply preserving_group_values | apply preserving_report_test
               | progress preserving ].
Qed.

Lemma preserving_correlation_table (df : loc) target :
  heap_preserving (correlation_table float_corr df target).
Proof. unfold correlation_table. preserving. Qed.

Lemma preserving_numeric (df : loc) columns :
  heap_preserving
    (exploratory_analysis_numeric float_stat text_stat other_stat df columns).
Proof.
  unfold exploratory_analysis_numeric, profile_numeric, print_stat, stat_line.
  preserving.
Qed.

Lemma preserving_categorical (df : loc) columns :
  heap_preserving (exploratory_analysis_categorical df columns).
Proof. unfold exploratory_analysis_categorical, profile_categorical. preserving. Qed.
End ReadOnly.

(** ** The Connector and the Loader *)

Section Fatal.
Variable create_engine : string -> outcome engine.
Variable read_sql_query : string -> engine -> outcome DataFrame.
Variable f_oneway : list (list cell) -> outcome (num * num).
Variable ttest_ind : list cell -> list cell -> bool -> outcome (num * num).
Variable float_corr : list (R * R) -> option R.

Lemma connect_failure host port user password database e w :
  create_engine (connection_url host port user password database) = Raise e ->
  connect_to_db create_engine host port user password database w
  = if is_Exception e
    then (Raise SystemExit, World (heap w) (stdout w ++ [ConnectError e]))
    else (Raise e, w).
Proof.
  intros H. unfold connect_to_db, try_except.
  rewrite bind_run. unfold lift. rewrite H.
  destruct (is_Exception e); reflexivity.
Qed.

Lemma connect_success host port user password database eng w :
  create_engine (connection_url host port user password database) = Return eng ->
  connect_to_db create_engine host port user password database w
  = (Return eng, World (heap w) (stdout w ++ [ConnectOk])).
Proof.
  intros H. unfold connect_to_db, try_except.
  rewrite bind_run. unfold lift. rewrite H. reflexivity.
Qed.

Lemma load_failure eng query e w :
  read_sql_query query eng = Raise e ->
  load_data read_sql_query eng query w
  = if is_Exception e
    then (Raise SystemExit, World (heap w) (stdout w ++ [QueryError e]))
    else (Raise e, w).
Proof.
  intros H. unfold load_data, try_except.
  rewrite bind_run. unfold lift. rewrite H.
  destruct (is_Exception e); reflexivity.
Qed.

(** C3. A failure of the connection or of the query is logged and the
    process halts: the function prints the error and raises
    [SystemExit], it returns nothing, and the entry point stops there
    with nothing else printed and the heap as it was. *)
Theorem connector_loader_failure_is_fatal (e : exn) (w : world) :
  is_Exception e = true ->
  (forall host port user password database,
      create_engine (connection_url host port user password database) = Raise e ->
      connect_to_db create_engine host port user password database w
      = (Raise SystemExit, World (heap w) (stdout w ++ [ConnectError e])))
  /\ (forall eng query,
      read_sql_query query eng = Raise e ->
      load_data read_sql_query eng query w
      = (Raise SystemExit, World (heap w) (stdout w ++ [QueryError e])))
  /\ (create_engine main_url = Raise e ->
      main create_engine read_sql_query f_oneway ttest_ind float_corr w
      = (Raise SystemExit, World (heap w) (stdout w ++ [ConnectError e])))
  /\ (forall eng,
      create_engine main_url = Return eng ->
      read_sql_query main_query eng = Raise e ->
      main create_engine read_sql_query f_oneway ttest_ind float_corr w
      = (Raise SystemExit, World (heap w) (stdout w ++ [ConnectOk; QueryError e]))).
Proof.
  intros He. repeat split.
  - intros * H. by rewrite (connect_failure _ _ _ _ _ _ _ H), He.
  - intros * H. by rewrite (load_failure _ _ _ _ H), He.
  - intros H. unfold main. rewrite bind_run.
    fold main_url in H. unfold main_url in H.
    by rewrite (connect_failure _ _ _ _ _ _ _ H), He.
  - intros eng H1 H2. unfold main. rewrite bind_run.
    unfold main_url in H1. rewrite (connect_success _ _ _ _ _ _ _ H1).
    rewrite bind_run, (load_failure _ _ _ _ H2), He. cbn [heap stdout].
    by rewrite <- app_assoc.
Qed.

(** Whatever is raised, also outside [Exception], neither function
    returns a value. *)
Lemma connector_loader_never_return_on_raise e w :
  (forall host port user password database,
      create_engine (connection_url host port user password database) = Raise e ->
      exists e' w', connect_to_db create_engine host port user password database w
                    = (Raise e', w'))
  /\ (forall eng query,
      read_sql_query query eng = Raise e ->
      exists e' w', load_data read_sql_query eng query w = (Raise e', w')).
Proof.
  split.
  - intros * H. rewrite (connect_failure _ _ _ _ _ _ _ H).
    destruct (is_Exception e); eauto.
  - intros * H. rewrite (load_failure _ _ _ _ H).
    destruct (is_Exception e); eauto.
Qed.
End Fatal.

Lemma connector_loader_failure_is_fatal_witness :
  let create_engine := fun _ : string => Raise (OperationalError "connection refused") in
  let read_sql_query := fun (_ : string) (_ : engine) => Return sample_frame in
  let f_oneway := fun _ : list (list cell) => Return (NaN, NaN) in
  let ttest_ind := fun (_ _ : list cell) (_ : bool) => Return (NaN, NaN) in
  main create_engine read_sql_query f_oneway ttest_ind exact_corr (World ∅ [])
  = (Raise SystemExit, World ∅ [ConnectError (OperationalError "connection refused")]).
Proof.
  intros create_engine read_sql_query f_oneway ttest_ind.
  apply (connector_loader_failure_is_fatal create_engine read_sql_query f_oneway
           ttest_ind exact_corr (OperationalError "connection refused") (World ∅ []));
    reflexivity.
Defined.

(** ** The profilers *)

Lemma world_eta (w : world) : World (heap w) (stdout w) = w.
Proof. by destruct w. Qed.

Section Profilers.
Variable float_stat : stat -> column -> num.
Variable text_stat : stat -> text_dtype -> list (option string) -> outcome (num + string).
Variable other_stat : stat -> string -> list cell -> outcome (num + string).

Lemma print_stats_run df frame col c ss w :
  heap w !! df = Some frame ->
  frame_get frame col = Some c ->
  for_each ss (print_stat float_stat text_stat other_stat df col) w
  = (match snd (stat_report float_stat text_stat other_stat c ss) with
     | None => Return tt
     | Some e => Raise e
     end,
     World (heap w)
           (stdout w ++ fst (stat_report float_stat text_stat other_stat c ss))).
Proof.
  intros Hh Hc. revert w Hh. induction ss as [|s ss IH]; intros w Hh.
  - simpl. unfold ret. by rewrite app_nil_r, world_eta.
  - cbn [for_each stat_report]. rewrite bind_run. unfold print_stat.
    rewrite bind_run, (run_getitem df col w frame c Hh Hc), bind_run.
    unfold lift.
    destruct (series_stat float_stat text_stat other_stat s c) as [[x|t]|e].
    + unfold stat_line. rewrite run_print, IH by done. cbn [heap stdout].
      destruct (stat_report float_stat text_stat other_stat c ss) as [ls f].
      cbn [fst snd]. by rewrite <- app_assoc.
    + assert (forall w', heap w' = heap w ->
                for_each ss (print_stat float_stat text_stat other_stat df col) w'
                = (match snd (stat_report float_stat text_stat other_stat c ss) with
                   | None => Return tt
                   | Some e => Raise e
                   end,
                   World (heap w)
                         (stdout w'
                          ++ fst (stat_report float_stat text_stat other_stat c ss))))
        as IH'.
      { intros w' Hw'. rewrite IH by (by rewrite Hw'). by rewrite Hw'. }
      destruct s; unfold stat_line, raise;
        try (by rewrite app_nil_r, world_eta);
        rewrite run_print, IH' by done; cbn [heap stdout];
        destruct (stat_report float_stat text_stat other_stat c ss) as [ls f];
        cbn [fst snd]; by rewrite <- app_assoc.
    + by rewrite app_nil_r, world_eta.
Qed.

Hypothesis text_stat_fails :
  forall s d xs e, text_stat s d xs = Raise e -> is_Exception e = true.
Hypothesis other_stat_fails :
  forall s d xs e, other_stat s d xs = Raise e -> is_Exception e = true.

Lemma stat_report_failure c ss e :
  snd (stat_report float_stat text_stat other_stat c ss) = Some e ->
  is_Exception e = true.
Proof.
  induction ss as [|s ss IH]; simpl; [done|].
  destruct (series_stat float_stat text_stat other_stat s c) as [[x|t]|e'] eqn:Hs.
  - destruct (stat_report float_stat text_stat other_stat c ss). simpl in *. done.
  - destruct s; try (by intros [= <-]);
      destruct (stat_report float_stat text_stat other_stat c ss); simpl in *; done.
  - intros [= <-]. unfold series_stat in Hs.
    destruct s, c; try discriminate;
      first [by eapply text_stat_fails | by eapply other_stat_fails].
Qed.

Lemma profile_numeric_run df frame col w :
  heap w !! df = Some frame ->
  profile_numeric float_stat text_stat other_stat df col w
  = (Return tt,
     World (heap w)
           (stdout w ++ numeric_report float_stat text_stat other_stat frame col)).
Proof.
  intros Hh. unfold profile_numeric, try_except, numeric_report, numeric_failure.
  rewrite bind_run, run_print.
  destruct (frame_get frame col) as [c|] eqn:Hc.
  - rewrite (print_stats_run df frame col c) by done. cbn [heap stdout].
    pose proof (stat_report_failure c numeric_stats) as Hf.
    destruct (stat_report float_stat text_stat other_stat c numeric_stats)
      as [ls [e|]]; cbn [fst snd] in *.
    + rewrite (Hf e eq_refl), run_print. cbn [heap stdout].
      by rewrite <- !app_assoc.
    + by rewrite app_nil_r, <- !app_assoc.
  - cbn [numeric_stats for_each]. rewrite bind_run. unfold print_stat.
    rewrite bind_run, (run_getitem_missing df col _ frame) by done.
    cbn [is_Exception]. rewrite run_print. cbn [heap stdout].
    by rewrite <- !app_assoc.
Qed.

Lemma numeric_run df frame columns w :
  heap w !! df = Some frame ->
  exploratory_analysis_numeric float_stat text_stat other_stat df columns w
  = (Return tt,
     World (heap w)
           (stdout w
            ++ flat_map (numeric_report float_stat text_stat other_stat frame)
                        columns)).
Proof.
  intros Hh. unfold exploratory_analysis_numeric.
  revert w Hh. induction columns as [|col columns IH]; intros w Hh.
  - simpl. unfold ret. by rewrite app_nil_r, world_eta.
  - cbn [for_each flat_map]. rewrite bind_run, (profile_numeric_run df frame) by done.
    rewrite IH by done. cbn [heap stdout]. by rewrite <- app_assoc.
Qed.

(** C4. The Numeric Profiler returns normally for every list of columns
    and prints the report of every column of the list, in order; the
    report of a column whose profiling fails with [e] starts with the
    column's header and ends with the line that logs [e], and the
    reports of the columns after it follow. *)
Theorem numeric_profiler_isolates_failures df frame columns w :
  heap w !! df = Some frame ->
  exploratory_analysis_numeric float_stat text_stat other_stat df columns w
  = (Return tt,
     World (heap w)
           (stdout w
            ++ flat_map (numeric_report float_stat text_stat other_stat frame)
                        columns))
  /\ forall before col after e,
      columns = before ++ col :: after ->
      numeric_failure float_stat text_stat other_stat frame col = Some e ->
      exists printed,
        flat_map (numeric_report float_stat text_stat other_stat frame) columns
        = flat_map (numeric_report float_stat text_stat other_stat frame)
                   before
          ++ (NumericHeader col :: printed ++ [NumericError col e])
          ++ flat_map (numeric_report float_stat text_stat other_stat frame)
                      after.
Proof.
  intros Hh. split; [by apply numeric_run|].
  intros before col after e -> He.
  exists (match frame_get frame col with
          | None => []
          | Some c =>
              fst (stat_report float_stat text_stat other_stat c numeric_stats)
          end).
  rewrite flat_map_app. cbn [flat_map]. f_equal. f_equal.
  unfold numeric_report. by rewrite He.
Qed.
End Profilers.

Lemma profile_categorical_run df frame col c w :
  heap w !! df = Some frame ->
  frame_get frame col = Some c ->
  profile_categorical df col w
  = (Return tt, World (heap w) (stdout w ++ categorical_report col c)).
Proof.
  intros Hh Hc. unfold profile_categorical, categorical_report.
  rewrite bind_run, run_print.
  rewrite bind_run, bind_run, (run_getitem df col _ frame c) by done.
  rewrite run_print. cbn [heap stdout].
  rewrite bind_run, bind_run, (run_getitem df col _ frame c) by done.
  rewrite run_print. cbn [heap stdout].
  rewrite bind_run, (run_getitem df col _ frame c) by done.
  destruct (pd_mode c) as [|m ms] eqn:Hm.
  - rewrite run_print. cbn [heap stdout head]. by rewrite <- !app_assoc.
  - rewrite bind_run, (run_getitem df col _ frame c), Hm by done.
    rewrite run_print. cbn [heap stdout head]. by rewrite <- !app_assoc.
Qed.

Lemma profile_categorical_missing df frame col w :
  heap w !! df = Some frame ->
  frame_get frame col = None ->
  profile_categorical df col w
  = (Raise (KeyError col), World (heap w) (stdout w ++ [CategoricalHeader col])).
Proof.
  intros Hh Hc. unfold profile_categorical.
  rewrite bind_run, run_print.
  rewrite bind_run, bind_run, (run_getitem_missing df col _ frame) by done.
  done.
Qed.

(** The lines of the columns profiled before the failure. *)
Lemma categorical_run df frame columns w :
  heap w !! df = Some frame ->
  Forall (fun col => is_Some (frame_get frame col)) columns ->
  exploratory_analysis_categorical df columns w
  = (Return tt,
     World (heap w)
           (stdout w ++ flat_map (fun col => match frame_get frame col with
                                             | Some c => categorical_report col c
                                             | None => []
                                             end) columns)).
Proof.
  intros Hh Hall. unfold exploratory_analysis_categorical.
  revert w Hh. induction Hall as [|col columns [c Hc] Hall IH]; intros w Hh.
  - simpl. unfold ret. by rewrite app_nil_r, world_eta.
  - cbn [for_each flat_map].
    rewrite bind_run, (profile_categorical_run df frame col c) by done.
    rewrite IH by done. cbn [heap stdout]. by rewrite Hc, <- app_assoc.
Qed.

(** C5. A failure while the Categorical Profiler profiles a column is
    not caught: after the columns before it have been reported and the
    header of the failing column printed, the exception leaves the
    profiler and nothing is printed for the columns after it. *)
Theorem categorical_profiler_aborts df frame before col after w :
  heap w !! df = Some frame ->
  Forall (fun c => is_Some (frame_get frame c)) before ->
  frame_get frame col = None ->
  exploratory_analysis_categorical df (before ++ col :: after) w
  = (Raise (KeyError col),
     World (heap w)
           (stdout w
            ++ flat_map (fun c => match frame_get frame c with
                                  | Some x => categorical_report c x
                                  | None => []
                                  end) before
            ++ [CategoricalHeader col])).
Proof.
  intros Hh Hall Hc. unfold exploratory_analysis_categorical.
  revert w Hh. induction Hall as [|b before [c Hb] Hall IH]; intros w Hh.
  - cbn [app for_each flat_map]. rewrite bind_run.
    by rewrite (profile_categorical_missing df frame col w).
  - cbn [app for_each flat_map].
    rewrite bind_run, (profile_categorical_run df frame b c) by done.
    rewrite IH by done. cbn [heap stdout]. by rewrite Hb, <- !app_assoc.
Qed.

Lemma numeric_profiler_isolates_failures_witness :
  let float_stat := exact_float_stat in
  let text_stat := fun (_ : stat) (_ : text_dtype) (_ : list (option string)) =>
                     @Raise (num + string) (TypeError "could not convert") in
  let other_stat := fun (_ : stat) (_ : string) (_ : list cell) =>
                      @Raise (num + string) (TypeError "could not convert") in
  exploratory_analysis_numeric float_stat text_stat other_stat 1%positive
    ["nothing"; "landuse"; "saleprice"]%string sample_world
  = (Return tt,
     World (heap sample_world)
           (stdout sample_world
            ++ flat_map (numeric_report float_stat text_stat other_stat sample_frame)
                        ["nothing"; "landuse"; "saleprice"]%string)).
Proof.
  intros float_stat text_stat other_stat.
  apply (numeric_profiler_isolates_failures float_stat text_stat other_stat).
  - intros s d xs e [= <-]. reflexivity.
  - intros s d xs e [= <-]. reflexivity.
  - reflexivity.
Defined.

Lemma categorical_profiler_aborts_witness :
  exploratory_analysis_categorical 1%positive
    ["landuse"; "acreage"; "nothing"; "saleprice"]%string sample_world
  = (Raise (KeyError "nothing"),
     World (heap sample_world)
           (stdout sample_world
            ++ flat_map (fun c => match frame_get sample_frame c with
                                  | Some x => categorical_report c x
                                  | None => []
                                  end) ["landuse"; "acreage"]%string
            ++ [CategoricalHeader "nothing"])).
Proof.
  apply (categorical_profiler_aborts 1%positive sample_frame
           ["landuse"; "acreage"]%string "nothing" ["saleprice"]%string sample_world).
  - reflexivity.
  - repeat constructor; by eexists.
  - reflexivity.
Defined.

(** ** Which stage changes the dataset *)

(** C9. The Encoder returns the reference it was given and leaves at it
    the dataset with the same column names, every column that is not of
    text storage type as it was, and every text column replaced by the
    integer codes that encode it in first-seen order; the shape
    reporter, the hypothesis tester, the correlation reporter and the
    two profilers leave the heap as they found it, whatever their
    outcome. *)
Theorem only_encoder_changes_dataset
        (f_oneway : list (list cell) -> outcome (num * num))
        (ttest_ind : list cell -> list cell -> bool -> outcome (num * num))
        (float_corr : list (R * R) -> option R)
        (float_stat : stat -> column -> num)
        (text_stat : stat -> text_dtype -> list (option string) -> outcome (num + string))
        (other_stat : stat -> string -> list cell -> outcome (num + string))
        (df : loc) (frame : DataFrame) (w : world) :
  heap w !! df = Some frame ->
  NoDup (map fst frame) ->
  (exists out,
      encode_categorical_variables df w
      = (Return df, World (<[df := encode_frame frame]> (heap w)) out))
  /\ map fst (encode_frame frame) = map fst frame
  /\ (forall col c, frame_get frame col = Some c -> is_text c = false ->
                    frame_get (encode_frame frame) col = Some c)
  /\ (forall col d xs, frame_get frame col = Some (Text d xs) ->
        exists codes uniques,
          frame_get (encode_frame frame) col = Some (Int64 codes)
          /\ encoding String.eqb xs codes uniques)
  /\ heap_preserving (analyze_dataset df)
  /\ heap_preserving (test_hypotheses f_oneway ttest_ind df)
  /\ (forall target, heap_preserving (correlation_table float_corr df target))
  /\ (forall columns,
        heap_preserving
          (exploratory_analysis_numeric float_stat text_stat other_stat df columns))
  /\ (forall columns, heap_preserving (exploratory_analysis_categorical df columns)).
Proof.
  intros Hh Hnd. repeat split.
  - eexists. by apply encode_run.
  - apply encode_frame_names.
  - intros col c Hc Ht. rewrite frame_get_encode, Hc. simpl.
    unfold encode_column. by rewrite Ht.
  - intros col d xs Hc.
    exists (fst (factorize String.eqb xs)), (snd (factorize String.eqb xs)). split.
    + rewrite frame_get_encode, Hc. simpl. unfold encode_column. simpl.
      by destruct (factorize String.eqb xs).
    + apply factorize_encoding, String.eqb_eq.
  - apply preserving_analyze.
  - apply preserving_test_hypotheses.
  - intros target. apply preserving_correlation_table.
  - intros columns. apply preserving_numeric.
  - intros columns. apply preserving_categorical.
Qed.

Lemma only_encoder_changes_dataset_witness :
  exists out,
    encode_categorical_variables 1%positive sample_world
    = (Return 1%positive,
       World (<[1%positive := encode_frame sample_frame]> (heap sample_world)) out).
Proof.
  apply (only_encoder_changes_dataset
           (fun _ => Return (NaN, NaN)) (fun _ _ _ => Return (NaN, NaN))
           exact_corr exact_float_stat
           (fun _ _ _ => Raise (TypeError "could not convert"))
           (fun _ _ _ => Raise (TypeError "could not convert"))
           1%positive sample_frame sample_world).
  - reflexivity.
  - apply NoDup_ListNoDup. repeat constructor; simpl; intuition discriminate.
Defined.

Example sample_encoded :
  encode_frame sample_frame
  = [("landuse"%string, Int64 [0; 1; -1; 0; 1]);
     ("saleprice"%string, Int64 [200; 100; 5; 210; 110]);
     ("soldasvacant"%string, Int64 [1; 0; 1; 0; 1]);
     ("acreage"%string,
      Float64 [Some (5 # 1); Some (1 # 1); None; Some (52 # 10); Some (12 # 10)]%Q)].
Proof. reflexivity. Qed.

(** ** Equality of values *)

Lemma Zeqb_Qeq_bool (x y : Z) : Z.eqb x y = Qeq_bool (inject_Z x) (inject_Z y).
Proof.
  destruct (Z.eqb_spec x y) as [->|Hne].
  - symmetry. apply Qeq_bool_refl.
  - symmetry. apply not_true_is_false. intros H.
    apply Qeq_bool_eq in H. apply (proj1 (inject_Z_injective x y)) in H. contradiction.
Qed.

(** Two values are equal when they are the same text, the same time, or
    stand for the same number. *)
Lemma cell_eqb_num (a b : cell) :
  cell_eqb a b
  = match cell_num a, cell_num b with
    | Some x, Some y => Qeq_bool x y
    | _, _ => match a, b with
              | CText s, CText t => String.eqb s t
              | CTime s, CTime t => Z.eqb s t
              | _, _ => false
              end
    end.
Proof. destruct a, b; simpl; try done. apply Zeqb_Qeq_bool. Qed.

Lemma cell_eqb_sym (a b : cell) : cell_eqb a b = cell_eqb b a.
Proof.
  rewrite !cell_eqb_num.
  destruct (cell_num a), (cell_num b); try apply Qeq_bool_comm;
    destruct a, b; try done; first [apply String.eqb_sym | apply Z.eqb_sym].
Qed.

Lemma cell_eqb_trans (a b c : cell) :
  cell_eqb a b = true -> cell_eqb b c = true -> cell_eqb a c = true.
Proof.
  rewrite !cell_eqb_num.
  destruct a, b, c; simpl; try done; try apply Qeq_bool_trans.
  - intros H1%String.eqb_eq H2%String.eqb_eq. subst. apply String.eqb_refl.
  - intros H1%Z.eqb_eq H2%Z.eqb_eq. subst. apply Z.eqb_refl.
Qed.

Lemma cell_eqb_refl (a : cell) : isnull a = false -> cell_eqb a a = true.
Proof.
  destruct a; simpl; try done; intros _.
  - apply Z.eqb_refl.
  - apply Qeq_bool_refl.
  - apply String.eqb_refl.
  - apply Qeq_bool_refl.
  - apply Z.eqb_refl.
Qed.

Lemma cell_eqb_notnull (a b : cell) :
  cell_eqb a b = true -> isnull a = false /\ isnull b = false.
Proof. by destruct a, b. Qed.

Lemma same_key_notnull (a b : cell) :
  isnull b = false -> same_key a b = cell_eqb a b.
Proof. intros H. unfold same_key. rewrite H, andb_false_r, orb_false_r. done. Qed.

Lemma same_key_refl (a : cell) : same_key a a = true.
Proof.
  unfold same_key. destruct (isnull a) eqn:E; simpl.
  - apply orb_true_r.
  - by rewrite cell_eqb_refl.
Qed.

Lemma same_key_sym (a b : cell) : same_key a b = same_key b a.
Proof. unfold same_key. by rewrite cell_eqb_sym, andb_comm. Qed.

Lemma same_key_trans (a b c : cell) :
  same_key a b = true -> same_key b c = true -> same_key a c = true.
Proof.
  unfold same_key. intros H1 H2.
  apply orb_true_iff in H1 as [H1|H1], H2 as [H2|H2].
  - by rewrite (cell_eqb_trans a b c).
  - apply cell_eqb_notnull in H1 as [_ H1]. apply andb_true_iff in H2 as [H2 _].
    congruence.
  - apply cell_eqb_notnull in H2 as [H2 _]. apply andb_true_iff in H1 as [_ H1].
    congruence.
  - apply andb_true_iff in H1 as [H1 _]. apply andb_true_iff in H2 as [_ H2].
    rewrite H1, H2. apply orb_true_r.
Qed.

(** ** The first-seen distinct values *)

Section UniqueFacts.
Context {A : Type} (eqb : A -> A -> bool).
Hypothesis eqb_refl : forall x, eqb x x = true.
Hypothesis eqb_sym : forall x y, eqb x y = eqb y x.
Hypothesis eqb_trans : forall x y z, eqb x y = true -> eqb y z = true -> eqb x z = true.

Lemma pairwise_distinct_snoc (l : list A) (x : A) :
  pairwise_distinct eqb l -> existsb (eqb x) l = false ->
  pairwise_distinct eqb (l ++ [x]).
Proof.
  induction l as [|y l IH]; simpl.
  - intros _ _. split; [constructor|done].
  - intros [Hy Hl] Hx. apply orb_false_iff in Hx as [Hxy Hx]. split.
    + apply Forall_app. split; [done|]. constructor; [|constructor].
      by rewrite eqb_sym.
    + by apply IH.
Qed.

Lemma pairwise_distinct_filter (p : A -> bool) (l : list A) :
  pairwise_distinct eqb l -> pairwise_distinct eqb (List.filter p l).
Proof.
  induction l as [|y l IH]; simpl; [done|]. intros [Hy Hl].
  destruct (p y); simpl; [|by apply IH]. split; [|by apply IH].
  rewrite Forall_forall in *. intros z Hz. apply Hy.
  apply list_elem_of_In in Hz. apply list_elem_of_In.
  apply filter_In in Hz. tauto.
Qed.

(** Two equal elements of a list without equal elements are one. *)
Lemma pairwise_distinct_same (l : list A) (a b : A) :
  pairwise_distinct eqb l -> In a l -> In b l -> eqb a b = true -> a = b.
Proof.
  induction l as [|y l IH]; simpl; [done|].
  intros [Hy Hl] [->|Ha] [->|Hb] Hab; try done.
  - rewrite Forall_forall in Hy. apply list_elem_of_In in Hb.
    rewrite (Hy _ Hb) in Hab. done.
  - rewrite Forall_forall in Hy. apply list_elem_of_In in Ha.
    rewrite eqb_sym, (Hy _ Ha) in Hab. done.
  - by apply IH.
Qed.

Lemma unique_loop_spec (xs seen : list A) :
  pairwise_distinct eqb seen ->
  pairwise_distinct eqb (unique_loop eqb xs seen)
  /\ (forall u, In u (unique_loop eqb xs seen) -> In u seen \/ In u xs)
  /\ (forall x, In x seen \/ In x xs ->
                exists u, In u (unique_loop eqb xs seen) /\ eqb x u = true).
Proof.
  revert seen. induction xs as [|x xs IH]; intros seen Hseen; simpl.
  - split; [done|]. split; [tauto|].
    intros y [Hy|[]]. exists y. by rewrite eqb_refl.
  - destruct (existsb (eqb x) seen) eqn:Hx.
    + destruct (IH seen Hseen) as (H1 & H2 & H3). split; [done|]. split.
      * intros u Hu. destruct (H2 u Hu); tauto.
      * intros y [Hy|[<-|Hy]]; [apply H3; tauto| |apply H3; tauto].
        apply existsb_exists in Hx as (s & Hs & Hxs).
        destruct (H3 s (or_introl Hs)) as (u & Hu & Hsu).
        exists u. split; [done|]. by apply (eqb_trans x s u).
    + destruct (IH (seen ++ [x]) (pairwise_distinct_snoc _ _ Hseen Hx))
        as (H1 & H2 & H3).
      split; [done|]. split.
      * intros u Hu. destruct (H2 u Hu) as [Hin|Hin]; [|tauto].
        apply in_app_or in Hin as [Hin|[<-|[]]]; tauto.
      * intros y [Hy|[<-|Hy]]; apply H3.
        -- left. apply in_or_app. tauto.
        -- left. apply in_or_app. right. by left.
        -- tauto.
Qed.

Lemma unique_spec (xs : list A) :
  pairwise_distinct eqb (unique eqb xs)
  /\ (forall u, In u (unique eqb xs) -> In u xs)
  /\ (forall x, In x xs -> exists u, In u (unique eqb xs) /\ eqb x u = true).
Proof.
  destruct (unique_loop_spec xs [] I) as (H1 & H2 & H3). split; [done|]. split.
  - intros u Hu. destruct (H2 u Hu) as [[]|]; done.
  - intros x Hx. apply H3. tauto.
Qed.
End UniqueFacts.

(** ** Groups of rows *)

Lemma mask_select_rows (p : cell -> bool) (keys values : list cell) :
  mask_select (map p keys) values = select_rows p keys values.
Proof.
  unfold select_rows. revert values.
  induction keys as [|k keys IH]; intros [|v values]; simpl; try done.
  destruct (p k); simpl; by rewrite IH.
Qed.

Lemma pairwise_distinct_ext {A} (e1 e2 : A -> A -> bool) (l : list A) :
  (forall x y, In x l -> In y l -> e1 x y = e2 x y) ->
  pairwise_distinct e1 l -> pairwise_distinct e2 l.
Proof.
  induction l as [|x l IH]; simpl; [done|]. intros He [Hx Hl]. split.
  - rewrite Forall_forall in *. intros y Hy. rewrite <- He; [by apply Hx|tauto|].
    right. by apply list_elem_of_In.
  - apply IH; [|done]. intros; apply He; tauto.
Qed.

(** The keys of the groups: the distinct non-missing values of the
    column, each row with a value under exactly one of them. *)
Lemma group_keys_partition (c : column) :
  Forall (fun k => isnull k = false) (group_keys c)
  /\ pairwise_distinct cell_eqb (group_keys c)
  /\ (forall k, In k (group_keys c) -> In k (cells c))
  /\ (forall v, In v (cells c) -> isnull v = true ->
                forall k, In k (group_keys c) -> cell_eqb v k = false)
  /\ (forall v, In v (cells c) -> isnull v = false ->
        exists k, In k (group_keys c) /\ cell_eqb v k = true
                  /\ forall k', In k' (group_keys c) -> cell_eqb v k' = true -> k' = k).
Proof.
  unfold group_keys, pd_unique.
  destruct (unique_spec same_key same_key_refl same_key_sym same_key_trans (cells c))
    as (H1 & H2 & H3).
  set (us := unique same_key (cells c)) in *.
  assert (Forall (fun k => isnull k = false)
                 (List.filter (fun v => negb (isnull v)) us)) as Hnn.
  { rewrite Forall_forall. intros k Hk%list_elem_of_In%filter_In.
    destruct Hk as [_ Hk]. by destruct (isnull k). }
  assert (pairwise_distinct cell_eqb (List.filter (fun v => negb (isnull v)) us)) as Hpd.
  { apply (pairwise_distinct_ext same_key).
    - intros x y _ Hy. apply same_key_notnull.
      rewrite Forall_forall in Hnn. apply Hnn. by apply list_elem_of_In.
    - by apply pairwise_distinct_filter. }
  split; [done|]. split; [done|]. split; [|split].
  - intros k Hk%filter_In. apply H2. tauto.
  - intros v _ Hv k _. by destruct v.
  - intros v Hv Hnull. destruct (H3 v Hv) as (u & Hu & Hvu).
    assert (isnull u = false) as Hun.
    { unfold same_key in Hvu. rewrite Hnull in Hvu. simpl in Hvu.
      rewrite orb_false_r in Hvu. by apply cell_eqb_notnull in Hvu as [_ ?]. }
    rewrite same_key_notnull in Hvu by done.
    assert (In u (List.filter (fun v => negb (isnull v)) us)) as Hin.
    { apply filter_In. by rewrite Hun. }
    exists u. split; [done|]. split; [done|].
    intros k' Hk' Hvk'.
    apply (pairwise_distinct_same cell_eqb cell_eqb_sym _ k' u Hpd Hk' Hin).
    apply (cell_eqb_trans k' v u); [|done]. by rewrite cell_eqb_sym.
Qed.

Lemma combine_lookup {A B} (xs : list A) (ys : list B) (r : nat) (x : A) (y : B) :
  combine xs ys !! r = Some (x, y) <-> xs !! r = Some x /\ ys !! r = Some y.
Proof.
  revert ys r. induction xs as [|a xs IH]; intros [|b ys] [|r]; simpl;
    try (split; [done|intros [? ?]; done]).
  - split; [by intros [= -> ->]|by intros [[= ->] [= ->]]].
  - apply IH.
Qed.

(** A value is in a group when it is the non-missing value of a row
    whose key equals the key of the group. *)
Lemma group_elem (keys values : list cell) (k v : cell) :
  In v (group keys values k)
  <-> isnull v = false
      /\ exists r c, keys !! r = Some c /\ values !! r = Some v /\ cell_eqb c k = true.
Proof.
  unfold group, dropna_cells, select_rows.
  rewrite filter_In, in_map_iff. split.
  - intros [[[c v'] [Hv Hin%filter_In]] Hn]. simpl in *. subst v'.
    destruct Hin as [Hin Hc]. simpl in Hc.
    split; [by destruct (isnull v)|].
    apply list_elem_of_In, list_elem_of_lookup in Hin as [r Hr].
    apply combine_lookup in Hr as [Hr1 Hr2]. by exists r, c.
  - intros [Hn (r & c & Hk & Hv & Hc)]. split; [|by rewrite Hn].
    exists (c, v). split; [done|]. apply filter_In. split; [|done].
    apply list_elem_of_In, list_elem_of_lookup. exists r.
    by apply combine_lookup.
Qed.

(** ** The hypothesis tester *)

Lemma num_ltb_spec (p : num) (y : Q) :
  num_ltb p y = true <-> exists q, p = Fin q /\ (q < y)%Q.
Proof.
  destruct p as [|q]; simpl.
  - split; [done|]. by intros (q & ? & _).
  - rewrite negb_true_iff. split.
    + intros H. exists q. split; [done|]. apply Qnot_le_lt. intros Hle.
      apply Qle_bool_iff in Hle. congruence.
    + intros (q' & [= <-] & Hlt). apply not_true_is_false. intros Hle.
      apply Qle_bool_iff in Hle. by apply Qlt_not_le in Hlt.
Qed.

Lemma comprehension_pure {A B} (xs : list A) (f : A -> M world B) (g : A -> B) (w : world) :
  (forall x, f x w = (Return (g x), w)) ->
  comprehension xs f w = (Return (map g xs), w).
Proof.
  intros Hf. induction xs as [|x xs IH]; simpl; [done|].
  by rewrite bind_run, Hf, bind_run, IH.
Qed.

Lemma group_values_run df frame key value col k c w :
  heap w !! df = Some frame ->
  frame_get frame key = Some k ->
  frame_get frame col = Some c ->
  group_values df key value col w = (Return (group (cells k) (cells c) value), w).
Proof.
  intros Hh Hk Hc. unfold group_values, group.
  rewrite bind_run, (run_getitem df key w frame k) by done.
  rewrite bind_run, (run_getitem df col w frame c) by done.
  by rewrite mask_select_rows.
Qed.

Lemma report_test_run h statistic p_value w :
  report_test h (statistic, p_value) w
  = (Return tt,
     World (heap w)
           (stdout w ++ [TestResult h statistic p_value;
                         Decision h (num_ltb p_value (5 # 100))])).
Proof.
  unfold report_test. rewrite bind_run, run_print.
  destruct (num_ltb p_value (5 # 100)); rewrite run_print; cbn [heap stdout];
    by rewrite <- app_assoc.
Qed.

Section Tests.
Variable f_oneway : list (list cell) -> outcome (num * num).
Variable ttest_ind : list cell -> list cell -> bool -> outcome (num * num).

(** C2. Test A makes one group for each distinct non-missing value of
    the land-use column: the keys have no missing value and no value
    twice, a row with a missing land use is in no group and every other
    row is in the group of exactly one key; the group of a key holds the
    non-missing sale prices of the rows with that land use; the analysis
    of variance is run once on all the groups, and the rejection is
    printed exactly when its p-value is below 0.05. *)
Theorem anova_over_land_use_groups df frame w landuse saleprice statistic p_value :
  heap w !! df = Some frame ->
  frame_get frame "landuse" = Some landuse ->
  frame_get frame "saleprice" = Some saleprice ->
  f_oneway (map (group (cells landuse) (cells saleprice)) (group_keys landuse))
  = Return (statistic, p_value) ->
  test_landuse_price f_oneway df w
  = (Return tt,
     World (heap w)
           (stdout w ++ [HypothesisHeader LandUsePrice;
                         TestResult LandUsePrice statistic p_value;
                         Decision LandUsePrice (num_ltb p_value (5 # 100))]))
  /\ (num_ltb p_value (5 # 100) = true <-> exists q, p_value = Fin q /\ (q < 5 # 100)%Q)
  /\ Forall (fun k => isnull k = false) (group_keys landuse)
  /\ pairwise_distinct cell_eqb (group_keys landuse)
  /\ (forall k, In k (group_keys landuse) -> In k (cells landuse))
  /\ (forall v, In v (cells landuse) -> isnull v = true ->
                forall k, In k (group_keys landuse) -> cell_eqb v k = false)
  /\ (forall v, In v (cells landuse) -> isnull v = false ->
        exists k, In k (group_keys landuse) /\ cell_eqb v k = true
                  /\ forall k', In k' (group_keys landuse) ->
                                cell_eqb v k' = true -> k' = k)
  /\ (forall k v,
        In v (group (cells landuse) (cells saleprice) k)
        <-> isnull v = false
            /\ exists r c, cells landuse !! r = Some c
                           /\ cells saleprice !! r = Some v
                           /\ cell_eqb c k = true).
Proof.
  intros Hh Hl Hs Hf. split; [|split; [apply num_ltb_spec|]].
  - unfold test_landuse_price. rewrite bind_run, run_print.
    rewrite bind_run, (run_getitem df "landuse" _ frame landuse) by done.
    rewrite bind_run.
    rewrite (comprehension_pure _ _ (group (cells landuse) (cells saleprice))).
    + fold (group_keys landuse). rewrite bind_run. unfold lift. rewrite Hf.
      rewrite report_test_run. cbn [heap stdout]. by rewrite <- app_assoc.
    + intros value. by apply (group_values_run df frame).
  - pose proof (group_keys_partition landuse) as (H1 & H2 & H3 & H4 & H5).
    repeat (split; [done|]). intros k v. apply group_elem.
Qed.

(** C7. Test B makes two groups, the non-missing acreages of the rows
    whose sold-as-vacant flag equals 1 and those of the rows whose flag
    equals 0, runs the t-test on them with [equal_var] false, and prints
    the rejection exactly when its p-value is below 0.05. *)
Theorem welch_test_over_vacancy df frame w soldasvacant acreage statistic p_value :
  heap w !! df = Some frame ->
  frame_get frame "soldasvacant" = Some soldasvacant ->
  frame_get frame "acreage" = Some acreage ->
  ttest_ind (group (cells soldasvacant) (cells acreage) (CInt 1))
            (group (cells soldasvacant) (cells acreage) (CInt 0)) false
  = Return (statistic, p_value) ->
  test_vacant_acreage ttest_ind df w
  = (Return tt,
     World (heap w)
           (stdout w ++ [HypothesisHeader VacantAcreage;
                         TestResult VacantAcreage statistic p_value;
                         Decision VacantAcreage (num_ltb p_value (5 # 100))]))
  /\ (num_ltb p_value (5 # 100) = true <-> exists q, p_value = Fin q /\ (q < 5 # 100)%Q)
  /\ (forall flag v,
        In v (group (cells soldasvacant) (cells acreage) (CInt flag))
        <-> isnull v = false
            /\ exists r c, cells soldasvacant !! r = Some c
                           /\ cells acreage !! r = Some v
                           /\ cell_eqb c (CInt flag) = true).
Proof.
  intros Hh Hv Ha Ht. split; [|split; [apply num_ltb_spec|]].
  - unfold test_vacant_acreage. rewrite bind_run, run_print.
    rewrite bind_run, (group_values_run df frame _ _ _ soldasvacant acreage) by done.
    rewrite bind_run, (group_values_run df frame _ _ _ soldasvacant acreage) by done.
    rewrite bind_run. unfold lift. rewrite Ht.
    rewrite report_test_run. cbn [heap stdout]. by rewrite <- app_assoc.
  - intros flag v. apply group_elem.
Qed.
End Tests.

Lemma anova_over_land_use_groups_witness :
  test_landuse_price (fun _ => Return (Fin (400 # 1), Fin (1 # 400))) 1%positive sample_world
  = (Return tt,
     World (heap sample_world)
           (stdout sample_world
            ++ [HypothesisHeader LandUsePrice;
                TestResult LandUsePrice (Fin (400 # 1)) (Fin (1 # 400));
                Decision LandUsePrice (num_ltb (Fin (1 # 400)) (5 # 100))])).
Proof.
  eapply (anova_over_land_use_groups (fun _ => Return (Fin (400 # 1), Fin (1 # 400)))
            1%positive sample_frame sample_world); reflexivity.
Defined.

Lemma welch_test_over_vacancy_witness :
  test_vacant_acreage (fun _ _ _ => Return (Fin (1 # 2), NaN)) 1%positive sample_world
  = (Return tt,
     World (heap sample_world)
           (stdout sample_world
            ++ [HypothesisHeader VacantAcreage;
                TestResult VacantAcreage (Fin (1 # 2)) NaN;
                Decision VacantAcreage (num_ltb NaN (5 # 100))])).
Proof.
  eapply (welch_test_over_vacancy (fun _ _ _ => Return (Fin (1 # 2), NaN))
            1%positive sample_frame sample_world); reflexivity.
Defined.

Example sample_groups :
  group_keys (Text Object [Some "B"; Some "A"; None; Some "B"; Some "A"]%string)
  = [CText "B"; CText "A"]
  /\ map (group (cells (Text Object [Some "B"; Some "A"; None; Some "B"; Some "A"]%string))
                (cells (Int64 [200; 100; 5; 210; 110])))
         [CText "B"; CText "A"]
     = [[CInt 200; CInt 210]; [CInt 100; CInt 110]].
Proof. split; reflexivity. Qed.

(** ** Sorting *)

Section SortFacts.
Context {A : Type} (leb : A -> A -> bool).

Lemma insert_sorted_perm (x : A) (l : list A) :
  Permutation (insert_sorted leb x l) (x :: l).
Proof.
  induction l as [|y l IH]; simpl; [done|].
  destruct (leb x y); [done|].
  rewrite IH. apply perm_swap.
Qed.

Lemma sort_perm (l : list A) : Permutation (sort leb l) l.
Proof.
  induction l as [|x l IH]; simpl; [done|].
  by rewrite insert_sorted_perm, IH.
Qed.

Lemma sort_In (l : list A) (x : A) : In x (sort leb l) <-> In x l.
Proof.
  split; apply Permutation_in; [apply sort_perm|symmetry; apply sort_perm].
Qed.

Lemma sort_length (l : list A) : length (sort leb l) = length l.
Proof. apply Permutation_length, sort_perm. Qed.

Hypothesis leb_total : forall x y, leb x y = true \/ leb y x = true.
Hypothesis leb_trans : forall x y z, leb x y = true -> leb y z = true -> leb x z = true.

Lemma insert_sorted_sorted (x : A) (l : list A) :
  StronglySorted (fun a b => leb a b = true) l ->
  StronglySorted (fun a b => leb a b = true) (insert_sorted leb x l).
Proof.
  induction 1 as [|y l Hl IH Hy]; simpl.
  - repeat constructor.
  - destruct (leb x y) eqn:Hxy.
    + constructor; [by constructor|]. constructor; [done|].
      eapply List.Forall_impl; [|exact Hy]. intros z Hz. by eapply leb_trans.
    + constructor; [done|].
      assert (leb y x = true) as Hyx by (destruct (leb_total x y); congruence).
      eapply Permutation_Forall; [symmetry; apply insert_sorted_perm|].
      by constructor.
Qed.

Lemma sort_sorted (l : list A) :
  StronglySorted (fun a b => leb a b = true) (sort leb l).
Proof.
  induction l as [|x l IH]; simpl; [constructor|].
  by apply insert_sorted_sorted.
Qed.

(** The first element of the sorted values is below all of them. *)
Lemma sort_head_least (l : list A) (m : A) :
  head (sort leb l) = Some m -> forall v, In v l -> leb m v = true.
Proof.
  intros Hm v Hv. apply sort_In in Hv.
  pose proof (sort_sorted l) as Hs.
  destruct (sort leb l) as [|h t]; [done|]. simpl in Hm. injection Hm as ->.
  destruct Hv as [->|Hv].
  - destruct (leb_total v v); done.
  - apply StronglySorted_inv in Hs as [_ Hs].
    rewrite List.Forall_forall in Hs. by apply Hs.
Qed.
End SortFacts.

(** ** The mode *)

Section ModeFacts.
Context {A : Type} (eqb leb : A -> A -> bool).
Hypothesis eqb_refl : forall x, eqb x x = true.
Hypothesis eqb_sym : forall x y, eqb x y = eqb y x.
Hypothesis eqb_trans : forall x y z, eqb x y = true -> eqb y z = true -> eqb x z = true.
Hypothesis leb_total : forall x y, leb x y = true \/ leb y x = true.
Hypothesis leb_trans : forall x y z, leb x y = true -> leb y z = true -> leb x z = true.
Hypothesis leb_eqb : forall x y z, eqb x y = true -> leb z y = true -> leb z x = true.

Lemma count_eqb (x y : A) (xs : list A) :
  eqb x y = true -> count eqb x xs = count eqb y xs.
Proof.
  intros Hxy. unfold count. f_equal. apply List.filter_ext. intros z.
  destruct (eqb y z) eqn:Hyz.
  - by apply (eqb_trans x y z).
  - destruct (eqb x z) eqn:Hxz; [|done].
    rewrite <- Hyz. symmetry. apply (eqb_trans y x z); [|done]. by rewrite eqb_sym.
Qed.

Lemma max_count_bound (zs xs : list A) (v : A) :
  In v zs ->
  (count eqb v xs <= fold_right Nat.max O (map (fun v => count eqb v xs) zs))%nat.
Proof.
  induction zs as [|z zs IH]; simpl; [done|].
  intros [->|Hv]; [lia|]. specialize (IH Hv). lia.
Qed.

Lemma max_count_attained (zs xs : list A) :
  zs <> [] ->
  exists v, In v zs
            /\ count eqb v xs = fold_right Nat.max O (map (fun v => count eqb v xs) zs).
Proof.
  induction zs as [|z zs IH]; [done|]. intros _. simpl.
  destruct zs as [|z' zs].
  - exists z. split; [by left|]. simpl. lia.
  - destruct IH as (v & Hv & Hc); [done|].
    destruct (Nat.max_spec (count eqb z xs)
                (fold_right Nat.max O (map (fun v => count eqb v xs) (z' :: zs))))
      as [[_ ->]|[_ ->]].
    + exists v. split; [by right|done].
    + exists z. split; [by left|done].
Qed.

(** The first of the sorted modes is the mode; there is none only when
    there is no value. *)
Lemma modes_head (xs : list A) :
  match head (modes eqb leb xs) with
  | None => xs = []
  | Some m => is_mode eqb leb xs m
  end.
Proof.
  unfold modes.
  destruct (unique_spec eqb eqb_refl eqb_sym eqb_trans xs) as (_ & Hu1 & Hu2).
  set (cands := List.filter (fun v => Nat.eqb (count eqb v xs) (max_count eqb xs))
                            (unique eqb xs)).
  assert (forall u, In u cands <-> In u (unique eqb xs)
                                   /\ count eqb u xs = max_count eqb xs) as Hcands.
  { intros u. unfold cands. rewrite filter_In, Nat.eqb_eq. done. }
  destruct (head (sort leb cands)) as [m|] eqn:Hm.
  - assert (In m cands) as Hin.
    { apply (sort_In leb). destruct (sort leb cands); [done|].
      injection Hm as ->. by left. }
    apply Hcands in Hin as [Hmu Hmc].
    split; [by apply Hu1|]. split.
    + intros v Hv. rewrite Hmc. by apply max_count_bound.
    + intros v Hv Hvc. destruct (Hu2 v Hv) as (u & Hu & Hvu).
      apply (leb_eqb v u m Hvu).
      apply (sort_head_least leb leb_total leb_trans cands m Hm).
      apply Hcands. split; [done|].
      by rewrite <- (count_eqb v u xs Hvu), Hvc.
  - destruct xs as [|x xs]; [done|]. exfalso.
    destruct (max_count_attained (x :: xs) (x :: xs)) as (v & Hv & Hc); [done|].
    destruct (Hu2 v Hv) as (u & Hu & Hvu).
    assert (In u cands) as Hin.
    { apply Hcands. split; [done|]. by rewrite <- (count_eqb v u _ Hvu). }
    apply (sort_In leb) in Hin. by destruct (sort leb cands).
Qed.
End ModeFacts.

(** ** The orders on the values of a column *)

Lemma string_leb_trans (a b c : string) :
  String.leb a b = true -> String.leb b c = true -> String.leb a c = true.
Proof.
  revert b c. induction a as [|x a IH]; intros [|y b] [|z c];
    unfold String.leb; simpl; try done.
  specialize (IH b c). unfold String.leb in IH. unfold Ascii.compare.
  destruct (N.compare_spec (Ascii.N_of_ascii x) (Ascii.N_of_ascii y)) as [Hxy|Hxy|Hxy];
    destruct (N.compare_spec (Ascii.N_of_ascii y) (Ascii.N_of_ascii z)) as [Hyz|Hyz|Hyz];
    destruct (N.compare_spec (Ascii.N_of_ascii x) (Ascii.N_of_ascii z)) as [Hxz|Hxz|Hxz];
    try done; try lia.
Qed.

Lemma Qle_bool_total (x y : Q) : Qle_bool x y = true \/ Qle_bool y x = true.
Proof.
  rewrite !Qle_bool_iff. destruct (Qlt_le_dec x y) as [H|H]; [left|right]; lra.
Qed.

Lemma Qle_bool_trans (x y z : Q) :
  Qle_bool x y = true -> Qle_bool y z = true -> Qle_bool x z = true.
Proof. rewrite !Qle_bool_iff. lra. Qed.

Lemma Qle_bool_eqb (x y z : Q) :
  Qeq_bool x y = true -> Qle_bool z y = true -> Qle_bool z x = true.
Proof. rewrite !Qle_bool_iff, Qeq_bool_iff. lra. Qed.

Lemma Zleb_total (x y : Z) : Z.leb x y = true \/ Z.leb y x = true.
Proof. lia. Qed.

Lemma Zleb_trans (x y z : Z) : Z.leb x y = true -> Z.leb y z = true -> Z.leb x z = true.
Proof. lia. Qed.

Lemma Zleb_eqb (x y z : Z) : Z.eqb x y = true -> Z.leb z y = true -> Z.leb z x = true.
Proof. lia. Qed.

Lemma string_eqb_trans (x y z : string) :
  String.eqb x y = true -> String.eqb y z = true -> String.eqb x z = true.
Proof. rewrite !String.eqb_eq. congruence. Qed.

Lemma string_leb_eqb (x y z : string) :
  String.eqb x y = true -> String.leb z y = true -> String.leb z x = true.
Proof. rewrite String.eqb_eq. by intros ->. Qed.

Lemma category_leb_total (categories : list string) (x y : string) :
  category_leb categories x y = true \/ category_leb categories y x = true.
Proof. unfold category_leb. rewrite !Nat.leb_le. lia. Qed.

Lemma category_leb_trans (categories : list string) (x y z : string) :
  category_leb categories x y = true -> category_leb categories y z = true ->
  category_leb categories x z = true.
Proof. unfold category_leb. rewrite !Nat.leb_le. lia. Qed.

Lemma category_leb_eqb (categories : list string) (x y z : string) :
  String.eqb x y = true -> category_leb categories z y = true ->
  category_leb categories z x = true.
Proof. rewrite String.eqb_eq. by intros ->. Qed.

Lemma cell_leb_total (x y : cell) : cell_leb x y = true \/ cell_leb y x = true.
Proof.
  destruct x, y; simpl;
    first [ apply Qle_bool_total | apply Zleb_total | apply String.leb_total
          | by left | by right ].
Qed.

Lemma cell_leb_trans (x y z : cell) :
  cell_leb x y = true -> cell_leb y z = true -> cell_leb x z = true.
Proof.
  destruct x, y, z; simpl; try done;
    first [ apply Qle_bool_trans | apply Zleb_trans | apply string_leb_trans ].
Qed.

Lemma cell_leb_eqb (x y z : cell) :
  same_key x y = true -> cell_leb z y = true -> cell_leb z x = true.
Proof.
  unfold same_key. rewrite cell_eqb_num.
  destruct x, y, z; simpl; rewrite ?orb_false_r; try done;
    first [ apply Qle_bool_eqb | apply Zleb_eqb | apply string_leb_eqb ].
Qed.

(** The mode line shows the mode the description promises. *)
Lemma pd_mode_reported (c : column) : reported_mode c (head (pd_mode c)).
Proof.
  destruct c as [xs|xs|[|categories] xs|d xs]; simpl.
  - pose proof (modes_head Qeq_bool Qle_bool Qeq_bool_refl Qeq_bool_comm Qeq_bool_trans
                  Qle_bool_total Qle_bool_trans Qle_bool_eqb (dropna xs)) as H.
    destruct (modes Qeq_bool Qle_bool (dropna xs)) as [|m ms]; simpl in *; eauto.
  - assert (forall x y z : Z, Z.eqb x y = true -> Z.eqb y z = true -> Z.eqb x z = true)
      as Htrans by lia.
    pose proof (modes_head Z.eqb Z.leb Z.eqb_refl Z.eqb_sym Htrans
                  Zleb_total Zleb_trans Zleb_eqb xs) as H.
    destruct (modes Z.eqb Z.leb xs) as [|m ms]; simpl in *; eauto.
  - pose proof (modes_head String.eqb String.leb String.eqb_refl String.eqb_sym
                  string_eqb_trans String.leb_total string_leb_trans string_leb_eqb
                  (dropna xs)) as H.
    destruct (modes String.eqb String.leb (dropna xs)) as [|m ms]; simpl in *; eauto.
  - pose proof (modes_head String.eqb (category_leb categories)
                  String.eqb_refl String.eqb_sym string_eqb_trans
                  (category_leb_total categories) (category_leb_trans categories)
                  (category_leb_eqb categories) (dropna xs)) as H.
    destruct (modes String.eqb (category_leb categories) (dropna xs)) as [|m ms];
      simpl in *; eauto.
  - pose proof (modes_head same_key cell_leb same_key_refl same_key_sym same_key_trans
                  cell_leb_total cell_leb_trans cell_leb_eqb (dropna_cells xs)) as H.
    destruct (modes same_key cell_leb (dropna_cells xs)) as [|m ms]; simpl in *; eauto.
Qed.

(** C10. For a column of the dataset the Categorical Profiler prints, as
    the mode, the first of the sorted modes: a value of the column that
    no value outnumbers and that is the least of the values occurring as
    often, in the order pandas sorts the column by (numbers by size,
    texts by their characters, the values of a category column by the
    order of its categories); it prints that there is no mode only when
    the column has no value. *)
Theorem categorical_mode_is_least_most_frequent df frame col c w :
  heap w !! df = Some frame ->
  frame_get frame col = Some c ->
  profile_categorical df col w
  = (Return tt,
     World (heap w)
           (stdout w ++ [CategoricalHeader col;
                         Stat MissingShare (null_share (cells c));
                         UniqueCount (pd_nunique c);
                         ModeLine (head (pd_mode c))]))
  /\ reported_mode c (head (pd_mode c)).
Proof.
  intros Hh Hc. split.
  - by apply (profile_categorical_run df frame).
  - apply pd_mode_reported.
Qed.

Lemma categorical_mode_is_least_most_frequent_witness :
  profile_categorical 1%positive "landuse" sample_world
  = (Return tt,
     World (heap sample_world)
           (stdout sample_world
            ++ [CategoricalHeader "landuse";
                Stat MissingShare (Fin (1 # 5));
                UniqueCount 2;
                ModeLine (Some (CText "A"))]))
  /\ reported_mode (Text Object [Some "B"; Some "A"; None; Some "B"; Some "A"]%string)
                   (Some (CText "A")).
Proof.
  apply (categorical_mode_is_least_most_frequent 1%positive sample_frame "landuse"
           (Text Object [Some "B"; Some "A"; None; Some "B"; Some "A"]%string)
           sample_world); reflexivity.
Defined.

Example mode_of_empty_column :
  head (pd_mode (Text Object [None; None])) = None
  /\ head (pd_mode (Float64 [])) = None.
Proof. split; reflexivity. Qed.

(** A category column is sorted by the order of its categories, not by
    the texts: with the categories z, m, a the mode of z, a, NaN, z, a
    is z; the same values in an object column have the mode a. *)
Example mode_of_category_column :
  head (pd_mode (Text (Category ["z"; "m"; "a"])
                      [Some "z"; Some "a"; None; Some "z"; Some "a"]))
  = Some (CText "z")
  /\ head (pd_mode (Text Object [Some "z"; Some "a"; None; Some "z"; Some "a"]))
     = Some (CText "a").
Proof. split; reflexivity. Qed.

Example mode_of_bool_column :
  head (pd_mode (Other "bool" [CBool true; CBool false; CBool true; CBool false]))
  = Some (CBool false).
Proof. reflexivity. Qed.

(** ** Order statistics of rational values *)

Lemma qmin_spec (a b : Q) : (qmin a b <= a /\ qmin a b <= b)%Q /\ (qmin a b = a \/ qmin a b = b).
Proof.
  unfold qmin. destruct (Qle_bool a b) eqn:E.
  - apply Qle_bool_iff in E. split; [lra|tauto].
  - split; [|tauto]. split; [|lra].
    destruct (Qlt_le_dec b a) as [H|H]; [lra|]. apply Qle_bool_iff in H. congruence.
Qed.

Lemma qmax_spec (a b : Q) : (a <= qmax a b /\ b <= qmax a b)%Q /\ (qmax a b = a \/ qmax a b = b).
Proof.
  unfold qmax. destruct (Qle_bool a b) eqn:E.
  - apply Qle_bool_iff in E. split; [lra|tauto].
  - split; [|tauto]. split; [lra|].
    destruct (Qlt_le_dec b a) as [H|H]; [lra|]. apply Qle_bool_iff in H. congruence.
Qed.

Lemma fold_qmin_least (r : list Q) (x : Q) :
  forall y, In y (x :: r) -> (fold_left qmin r x <= y)%Q.
Proof.
  revert x. induction r as [|z r IH]; intros x y; simpl.
  - intros [<-|[]]. lra.
  - destruct (qmin_spec x z) as [[H1 H2] _].
    intros [<-|[<-|Hy]].
    + pose proof (IH (qmin x z) (qmin x z) (or_introl eq_refl)). lra.
    + pose proof (IH (qmin x z) (qmin x z) (or_introl eq_refl)). lra.
    + apply IH. by right.
Qed.

Lemma fold_qmax_greatest (r : list Q) (x : Q) :
  forall y, In y (x :: r) -> (y <= fold_left qmax r x)%Q.
Proof.
  revert x. induction r as [|z r IH]; intros x y; simpl.
  - intros [<-|[]]. lra.
  - destruct (qmax_spec x z) as [[H1 H2] _].
    intros [<-|[<-|Hy]].
    + pose proof (IH (qmax x z) (qmax x z) (or_introl eq_refl)). lra.
    + pose proof (IH (qmax x z) (qmax x z) (or_introl eq_refl)). lra.
    + apply IH. by right.
Qed.

(** The minimum and the maximum bound every value. *)
Lemma nanmin_least (xs : list Q) (lo y : Q) :
  nanmin xs = Fin lo -> In y xs -> (lo <= y)%Q.
Proof.
  destruct xs as [|x r]; simpl; [done|]. intros [= <-]. apply fold_qmin_least.
Qed.

Lemma nanmax_greatest (xs : list Q) (hi y : Q) :
  nanmax xs = Fin hi -> In y xs -> (y <= hi)%Q.
Proof.
  destruct xs as [|x r]; simpl; [done|]. intros [= <-]. apply fold_qmax_greatest.
Qed.

Lemma sorted_nth (s : list Q) :
  Qsorted s ->
  forall i j, (i <= j < length s)%nat -> (nth i s 0 <= nth j s 0)%Q.
Proof.
  induction 1 as [|x s Hs IH Hx]; intros i j Hij; simpl in *; [lia|].
  destruct i as [|i], j as [|j]; try lia.
  - lra.
  - rewrite List.Forall_forall in Hx. apply Qle_bool_iff, Hx, nth_In. lia.
  - apply IH. lia.
Qed.

Lemma sort_Qsorted (xs : list Q) : Qsorted (sort Qle_bool xs).
Proof. apply sort_sorted; [apply Qle_bool_total|apply Qle_bool_trans]. Qed.

(** ** Interpolation between sorted values *)

Section Interpolation.
Variable s : list Q.
Hypothesis s_sorted : Qsorted s.
Hypothesis s_nonempty : s <> [].

Lemma floor_position (pos : Q) :
  (0 <= pos)%Q -> (pos <= qlen s - 1)%Q ->
  (Z.to_nat (Qfloor pos) <= length s - 1)%nat.
Proof.
  intros H0 H1.
  assert (0 <= Qfloor pos) as Hlo.
  { change 0 with (Qfloor 0). by apply Qfloor_resp_le. }
  assert (Qfloor pos <= Z.of_nat (length s) - 1) as Hhi.
  { rewrite <- (Qfloor_Z (Z.of_nat (length s) - 1)). apply Qfloor_resp_le.
    unfold qlen in H1. unfold Z.sub. rewrite inject_Z_plus, inject_Z_opp.
    change (inject_Z 1) with 1%Q. lra. }
  lia.
Qed.

Lemma length_pos : (0 < length s)%nat.
Proof. destruct s; [done|simpl; lia]. Qed.

Lemma frac_range (pos : Q) :
  (0 <= pos - inject_Z (Qfloor pos) < 1)%Q.
Proof.
  pose proof (Qfloor_le pos). pose proof (Qlt_floor pos) as H2.
  rewrite inject_Z_plus in H2. change (inject_Z 1) with 1%Q in H2. lra.
Qed.

(** The interpolated value lies between the value at the floor of the
    position and the next one. *)
Lemma interpolate_between (pos : Q) :
  (0 <= pos)%Q -> (pos <= qlen s - 1)%Q ->
  (nth (Z.to_nat (Qfloor pos)) s 0 <= interpolate s pos
   /\ interpolate s pos
      <= nth (Nat.min (S (Z.to_nat (Qfloor pos))) (length s - 1)) s 0)%Q.
Proof.
  intros H0 H1. pose proof (floor_position pos H0 H1) as Hlo.
  pose proof (frac_range pos) as Hf. pose proof length_pos as Hlen.
  unfold interpolate. set (lo := Z.to_nat (Qfloor pos)) in *.
  set (frac := (pos - inject_Z (Qfloor pos))%Q) in *.
  destruct (Nat.lt_ge_cases (S lo) (length s)) as [Hn|Hn].
  - rewrite (nth_indep s (nth lo s 0%Q) 0%Q Hn).
    replace (Nat.min (S lo) (length s - 1)) with (S lo) by lia.
    assert (nth lo s 0 <= nth (S lo) s 0)%Q as Hab by (apply sorted_nth; [done|lia]).
    split; nra.
  - rewrite (nth_overflow s (nth lo s 0%Q) Hn).
    replace (Nat.min (S lo) (length s - 1)) with lo by lia.
    split; nra.
Qed.

(** The interpolated value grows with the position. *)
Lemma interpolate_mono (p1 p2 : Q) :
  (0 <= p1)%Q -> (p1 <= p2)%Q -> (p2 <= qlen s - 1)%Q ->
  (interpolate s p1 <= interpolate s p2)%Q.
Proof.
  intros H0 H12 H2.
  assert (0 <= p2)%Q as H0' by lra. assert (p1 <= qlen s - 1)%Q as H1 by lra.
  pose proof (Qfloor_resp_le _ _ H12) as Hfl.
  pose proof (floor_position p1 H0 H1) as Hl1.
  pose proof (floor_position p2 H0' H2) as Hl2.
  assert (0 <= Qfloor p1) as Hf0.
  { change 0 with (Qfloor 0). by apply Qfloor_resp_le. }
  pose proof length_pos as Hlen.
  destruct (Z.eq_dec (Qfloor p1) (Qfloor p2)) as [Heq|Hne].
  - pose proof (frac_range p1) as Hf1. pose proof (frac_range p2) as Hf2.
    unfold interpolate. rewrite <- Heq in *.
    set (lo := Z.to_nat (Qfloor p1)) in *.
    destruct (Nat.lt_ge_cases (S lo) (length s)) as [Hn|Hn].
    + rewrite (nth_indep s (nth lo s 0%Q) 0%Q Hn).
      assert (nth lo s 0 <= nth (S lo) s 0)%Q as Hab by (apply sorted_nth; [done|lia]).
      nra.
    + rewrite (nth_overflow s (nth lo s 0%Q) Hn). nra.
  - destruct (interpolate_between p1 H0 H1) as [_ Hup].
    destruct (interpolate_between p2 H0' H2) as [Hdown _].
    assert (nth (Nat.min (S (Z.to_nat (Qfloor p1))) (length s - 1)) s 0
            <= nth (Z.to_nat (Qfloor p2)) s 0)%Q as Hmid.
    { apply sorted_nth; [done|]. lia. }
    lra.
Qed.
End Interpolation.

Lemma Qfloor_unique (x : Q) (z : Z) :
  (inject_Z z <= x)%Q -> (x < inject_Z (z + 1))%Q -> Qfloor x = z.
Proof.
  intros H1 H2. pose proof (Qfloor_le x) as H3. pose proof (Qlt_floor x) as H4.
  assert (Qfloor x < z + 1) by (rewrite Zlt_Qlt; lra).
  assert (z < Qfloor x + 1) by (rewrite Zlt_Qlt; lra).
  lia.
Qed.

(** The median is the value interpolated at the middle position. *)
Lemma median_interpolate (s : list Q) :
  s <> [] ->
  ((if Nat.even (length s)
    then (nth (length s / 2 - 1) s 0 + nth (length s / 2) s 0) / 2
    else nth (length s / 2) s 0)
   == interpolate s ((1 # 2) * (qlen s - 1)))%Q.
Proof.
  intros Hs. assert (0 < length s)%nat as Hlen by (destruct s; [done|simpl; lia]).
  unfold interpolate, qlen.
  set (n := length s) in *.
  destruct (Nat.even n) eqn:Hpar.
  - apply Nat.even_spec in Hpar as [k Hk].
    assert (Qfloor ((1 # 2) * (inject_Z (Z.of_nat n) - 1)) = Z.of_nat k - 1) as Hfl.
    { apply Qfloor_unique.
      - unfold Z.sub. rewrite inject_Z_plus, inject_Z_opp. change (inject_Z 1) with 1%Q.
        rewrite Hk, Nat2Z.inj_mul, inject_Z_mult. change (inject_Z (Z.of_nat 2)) with 2%Q.
        lra.
      - replace (Z.of_nat k - 1 + 1) with (Z.of_nat k) by lia.
        rewrite Hk, Nat2Z.inj_mul, inject_Z_mult. change (inject_Z (Z.of_nat 2)) with 2%Q.
        lra. }
    rewrite Hfl.
    replace (n / 2 - 1)%nat with (Z.to_nat (Z.of_nat k - 1))
      by (rewrite Hk, Nat.mul_comm, Nat.div_mul by done; lia).
    replace (n / 2)%nat with (S (Z.to_nat (Z.of_nat k - 1)))
      by (rewrite Hk, Nat.mul_comm, Nat.div_mul by done; lia).
    set (lo := Z.to_nat (Z.of_nat k - 1)).
    rewrite (nth_indep s (nth lo s 0%Q) 0%Q) by (subst lo; lia).
    assert ((1 # 2) * (inject_Z (Z.of_nat n) - 1) - inject_Z (Z.of_nat k - 1) == 1 # 2)%Q
      as Hfrac.
    { unfold Z.sub. rewrite inject_Z_plus, inject_Z_opp. change (inject_Z 1) with 1%Q.
      rewrite Hk, Nat2Z.inj_mul, inject_Z_mult. change (inject_Z (Z.of_nat 2)) with 2%Q.
      lra. }
    rewrite Hfrac. field.
  - assert (Nat.odd n = true) as Hodd by (by rewrite <- Nat.negb_even, Hpar).
    apply Nat.odd_spec in Hodd as [k Hk].
    assert (Qfloor ((1 # 2) * (inject_Z (Z.of_nat n) - 1)) = Z.of_nat k) as Hfl.
    { apply Qfloor_unique.
      - rewrite Hk, Nat2Z.inj_add, Nat2Z.inj_mul, inject_Z_plus, inject_Z_mult.
        change (inject_Z (Z.of_nat 2)) with 2%Q. change (inject_Z (Z.of_nat 1)) with 1%Q.
        lra.
      - rewrite Hk, Nat2Z.inj_add, Nat2Z.inj_mul, !inject_Z_plus, inject_Z_mult.
        change (inject_Z (Z.of_nat 2)) with 2%Q. change (inject_Z (Z.of_nat 1)) with 1%Q.
        change (inject_Z 1) with 1%Q. lra. }
    rewrite Hfl, Nat2Z.id.
    replace (n / 2)%nat with k.
    2:{ rewrite Hk. rewrite Nat.add_comm, Nat.mul_comm, Nat.div_add by done. done. }
    assert ((1 # 2) * (inject_Z (Z.of_nat n) - 1) - inject_Z (Z.of_nat k) == 0)%Q as Hfrac.
    { rewrite Hk, Nat2Z.inj_add, Nat2Z.inj_mul, inject_Z_plus, inject_Z_mult.
      change (inject_Z (Z.of_nat 2)) with 2%Q. change (inject_Z (Z.of_nat 1)) with 1%Q.
      lra. }
    rewrite Hfrac. ring.
Qed.

(** ** Rounding to four decimals *)

Lemma round_half_even_near (x : Q) :
  (inject_Z (round_half_even x) - (1 # 2) <= x
   /\ x <= inject_Z (round_half_even x) + (1 # 2))%Q.
Proof.
  unfold round_half_even.
  pose proof (Qfloor_le x) as H1. pose proof (Qlt_floor x) as H2.
  rewrite inject_Z_plus in *. change (inject_Z 1) with 1%Q in *.
  destruct (x - inject_Z (Qfloor x) ?= 1 # 2)%Q eqn:E; cbv iota.
  - apply Qeq_alt in E. destruct (Z.even (Qfloor x));
      rewrite ?inject_Z_plus; change (inject_Z 1) with 1%Q; lra.
  - apply Qlt_alt in E. lra.
  - apply Qgt_alt in E. rewrite inject_Z_plus. change (inject_Z 1) with 1%Q. lra.
Qed.

Lemma round_half_even_mono (x y : Q) :
  (x <= y)%Q -> round_half_even x <= round_half_even y.
Proof.
  intros Hxy. pose proof (Qfloor_resp_le _ _ Hxy) as Hfl.
  unfold round_half_even.
  destruct (Z.eq_dec (Qfloor x) (Qfloor y)) as [Heq|Hne].
  - rewrite <- Heq.
    destruct (x - inject_Z (Qfloor x) ?= 1 # 2)%Q eqn:Ex;
      destruct (y - inject_Z (Qfloor x) ?= 1 # 2)%Q eqn:Ey;
      cbv iota; rewrite <- ?Qeq_alt, <- ?Qlt_alt, <- ?Qgt_alt in *;
      try (destruct (Z.even (Qfloor x))); try lia; lra.
  - destruct (x - inject_Z (Qfloor x) ?= 1 # 2)%Q;
      destruct (y - inject_Z (Qfloor y) ?= 1 # 2)%Q;
      cbv iota;
      try (destruct (Z.even (Qfloor x))); try (destruct (Z.even (Qfloor y))); lia.
Qed.

Lemma round4_mono (x y : Q) : (x <= y)%Q -> (round4 x <= round4 y)%Q.
Proof.
  intros Hxy. unfold round4.
  assert (x * 10000 <= y * 10000)%Q as H by lra.
  apply round_half_even_mono in H. rewrite Zle_Qle in H.
  apply Qmult_le_compat_r; [done|]. done.
Qed.

Lemma round4_near (x : Q) :
  (x - (1 # 20000) <= round4 x /\ round4 x <= x + (1 # 20000))%Q.
Proof.
  unfold round4. pose proof (round_half_even_near (x * 10000)) as [H1 H2].
  set (z := inject_Z (round_half_even (x * 10000))) in *.
  split.
  - apply Qle_shift_div_l; [done|]. lra.
  - apply Qle_shift_div_r; [done|]. lra.
Qed.

(** ** The statistics of a numeric column *)

Section Ordered.
Variable vs : list Q.
Hypothesis vs_nonempty : vs <> [].

Lemma sorted_nonempty : sort Qle_bool vs <> [].
Proof.
  intros H. apply (f_equal (@length Q)) in H. rewrite sort_length in H.
  destruct vs; [done|]. simpl in H. lia.
Qed.

Lemma position_range (q : Q) :
  (0 <= q)%Q -> (q <= 1)%Q ->
  (0 <= q * (qlen (sort Qle_bool vs) - 1)
   /\ q * (qlen (sort Qle_bool vs) - 1) <= qlen (sort Qle_bool vs) - 1)%Q.
Proof.
  intros H0 H1. pose proof sorted_nonempty as Hs.
  assert (1 <= qlen (sort Qle_bool vs))%Q as Hn.
  { unfold qlen. change 1%Q with (inject_Z 1). rewrite <- Zle_Qle.
    destruct (sort Qle_bool vs); [done|]. simpl length. lia. }
  split; nra.
Qed.

Lemma nanquantile_value (q : Q) :
  nanquantile q vs
  = Fin (interpolate (sort Qle_bool vs) (q * (qlen (sort Qle_bool vs) - 1))).
Proof.
  unfold nanquantile. pose proof sorted_nonempty.
  by destruct (sort Qle_bool vs).
Qed.

Lemma nanmin_value : exists lo, nanmin vs = Fin lo.
Proof. destruct vs; [done|]. simpl. eauto. Qed.

Lemma nanmax_value : exists hi, nanmax vs = Fin hi.
Proof. destruct vs; [done|]. simpl. eauto. Qed.

Lemma sorted_nth_In (i : nat) :
  (i < length (sort Qle_bool vs))%nat -> In (nth i (sort Qle_bool vs) 0%Q) vs.
Proof. intros Hi. apply (sort_In Qle_bool). by apply nth_In. Qed.

(** A quantile lies between the minimum and the maximum. *)
Lemma quantile_bounds (q : Q) :
  (0 <= q)%Q -> (q <= 1)%Q ->
  num_le (nanmin vs) (nanquantile q vs) /\ num_le (nanquantile q vs) (nanmax vs).
Proof.
  intros H0 H1. destruct (position_range q H0 H1) as [Hp0 Hp1].
  destruct nanmin_value as [lo Hlo]. destruct nanmax_value as [hi Hhi].
  rewrite Hlo, Hhi, nanquantile_value. simpl.
  pose proof (sort_Qsorted vs) as Hs. pose proof sorted_nonempty as Hne.
  destruct (interpolate_between _ Hs Hne _ Hp0 Hp1) as [Ha Hb].
  pose proof (floor_position _ _ Hp0 Hp1) as Hfl.
  pose proof (length_pos _ Hs Hne) as Hlen.
  split.
  - eapply Qle_trans; [|exact Ha]. apply (nanmin_least vs); [done|].
    apply sorted_nth_In. lia.
  - eapply Qle_trans; [exact Hb|]. apply (nanmax_greatest vs); [done|].
    apply sorted_nth_In. lia.
Qed.

(** A quantile grows with its level. *)
Lemma quantile_mono (p q : Q) :
  (0 <= p)%Q -> (p <= q)%Q -> (q <= 1)%Q ->
  num_le (nanquantile p vs) (nanquantile q vs).
Proof.
  intros H0 Hpq H1. rewrite !nanquantile_value. simpl.
  destruct (position_range p) as [Hp0 Hp1]; [lra|lra|].
  destruct (position_range q) as [Hq0 Hq1]; [lra|lra|].
  apply interpolate_mono; try done.
  - apply sort_Qsorted.
  - apply sorted_nonempty.
  - destruct (position_range 1) as [Hn _]; [lra|lra|]. nra.
Qed.

(** The median is the quantile of level one half. *)
Lemma median_quantile :
  exists m h, nanmedian vs = Fin m /\ nanquantile (1 # 2) vs = Fin h /\ (m == h)%Q.
Proof.
  pose proof sorted_nonempty as Hne.
  pose proof (median_interpolate _ Hne) as Hm.
  rewrite nanquantile_value. unfold nanmedian.
  destruct (length (sort Qle_bool vs)) as [|n] eqn:Hlen.
  { destruct (sort Qle_bool vs); done. }
  revert Hm.
  destruct (Nat.even (S n)); intros Hm;
    do 2 eexists; (split; [reflexivity|split; [reflexivity|exact Hm]]).
Qed.

(** The computed statistics are in the order the description states. *)
Lemma computed_statistics_ordered (xs : list (option Q)) :
  dropna xs = vs -> ordered_statistics (fun s => exact_stat s xs).
Proof.
  intros Hxs. unfold ordered_statistics, percentiles. cbn [exact_stat].
  rewrite !Hxs.
  destruct median_quantile as (m & h & Hm & Hh & Hmh).
  pose proof (quantile_mono (1 # 4) (1 # 2)) as H1.
  pose proof (quantile_mono (1 # 2) (3 # 4)) as H2.
  rewrite Hh in H1, H2. rewrite Hm.
  split; [|split].
  - repeat (apply List.Forall_cons;
              [cbn [exact_stat]; rewrite Hxs; apply quantile_bounds; lra|]).
    apply List.Forall_nil.
  - destruct (nanquantile (1 # 4) vs); simpl in *; [apply H1; lra|].
    assert (q <= h)%Q by (apply H1; lra). lra.
  - destruct (nanquantile (3 # 4) vs); simpl in *; [apply H2; lra|].
    assert (h <= q)%Q by (apply H2; lra). lra.
Qed.
End Ordered.

(** With a library that computes in exact arithmetic the statistics of
    a float64 column with a value are in that order. *)
Lemma exact_statistics_ordered (xs : list (option Q)) :
  dropna xs <> [] ->
  ordered_statistics (fun s => column_stat exact_float_stat s (Float64 xs)).
Proof.
  intros Hne.
  pose proof (computed_statistics_ordered (dropna xs) Hne xs eq_refl) as H.
  destruct (dropna xs) as [|v [|v' vs]] eqn:Hvs; [done| |].
  - unfold ordered_statistics, percentiles, column_stat.
    cbn [float64_values numbers]. rewrite Hvs. cbn [nanmin nanmax fold_left].
    repeat split; repeat constructor; simpl; lra.
  - unfold ordered_statistics, percentiles, column_stat in *.
    cbn [float64_values numbers exact_float_stat numeric_values] in *.
    cbn [exact_stat] in *. rewrite ?Hvs in *.
    destruct H as (Hall & Hq1 & Hq3). split; [|by split].
    rewrite List.Forall_forall in *. intros p Hp. specialize (Hall p Hp).
    destruct Hp as [<-|[<-|[<-|[<-|[]]]]]; exact Hall.
Qed.

Lemma shown_mono (s t : stat) (a b : num) :
  In s [Median; Quartile1; Quartile3] -> In t [Median; Quartile1; Quartile3] ->
  num_le a b -> num_le (shown s a) (shown t b).
Proof.
  intros Hs Ht. destruct a as [|x], b as [|y]; simpl; try done.
  intros Hxy.
  destruct Hs as [<-|[<-|[<-|[]]]], Ht as [<-|[<-|[<-|[]]]]; by apply round4_mono.
Qed.

Lemma shown_near (p : stat) (lo v hi : num) :
  In p percentiles ->
  num_le lo v -> num_le v hi ->
  num_near (shown Minimum lo) (shown p v) (shown Maximum hi).
Proof.
  intros Hp. destruct lo as [|a], v as [|x], hi as [|b]; simpl; try done.
  intros Hax Hxb. pose proof (round4_near x) as [H1 H2].
  destruct Hp as [<-|[<-|[<-|[<-|[]]]]]; simpl; lra.
Qed.

(** The minimum and the maximum are values found in the column: they
    bound every value of it. *)
Lemma extremes_bound float_stat (c : column) (v : Q) :
  In v (numbers c) ->
  num_le (column_stat float_stat Minimum c) (Fin v)
  /\ num_le (Fin v) (column_stat float_stat Maximum c).
Proof.
  intros Hv. cbn [column_stat].
  destruct (numbers c) as [|x vs] eqn:Hvs; [done|]. rewrite <- Hvs in Hv.
  destruct (nanmin_value (numbers c)) as [lo Hlo]; [by rewrite Hvs|].
  destruct (nanmax_value (numbers c)) as [hi Hhi]; [by rewrite Hvs|].
  rewrite <- Hvs, Hlo, Hhi. simpl. split.
  - by apply (nanmin_least (numbers c)).
  - by apply (nanmax_greatest (numbers c)).
Qed.

Section NumericReport.
Variable float_stat : stat -> column -> num.
Variable text_stat : stat -> text_dtype -> list (option string) -> outcome (num + string).
Variable other_stat : stat -> string -> list cell -> outcome (num + string).

(** For a column of numeric storage type every statistic is computed
    and printed. *)
Lemma stat_report_numeric (c : column) (ss : list stat) :
  is_numeric c = true ->
  stat_report float_stat text_stat other_stat c ss
  = (map (fun s => Stat s (column_stat float_stat s c)) ss, None).
Proof.
  intros Hc. induction ss as [|s ss IH]; simpl; [done|].
  assert (series_stat float_stat text_stat other_stat s c
          = Return (inl (column_stat float_stat s c))) as ->.
  { destruct c; try done; by destruct s. }
  by rewrite IH.
Qed.

Lemma profile_numeric_of_numeric df frame col c w :
  heap w !! df = Some frame ->
  frame_get frame col = Some c ->
  is_numeric c = true ->
  profile_numeric float_stat text_stat other_stat df col w
  = (Return tt,
     World (heap w)
           (stdout w ++ NumericHeader col
                        :: map (fun s => Stat s (column_stat float_stat s c))
                               numeric_stats)).
Proof.
  intros Hh Hc Hn. unfold profile_numeric, try_except.
  rewrite bind_run, run_print.
  rewrite (print_stats_run float_stat text_stat other_stat df frame col c) by done.
  rewrite (stat_report_numeric c) by done.
  cbn [fst snd heap stdout]. by rewrite <- app_assoc.
Qed.

End NumericReport.



(** It fails before any rounding of the display too: the maximum of an
    int64 column is one of its integers, and the percentiles are
    computed on its values as float64.  For a column whose one value is
    2^63 - 1, which is 2^63 as float64, every percentile is above the
    maximum. *)
Lemma converted_statistics_not_ordered :
  ~ ordered_statistics (fun s => column_stat exact_float_stat s huge_column)
  /\ ~ ordered_statistics (fun s => shown s (column_stat exact_float_stat s huge_column)).
Proof.
  split; intros [Hall _]; apply List.Forall_inv in Hall as [_ Hmax];
    vm_compute in Hmax; apply Hmax; reflexivity.
Qed.

(** And it fails for a column without values: every statistic is NaN,
    and no comparison with NaN holds. *)
Lemma all_missing_not_ordered :
  ~ ordered_statistics (fun s => column_stat exact_float_stat s (Float64 [None; None])).
Proof.
  intros [Hall _]. apply List.Forall_inv in Hall as [Hmin _]. exact Hmin.
Qed.

Example tiny_column_report :
  map (fun s => shown s (column_stat exact_float_stat s tiny_column))
      [Minimum; Quantile01; Maximum]
  = [Fin (1 # 32768); Fin (0 # 10000); Fin (1 # 32768)].
Proof. reflexivity. Qed.

Example huge_column_report :
  map (fun s => shown s (column_stat exact_float_stat s huge_column))
      [Minimum; Median; Maximum]
  = [Fin (9223372036854775807 # 1); Fin (92233720368547758080000 # 10000);
     Fin (9223372036854775807 # 1)].
Proof. reflexivity. Qed.

(** ** Pearson correlation *)

Section CauchySchwarz.
Local Open Scope R_scope.

(** Sums of products of two sequences of deviations. *)
Lemma quadratic_nonneg (l : list (R * R)) (t : R) :
  0 <= rsum (map (fun p => fst p * fst p) l) * (t * t)
       + 2 * rsum (map (fun p => fst p * snd p) l) * t
       + rsum (map (fun p => snd p * snd p) l).
Proof.
  induction l as [|[u v] l IH]; simpl.
  - lra.
  - pose proof (Rle_0_sqr (u * t + v)) as Hsq. unfold Rsqr in Hsq. Lra.nra.
Qed.

Lemma sum_squares_nonneg (l : list (R * R)) :
  0 <= rsum (map (fun p => fst p * fst p) l).
Proof.
  induction l as [|[u v] l IH]; simpl; [lra|].
  pose proof (Rle_0_sqr u) as Hsq. unfold Rsqr in Hsq. lra.
Qed.

Lemma cauchy_schwarz (l : list (R * R)) :
  rsum (map (fun p => fst p * snd p) l) * rsum (map (fun p => fst p * snd p) l)
  <= rsum (map (fun p => fst p * fst p) l) * rsum (map (fun p => snd p * snd p) l).
Proof.
  pose proof (quadratic_nonneg l) as Hq. pose proof (sum_squares_nonneg l) as HA.
  set (A := rsum (map (fun p => fst p * fst p) l)) in *.
  set (C := rsum (map (fun p => fst p * snd p) l)) in *.
  set (B := rsum (map (fun p => snd p * snd p) l)) in *.
  destruct (Req_dec A 0) as [HA0|HA0].
  - rewrite HA0 in *. assert (C = 0) as ->; [|lra].
    destruct (Req_dec C 0) as [|HC]; [done|]. exfalso.
    specialize (Hq (- (B + 1) / (2 * C))).
    assert (2 * C * (- (B + 1) / (2 * C)) = - (B + 1)) as Heq by (field; done).
    lra.
  - specialize (Hq (- C / A)).
    assert (A * (- C / A * (- C / A)) + 2 * C * (- C / A) + B = B - C * C / A) as Heq
      by (field; done).
    rewrite Heq in Hq.
    assert (0 < A) as HApos by lra.
    assert (C * C / A <= B) as Hle by lra.
    apply (Rmult_le_compat_l A) in Hle; [|lra].
    replace (A * (C * C / A)) with (C * C) in Hle by (field; done). lra.
Qed.
End CauchySchwarz.

Section PearsonFacts.
Local Open Scope R_scope.

Lemma combine_fst_snd (ps : list (R * R)) :
  combine (map fst ps) (map snd ps) = ps.
Proof. induction ps as [|[x y] ps IH]; simpl; congruence. Qed.

(** The three sums of [pearson] as sums over the pairs of deviations. *)
Lemma codeviation_pairs (ps : list (R * R)) (mx my : R) :
  let devs := map (fun p => (fst p - mx, snd p - my)) ps in
  rsum (map (fun p => (fst p - mx) * (snd p - my)) ps)
  = rsum (map (fun p => fst p * snd p) devs)
  /\ rsum (map (fun p => (fst p - mx) * (snd p - mx))
               (combine (map fst ps) (map fst ps)))
     = rsum (map (fun p => fst p * fst p) devs)
  /\ rsum (map (fun p => (fst p - my) * (snd p - my))
               (combine (map snd ps) (map snd ps)))
     = rsum (map (fun p => snd p * snd p) devs).
Proof.
  induction ps as [|[x y] ps (IH1 & IH2 & IH3)]; simpl in *; [done|].
  by rewrite IH1, IH2, IH3.
Qed.

Lemma sum_squares_zero (l : list (R * R)) :
  rsum (map (fun p => fst p * fst p) l) = 0 -> forall p, In p l -> fst p = 0.
Proof.
  induction l as [|[u v] l IH]; simpl; [done|]. intros Hsum.
  pose proof (sum_squares_nonneg l) as Hl.
  pose proof (Rle_0_sqr u) as Hu. unfold Rsqr in Hu.
  assert (u * u = 0) as Hu0 by lra.
  intros p [<-|Hp]; simpl.
  - by apply Rsqr_0_uniq.
  - apply IH; [lra|done].
Qed.

(** In exact arithmetic a coefficient is between -1 and 1. *)
Lemma exact_corr_bounded (ps : list (R * R)) (r : R) :
  exact_corr ps = Some r -> -1 <= r <= 1.
Proof.
  unfold exact_corr, codeviation. rewrite combine_fst_snd.
  destruct (codeviation_pairs ps (rmean (map fst ps)) (rmean (map snd ps)))
    as (HC & HA & HB).
  rewrite HC, HA, HB.
  set (devs := map (fun p => (fst p - rmean (map fst ps), snd p - rmean (map snd ps))) ps).
  pose proof (cauchy_schwarz devs) as Hcs.
  pose proof (sum_squares_nonneg devs) as HA0.
  pose proof (sum_squares_nonneg (map (fun p => (snd p, fst p)) devs)) as HB0.
  rewrite map_map in HB0. simpl in HB0.
  set (A := rsum (map (fun p => fst p * fst p) devs)) in *.
  set (B := rsum (map (fun p => snd p * snd p) devs)) in *.
  set (C := rsum (map (fun p => fst p * snd p) devs)) in *.
  destruct (Req_dec_T (sqrt (A * B)) 0) as [|HD]; [done|]. intros [= <-].
  assert (0 <= A * B) as HAB by Lra.nra.
  pose proof (sqrt_pos (A * B)) as HD0.
  pose proof (sqrt_sqrt (A * B) HAB) as HDD.
  set (D := sqrt (A * B)) in *.
  assert (0 < D) as HDpos by lra.
  assert (C / D * D = C) as Hdiv by (field; lra).
  assert (- D <= C <= D) as [H1 H2] by (split; Lra.nra).
  split; Lra.nra.
Qed.

Lemma complete_pairs_self (xs : list (option R)) :
  complete_pairs xs xs = map (fun x => (x, x)) (dropna xs).
Proof.
  induction xs as [|[x|] xs IH]; simpl; [done| |done]. by rewrite IH.
Qed.

(** In exact arithmetic the coefficient of a column with itself is 1
    as soon as two of its values differ. *)
Lemma exact_corr_self (xs : list R) (a b : R) :
  In a xs -> In b xs -> a <> b ->
  exact_corr (map (fun x => (x, x)) xs) = Some 1.
Proof.
  intros Ha Hb Hab. unfold exact_corr.
  set (ps := map (fun x => (x, x)) xs).
  assert (In (a, a) ps) as Hpa by (apply in_map_iff; eauto).
  assert (In (b, b) ps) as Hpb by (apply in_map_iff; eauto).
  assert (map snd ps = map fst ps) as Hsnd.
  { unfold ps. rewrite !map_map. done. }
  rewrite Hsnd. unfold codeviation.
  destruct (codeviation_pairs ps (rmean (map fst ps)) (rmean (map fst ps)))
    as (_ & HA & _).
  rewrite HA.
  set (devs := map (fun p => (fst p - rmean (map fst ps), snd p - rmean (map fst ps))) ps).
  pose proof (sum_squares_nonneg devs) as HA0.
  set (A := rsum (map (fun p => fst p * fst p) devs)) in *.
  assert (A <> 0) as HAne.
  { intros HA'. pose proof (sum_squares_zero devs HA') as Hz.
    assert (a - rmean (map fst ps) = 0) as H1.
    { apply (Hz (a - rmean (map fst ps), a - rmean (map fst ps))).
      apply in_map_iff. by exists (a, a). }
    assert (b - rmean (map fst ps) = 0) as H2.
    { apply (Hz (b - rmean (map fst ps), b - rmean (map fst ps))).
      apply in_map_iff. by exists (b, b). }
    apply Hab. lra. }
  rewrite (sqrt_square A HA0).
  destruct (Req_dec_T A 0) as [|_]; [done|]. f_equal. by field.
Qed.

Lemma constant_true (xs : list R) :
  constant xs = true <-> forall x y, In x xs -> In y xs -> x = y.
Proof.
  destruct xs as [|x rest]; simpl; [by split|].
  rewrite forallb_forall. split.
  - intros H. assert (forall y, In y (x :: rest) -> y = x) as Hx.
    { intros y [<-|Hy]; [done|]. specialize (H y Hy).
      by destruct (Req_dec_T y x). }
    intros u v Hu Hv. by rewrite (Hx u), (Hx v).
  - intros H y Hy. destruct (Req_dec_T y x) as [|Hne]; [done|].
    exfalso. apply Hne. apply H; tauto.
Qed.

Lemma constant_short (xs : list R) : (length xs <= 1)%nat -> constant xs = true.
Proof. destruct xs as [|x [|y xs]]; simpl; [done|done|lia]. Qed.

Section Pearson.
Variable float_corr : list (R * R) -> option R.

Lemma self_pairs_fst (xs : list R) : map fst (map (fun x => (x, x)) xs) = xs.
Proof. rewrite map_map. apply map_id. Qed.

Lemma self_pairs_snd (xs : list R) : map snd (map (fun x => (x, x)) xs) = xs.
Proof. rewrite map_map. apply map_id. Qed.

(** The coefficient of a column with itself is what pandas computes
    from its values as soon as two of them differ. *)
Lemma pearson_self (xs : list (option R)) (a b : R) :
  In a (dropna xs) -> In b (dropna xs) -> a <> b ->
  pearson float_corr xs xs = float_corr (map (fun x => (x, x)) (dropna xs)).
Proof.
  intros Ha Hb Hab. unfold pearson. rewrite complete_pairs_self.
  rewrite self_pairs_fst, self_pairs_snd, orb_diag.
  destruct (constant (dropna xs)) eqn:Hc; [|done].
  exfalso. apply Hab. by apply (proj1 (constant_true (dropna xs)) Hc).
Qed.

(** The coefficient of a column whose values are all the same is NaN. *)
Lemma pearson_constant (xs : list (option R)) (a : R) :
  (forall x, In x (dropna xs) -> x = a) -> pearson float_corr xs xs = None.
Proof.
  intros Hconst. unfold pearson. rewrite complete_pairs_self.
  rewrite self_pairs_fst, self_pairs_snd, orb_diag.
  assert (constant (dropna xs) = true) as ->; [|done].
  apply constant_true. intros x y Hx Hy. by rewrite (Hconst x), (Hconst y).
Qed.

(** So is the coefficient of two columns that share at most one row. *)
Lemma short_pairs_nan (xs ys : list (option R)) :
  (length (complete_pairs xs ys) <= 1)%nat -> pearson float_corr xs ys = None.
Proof.
  intros Hlen. unfold pearson.
  rewrite (constant_short (map fst (complete_pairs xs ys))); [done|].
  by rewrite length_map.
Qed.
End Pearson.
End PearsonFacts.

(** ** The correlation table *)

Lemma entry_geb_total (a b : string * option R) :
  entry_geb a b = true \/ entry_geb b a = true.
Proof.
  unfold entry_geb. destruct (snd a) as [x|], (snd b) as [y|]; try tauto.
  destruct (Rle_dec y x), (Rle_dec x y); try tauto. lra.
Qed.

Lemma entry_geb_trans (a b c : string * option R) :
  entry_geb a b = true -> entry_geb b c = true -> entry_geb a c = true.
Proof.
  unfold entry_geb. destruct (snd a) as [x|], (snd b) as [y|], (snd c) as [z|];
    try done.
  destruct (Rle_dec y x), (Rle_dec z y), (Rle_dec z x); try done. lra.
Qed.

Lemma series_get_map (f : string -> option R) (names : list string) (target : string) :
  In target names ->
  series_get (map (fun b => (b, f b)) names) target = Some (f target).
Proof.
  induction names as [|n names IH]; simpl; [done|].
  destruct (String.eqb_spec n target) as [->|Hne]; [done|].
  intros [?|Hin]; [done|]. by apply IH.
Qed.

Lemma numeric_column_selected (frame : DataFrame) (target : string) (c : column) :
  frame_get frame target = Some c -> is_numeric c = true ->
  In target (select_dtypes is_numeric frame).
Proof.
  intros Hc Hn. unfold select_dtypes. apply in_map_iff. exists (target, c).
  split; [done|]. apply filter_In. split; [|done].
  apply list_elem_of_In. by apply frame_get_elem.
Qed.

(** In exact arithmetic no coefficient of the matrix is above 1. *)
Lemma exact_coefficient_bounded frame names a b r :
  coefficient exact_corr frame names a b = Some r -> (-1 <= r <= 1)%R.
Proof.
  unfold coefficient, pearson.
  destruct (index_of String.eqb a names) as [i|], (index_of String.eqb b names) as [j|];
    try done.
  destruct (j <=? i)%nat;
    match goal with
    | |- (if ?t then _ else _) = _ -> _ => destruct t; [done|]
    end; apply exact_corr_bounded.
Qed.

Section CorrelationTable.
Variable float_corr : list (R * R) -> option R.

(** The entry of a column with itself. *)
Lemma coefficient_self frame names a :
  In a names ->
  coefficient float_corr frame names a a
  = pearson float_corr (frame_reals frame a) (frame_reals frame a).
Proof.
  intros Hin. unfold coefficient.
  destruct (index_of_elem String.eqb String.eqb_eq a names) as [i ->].
  - by apply list_elem_of_In.
  - by rewrite Nat.leb_refl.
Qed.

(** The column of the matrix the target selects. *)
Lemma matrix_getitem_corr (frame : DataFrame) (names : list string) (target : string) :
  In target names ->
  matrix_getitem (corr float_corr frame names) target
  = Return (correlations_with float_corr frame names target).
Proof.
  intros Hin. unfold matrix_getitem, corr, correlations_with.
  rewrite !map_map. cbn [fst snd].
  assert (existsb (String.eqb target) (map (fun x => x) names) = true) as ->.
  { apply existsb_exists. exists target. rewrite map_id. split; [done|].
    apply String.eqb_refl. }
  f_equal. apply map_ext. intros a.
  by rewrite (series_get_map (fun b => coefficient float_corr frame names a b)).
Qed.

Lemma correlation_table_run df frame target w :
  heap w !! df = Some frame ->
  In target (select_dtypes is_numeric frame) ->
  correlation_table float_corr df target w
  = (Return tt,
     World (heap w)
           (stdout w
            ++ [CorrelationHeader;
                CorrelationTable
                  (sort_values_desc
                     (correlations_with float_corr frame
                        (select_dtypes is_numeric frame) target));
                HeatmapShown (corr float_corr frame (select_dtypes is_numeric frame))])).
Proof.
  intros Hh Hin. unfold correlation_table.
  rewrite bind_run, (run_deref df w frame Hh).
  rewrite bind_run. unfold lift. rewrite matrix_getitem_corr by done.
  rewrite bind_run, run_print, bind_run, run_print, bind_run.
  rewrite (run_deref df _ frame) by done.
  rewrite run_print. cbn [heap stdout]. by rewrite <- !app_assoc.
Qed.

End CorrelationTable.

Lemma float64_of_small_int (z : Z) : Z.abs z < 2 ^ 53 -> float64_of_int z = z.
Proof.
  intros H. unfold float64_of_int.
  destruct (Z.ltb_spec (Z.abs z) (2 ^ 53)); [done|lia].
Qed.



(** Two different integers are not enough: 2^53 and 2^53 + 1 are the
    same float64 value, and the table shows NaN for a target that holds
    only them. *)
Lemma collapsed_target_correlation_nan :
  correlation_table exact_corr 1%positive "saleprice" collapsed_world
  = (Return tt,
     World (heap collapsed_world)
           [CorrelationHeader;
            CorrelationTable [("saleprice"%string, None)];
            HeatmapShown (corr exact_corr collapsed_frame ["saleprice"%string])]).
Proof.
  rewrite (correlation_table_run exact_corr 1%positive collapsed_frame);
    [|done|simpl; tauto].
  change (select_dtypes is_numeric collapsed_frame) with ["saleprice"%string].
  unfold correlations_with, sort_values_desc. cbn [map sort insert_sorted].
  rewrite (coefficient_self exact_corr) by (simpl; tauto).
  rewrite (pearson_constant exact_corr (frame_reals collapsed_frame "saleprice")
             (IZR (2 ^ 53))).
  - reflexivity.
  - change (frame_reals collapsed_frame "saleprice")
      with [Some (IZR (2 ^ 53)); Some (IZR (2 ^ 53))].
    simpl. intuition congruence.
Qed.

(** Nor does the target's entry come first when another column has the
    same coefficient with the target: between two columns that hold the
    values of the target, the target's entry is the second of three
    entries with the coefficient 1. *)
Lemma tied_target_not_first :
  correlation_table exact_corr 1%positive "saleprice" tied_world
  = (Return tt,
     World (heap tied_world)
           [CorrelationHeader;
            CorrelationTable [("before"%string, Some 1%R);
                              ("saleprice"%string, Some 1%R);
                              ("after"%string, Some 1%R)];
            HeatmapShown (corr exact_corr tied_frame
                            ["before"; "saleprice"; "after"]%string)])
  /\ ~ self_correlation_first [("before"%string, Some 1%R);
                               ("saleprice"%string, Some 1%R);
                               ("after"%string, Some 1%R)] "saleprice".
Proof.
  split.
  - rewrite (correlation_table_run exact_corr 1%positive tied_frame);
      [|done|simpl; tauto].
    change (select_dtypes is_numeric tied_frame)
      with ["before"; "saleprice"; "after"]%string.
    assert (correlations_with exact_corr tied_frame
              ["before"; "saleprice"; "after"]%string "saleprice"
            = [("before"%string, Some 1%R); ("saleprice"%string, Some 1%R);
               ("after"%string, Some 1%R)]) as ->.
    { unfold correlations_with, coefficient. cbn [map index_of String.eqb Ascii.eqb
        Bool.eqb option_map Nat.leb].
      change (frame_reals tied_frame "before") with [Some (IZR 1); Some (IZR 2)].
      change (frame_reals tied_frame "saleprice") with [Some (IZR 1); Some (IZR 2)].
      change (frame_reals tied_frame "after") with [Some (IZR 1); Some (IZR 2)].
      rewrite (pearson_self exact_corr [Some (IZR 1); Some (IZR 2)] (IZR 1) (IZR 2));
        [|simpl; tauto|simpl; tauto|apply eq_IZR_contrapositive; lia].
      rewrite (exact_corr_self (dropna [Some (IZR 1); Some (IZR 2)]) (IZR 1) (IZR 2));
        [done|simpl; tauto|simpl; tauto|apply eq_IZR_contrapositive; lia]. }
    assert (forall n m, entry_geb (n, Some 1%R) (m, Some 1%R) = true) as Hge.
    { intros n m. unfold entry_geb. simpl. destruct (Rle_dec 1 1); [done|lra]. }
    unfold sort_values_desc. cbn [sort insert_sorted].
    rewrite Hge. cbn [insert_sorted]. rewrite Hge. reflexivity.
  - intros [[rest Hrest] _]. discriminate.
Qed.

(** ** The scenarios of the description *)

(** The shape of an empty table with three columns. *)
Example empty_table_shape :
  analyze_dataset 1%positive
    (World (<[1%positive := [("a"%string, Int64 []); ("b"%string, Float64 []);
                             ("c"%string, Text Object [])]]> ∅) [])
  = (Return tt,
     World (<[1%positive := [("a"%string, Int64 []); ("b"%string, Float64 []);
                             ("c"%string, Text Object [])]]> ∅) [ShapeLine 0 3]).
Proof. reflexivity. Qed.

(** The groups of the synthetic table: land use A, A, B, B with the sale
    prices 100, 110, 200, 210. *)
Example synthetic_table_groups :
  map (group (cells (Text Object [Some "A"; Some "A"; Some "B"; Some "B"]%string))
             (cells (Int64 [100; 110; 200; 210])))
      (group_keys (Text Object [Some "A"; Some "A"; Some "B"; Some "B"]%string))
  = [[CInt 100; CInt 110]; [CInt 200; CInt 210]].
Proof. reflexivity. Qed.

(** The median and the quartiles of 1, 2, 3, 4 are 2.5, 1.75 and 3.25. *)
Example quartiles_of_four :
  exists q1 m q3,
    nanquantile (1 # 4) [1; 2; 3; 4]%Q = Fin q1
    /\ nanmedian [1; 2; 3; 4]%Q = Fin m
    /\ nanquantile (3 # 4) [1; 2; 3; 4]%Q = Fin q3
    /\ (q1 == 175 # 100 /\ m == 5 # 2 /\ q3 == 325 # 100)%Q.
Proof. do 3 eexists. repeat split; reflexivity. Qed.

(** * Further properties of the script *)

(** ** What a stage may print *)

Section Emits.
Variable P : line -> Prop.

Lemma emits_silent {A} (m : M world A) :
  (forall w, stdout (snd (m w)) = stdout w) -> emits P m.
Proof. intros H w. exists []. by rewrite H, app_nil_r. Qed.

Lemma emits_ret {A} (a : A) : emits P (ret a).
Proof. by apply emits_silent. Qed.

Lemma emits_raise {A} (e : exn) : emits P (@raise world A e).
Proof. by apply emits_silent. Qed.

Lemma emits_lift {A} (o : outcome A) : emits P (lift o).
Proof. by apply emits_silent. Qed.

Lemma emits_deref (df : loc) : emits P (deref df).
Proof. apply emits_silent. intros w. unfold deref. by destruct (heap w !! df). Qed.

Lemma emits_alloc (frame : DataFrame) : emits P (alloc frame).
Proof. by apply emits_silent. Qed.

Lemma emits_setitem (df : loc) (col : string) (c : column) : emits P (setitem df col c).
Proof. apply emits_silent. intros w. unfold setitem. by destruct (heap w !! df). Qed.

Lemma emits_print (l : line) : P l -> emits P (print l).
Proof. intros Hl w. exists [l]. split; [done|]. by constructor. Qed.

Lemma emits_bind {A B} (m : M world A) (k : A -> M world B) :
  emits P m -> (forall a, emits P (k a)) -> emits P (bind m k).
Proof.
  intros Hm Hk w. rewrite bind_run. destruct (Hm w) as (out & Hout & HP).
  destruct (m w) as [[a|e] w']; simpl in *; [|eauto].
  destruct (Hk a w') as (out' & Hout' & HP'). exists (out ++ out').
  split; [by rewrite Hout', Hout, app_assoc|]. by apply Forall_app.
Qed.

Lemma emits_try {A} (m : M world A) (handler : exn -> M world A) :
  emits P m -> (forall e, emits P (handler e)) -> emits P (try_except m handler).
Proof.
  intros Hm Hk w. unfold try_except. destruct (Hm w) as (out & Hout & HP).
  destruct (m w) as [[a|e] w']; simpl in *; [eauto|].
  destruct (is_Exception e); [|eauto].
  destruct (Hk e w') as (out' & Hout' & HP'). exists (out ++ out').
  split; [by rewrite Hout', Hout, app_assoc|]. by apply Forall_app.
Qed.

Lemma emits_for_each {A} (xs : list A) (body : A -> M world unit) :
  (forall x, emits P (body x)) -> emits P (for_each xs body).
Proof.
  intros Hb. induction xs as [|x xs IH]; simpl.
  - apply emits_ret.
  - apply emits_bind; [apply Hb|done].
Qed.

Lemma emits_comprehension {A B} (xs : list A) (f : A -> M world B) :
  (forall x, emits P (f x)) -> emits P (comprehension xs f).
Proof.
  intros Hf. induction xs as [|x xs IH]; simpl.
  - apply emits_ret.
  - apply emits_bind; [apply Hf|]. intros y.
    apply emits_bind; [done|]. intros ys. apply emits_ret.
Qed.

Lemma emits_getitem (df : loc) (col : string) : emits P (getitem df col).
Proof.
  apply emits_bind; [apply emits_deref|]. intros frame.
  destruct (frame_get frame col); [apply emits_ret|apply emits_raise].
Qed.
End Emits.

(** The lines a stage prints are found by following its structure; the
    side condition of each [print] is left to [tac]. *)
Ltac emitting tac :=
  repeat first
    [ progress intros
    | apply emits_bind
    | apply emits_try
    | apply emits_for_each
    | apply emits_comprehension
    | apply emits_getitem
    | apply emits_setitem
    | apply emits_alloc
    | apply emits_deref
    | apply emits_lift
    | apply emits_ret
    | apply emits_raise
    | apply emits_print; tac
    | match goal with
      | |- emits _ (match ?x with _ => _ end) => destruct x
      | |- emits _ (if ?x then _ else _) => destruct x
      | |- emits _ (let '(_, _) := ?x in _) => destruct x
      end ].

(** ** The entry point *)

Section Main.
Variable create_engine : string -> outcome engine.
Variable read_sql_query : string -> engine -> outcome DataFrame.
Variable f_oneway : list (list cell) -> outcome (num * num).
Variable ttest_ind : list cell -> list cell -> bool -> outcome (num * num).
Variable float_corr : list (R * R) -> option R.

(** X1. Whatever the database and the tests answer, the entry point only
    appends to the output and never prints a line of the Numeric or the
    Categorical Profiler: it does not call them. *)
Theorem main_never_profiles :
  emits (fun l => profiler_line l = false)
        (main create_engine read_sql_query f_oneway ttest_ind float_corr).
Proof.
  unfold main, connect_to_db, load_data, encode_categorical_variables, encode_step,
    analyze_dataset, test_hypotheses, test_landuse_price, test_vacant_acreage,
    group_values, report_test, correlation_table, exit_.
  emitting ltac:(simpl; reflexivity).
Qed.
End Main.

(** ** More on the Encoder *)

Lemma factorize_length {A} (eqb : A -> A -> bool) (xs : list (option A)) (us : list A) :
  length (fst (factorize_loop eqb xs us)) = length xs.
Proof.
  revert us. induction xs as [|[v|] xs IH]; intros us; simpl; [done| |].
  - destruct (index_of eqb v us).
    + specialize (IH us). destruct (factorize_loop eqb xs us). simpl in *. by rewrite IH.
    + specialize (IH (us ++ [v])). destruct (factorize_loop eqb xs (us ++ [v])).
      simpl in *. by rewrite IH.
  - specialize (IH us). destruct (factorize_loop eqb xs us). simpl in *. by rewrite IH.
Qed.

Lemma encode_column_length (c : column) :
  column_length (encode_column c) = column_length c.
Proof.
  destruct c as [xs|xs|d xs|d xs]; try done.
  unfold encode_column, column_length. simpl.
  pose proof (factorize_length String.eqb xs []) as H. unfold factorize.
  destruct (factorize_loop String.eqb xs []). simpl in *. by rewrite !length_map, H.
Qed.

Lemma encode_frame_shape (frame : DataFrame) : shape (encode_frame frame) = shape frame.
Proof.
  unfold shape, encode_frame. rewrite length_map.
  destruct frame as [|[n c] frame]; simpl; [done|].
  by rewrite encode_column_length.
Qed.

Lemma encode_column_numeric (c : column) :
  numeric_or_text c = true -> is_numeric (encode_column c) = true.
Proof. by destruct c. Qed.

Lemma encode_column_idem (c : column) : encode_column (encode_column c) = encode_column c.
Proof. by destruct c. Qed.

Lemma encode_frame_idem (frame : DataFrame) :
  encode_frame (encode_frame frame) = encode_frame frame.
Proof.
  unfold encode_frame. rewrite map_map. apply map_ext. intros [n c]. simpl.
  by rewrite encode_column_idem.
Qed.

Lemma encode_frame_no_text (frame : DataFrame) :
  select_dtypes is_text (encode_frame frame) = []
  /\ encode_output (encode_frame frame) = [].
Proof.
  unfold select_dtypes, encode_output, encode_frame.
  induction frame as [|[n c] frame [IH1 IH2]]; simpl; [done|].
  assert (is_text (encode_column c) = false) as -> by (by destruct c). done.
Qed.

Lemma encode_frame_all_numeric (frame : DataFrame) :
  Forall (fun p => numeric_or_text (snd p) = true) frame ->
  select_dtypes is_numeric (encode_frame frame) = map fst frame.
Proof.
  unfold select_dtypes, encode_frame.
  induction 1 as [|[n c] frame Hc _ IH]; simpl; [done|].
  rewrite encode_column_numeric by done. simpl. by rewrite IH.
Qed.

(** X2. The Encoder keeps the shape of the dataset: the same number of
    columns, and every column, encoded or not, keeps its number of
    rows. *)
Theorem encoder_keeps_shape df frame w :
  heap w !! df = Some frame ->
  NoDup (map fst frame) ->
  exists w' frame',
    encode_categorical_variables df w = (Return df, w')
    /\ heap w' !! df = Some frame'
    /\ shape frame' = shape frame
    /\ forall col c, frame_get frame col = Some c ->
         exists c', frame_get frame' col = Some c'
                    /\ column_length c' = column_length c.
Proof.
  intros Hh Hnd. eexists _, (encode_frame frame).
  split; [by apply encode_run|]. cbn [heap].
  split; [apply lookup_insert_eq|]. split; [apply encode_frame_shape|].
  intros col c Hc. exists (encode_column c). split.
  - by rewrite frame_get_encode, Hc.
  - apply encode_column_length.
Qed.

Lemma sample_frame_names : NoDup (map fst sample_frame).
Proof. apply NoDup_ListNoDup. repeat constructor; simpl; intuition discriminate. Qed.

Lemma encoder_keeps_shape_witness :
  exists w' frame',
    encode_categorical_variables 1%positive sample_world = (Return 1%positive, w')
    /\ heap w' !! 1%positive = Some frame'
    /\ shape frame' = shape sample_frame
    /\ forall col c, frame_get sample_frame col = Some c ->
         exists c', frame_get frame' col = Some c'
                    /\ column_length c' = column_length c.
Proof.
  apply (encoder_keeps_shape 1%positive sample_frame sample_world).
  - reflexivity.
  - apply sample_frame_names.
Defined.

(** X3. Running the Encoder a second time changes nothing and prints
    nothing: after the first run no column of text storage type is
    left. *)
Theorem encoder_twice_is_once df frame w w' :
  heap w !! df = Some frame ->
  NoDup (map fst frame) ->
  encode_categorical_variables df w = (Return df, w') ->
  encode_categorical_variables df w' = (Return df, w').
Proof.
  intros Hh Hnd Hrun. rewrite (encode_run df frame w Hh Hnd) in Hrun.
  injection Hrun as <-.
  rewrite (encode_run df (encode_frame frame)).
  - cbn [heap stdout]. destruct (encode_frame_no_text frame) as [_ ->].
    by rewrite encode_frame_idem, insert_insert_eq, app_nil_r.
  - cbn [heap]. apply lookup_insert_eq.
  - by rewrite encode_frame_names.
Qed.

Lemma encoder_twice_is_once_witness :
  encode_categorical_variables 1%positive
    (snd (encode_categorical_variables 1%positive sample_world))
  = (Return 1%positive, snd (encode_categorical_variables 1%positive sample_world)).
Proof.
  apply (encoder_twice_is_once 1%positive sample_frame sample_world).
  - reflexivity.
  - apply sample_frame_names.
  - vm_compute; reflexivity.
Defined.

(** ** More on the Connector, the Loader and the entry point *)

Section Pipeline.
Variable create_engine : string -> outcome engine.
Variable read_sql_query : string -> engine -> outcome DataFrame.
Variable f_oneway : list (list cell) -> outcome (num * num).
Variable ttest_ind : list cell -> list cell -> bool -> outcome (num * num).
Variable float_corr : list (R * R) -> option R.

(** X4. The handlers of the Connector and the Loader catch instances of
    [Exception] only: a [KeyboardInterrupt] or a [SystemExit] raised by
    the library call leaves the function as it is, with nothing
    logged. *)
Theorem interrupt_passes_unlogged (e : exn) (w : world) :
  is_Exception e = false ->
  (forall host port user password database,
      create_engine (connection_url host port user password database) = Raise e ->
      connect_to_db create_engine host port user password database w = (Raise e, w))
  /\ (forall eng query,
      read_sql_query query eng = Raise e ->
      load_data read_sql_query eng query w = (Raise e, w)).
Proof.
  intros He. split.
  - intros * H. by rewrite (connect_failure _ _ _ _ _ _ _ _ H), He.
  - intros * H. by rewrite (load_failure _ _ _ _ _ H), He.
Qed.

Lemma load_success eng query frame w :
  read_sql_query query eng = Return frame ->
  load_data read_sql_query eng query w
  = (Return (fresh (dom (heap w))),
     World (<[fresh (dom (heap w)) := frame]> (heap w)) (stdout w ++ [LoadOk])).
Proof.
  intros H. unfold load_data, try_except.
  rewrite bind_run. unfold lift. rewrite H. reflexivity.
Qed.

(** X5. When the query succeeds the Loader returns a reference that was
    not in use, at which the heap holds the dataset read; every object
    that was on the heap is as it was, and one line is printed. *)
Theorem loader_allocates_dataset eng query frame w :
  read_sql_query query eng = Return frame ->
  exists df w',
    load_data read_sql_query eng query w = (Return df, w')
    /\ heap w !! df = None
    /\ heap w' !! df = Some frame
    /\ (forall l, l <> df -> heap w' !! l = heap w !! l)
    /\ stdout w' = stdout w ++ [LoadOk].
Proof.
  intros H. eexists _, _. split; [by apply load_success|]. cbn [heap stdout].
  split; [apply not_elem_of_dom, is_fresh|].
  split; [apply lookup_insert_eq|]. split; [|done].
  intros l Hl. by apply lookup_insert_ne.
Qed.

(** X6. When the connection and the query succeed and the columns of the
    dataset read have different names, the entry point prints the two
    success lines, then what the Encoder prints, then the shape the
    dataset was read with; the tests and the correlation table come
    after, and whatever their outcome the dataset left on the heap is
    the encoded one. *)
Theorem main_runs_on_encoded_dataset eng frame w :
  create_engine main_url = Return eng ->
  read_sql_query main_query eng = Return frame ->
  NoDup (map fst frame) ->
  exists o rest,
    main create_engine read_sql_query f_oneway ttest_ind float_corr w
    = (o,
       World (<[fresh (dom (heap w)) := encode_frame frame]> (heap w))
             (stdout w ++ [ConnectOk; LoadOk] ++ encode_output frame
              ++ [ShapeLine (fst (shape frame)) (snd (shape frame))] ++ rest)).
Proof.
  intros Hc Hq Hnd. unfold main. unfold main_url in Hc.
  rewrite bind_run, (connect_success _ _ _ _ _ _ _ _ Hc).
  rewrite bind_run, (load_success _ _ _ _ Hq). cbn [heap stdout].
  set (df := fresh (dom (heap w))).
  rewrite bind_run, (encode_run df frame) by (done || apply lookup_insert_eq).
  cbn [heap stdout]. rewrite insert_insert_eq.
  rewrite bind_run. unfold analyze_dataset at 1.
  rewrite bind_run, (run_deref df _ (encode_frame frame)) by apply lookup_insert_eq.
  rewrite encode_frame_shape. destruct (shape frame) as [rows columns].
  rewrite run_print. cbn [heap stdout fst snd].
  set (w4 := World _ _).
  set (tail := bind (test_hypotheses f_oneway ttest_ind df)
                    (fun _ => correlation_table float_corr df "saleprice")).
  assert (heap_preserving tail) as Hheap.
  { apply preserving_bind; [apply preserving_test_hypotheses|].
    intros _. apply preserving_correlation_table. }
  assert (emits (fun _ => True) tail) as Hout.
  { unfold tail, test_hypotheses, test_landuse_price, test_vacant_acreage,
      group_values, report_test, correlation_table.
    emitting ltac:(exact I). }
  specialize (Hheap w4). destruct (Hout w4) as (rest & Hrest & _).
  destruct (tail w4) as [o [h out]]. simpl in *. subst h out.
  exists o, rest. f_equal. f_equal. by rewrite <- !app_assoc.
Qed.
End Pipeline.

Lemma interrupt_passes_unlogged_witness :
  connect_to_db (fun _ => Raise KeyboardInterrupt) "h" 1 "u" "p" "d" sample_world
  = (Raise KeyboardInterrupt, sample_world).
Proof.
  apply (interrupt_passes_unlogged (fun _ => Raise KeyboardInterrupt)
           (fun _ _ => Raise KeyboardInterrupt) KeyboardInterrupt sample_world);
    reflexivity.
Defined.

Lemma loader_allocates_dataset_witness :
  exists df w',
    load_data (fun _ _ => Return constant_frame) (Engine main_url) main_query sample_world
    = (Return df, w')
    /\ heap sample_world !! df = None
    /\ heap w' !! df = Some constant_frame
    /\ (forall l, l <> df -> heap w' !! l = heap sample_world !! l)
    /\ stdout w' = stdout sample_world ++ [LoadOk].
Proof.
  apply (loader_allocates_dataset (fun _ _ => Return constant_frame)). reflexivity.
Defined.

Lemma main_runs_on_encoded_dataset_witness :
  exists o rest,
    main (fun url => Return (Engine url)) (fun _ _ => Return sample_frame)
         (fun _ => Return (NaN, NaN)) (fun _ _ _ => Return (NaN, NaN)) exact_corr
         (World ∅ [])
    = (o,
       World (<[fresh (dom (∅ : gmap loc DataFrame)) := encode_frame sample_frame]> ∅)
             ([] ++ [ConnectOk; LoadOk] ++ encode_output sample_frame
              ++ [ShapeLine (fst (shape sample_frame)) (snd (shape sample_frame))]
              ++ rest)).
Proof.
  apply (main_runs_on_encoded_dataset (fun url => Return (Engine url))
           (fun _ _ => Return sample_frame) (fun _ => Return (NaN, NaN))
           (fun _ _ _ => Return (NaN, NaN)) exact_corr
           (Engine main_url) sample_frame (World ∅ [])).
  - reflexivity.
  - reflexivity.
  - apply sample_frame_names.
Defined.

(** ** More on the correlation table *)

Lemma selected_names (include : column -> bool) (frame : DataFrame) (name : string) :
  In name (select_dtypes include frame) ->
  exists c, In (name, c) frame /\ include c = true.
Proof.
  unfold select_dtypes. intros ([n c] & <- & Hin%filter_In)%in_map_iff.
  exists c. simpl in *. tauto.
Qed.

Lemma frame_get_unique (frame : DataFrame) (name : string) (c c' : column) :
  NoDup (map fst frame) -> frame_get frame name = Some c -> In (name, c') frame ->
  c' = c.
Proof.
  induction frame as [|[n c0] frame IH]; simpl; [done|].
  intros [Hn Hnd]%NoDup_cons Hget [Heq|Hin].
  - injection Heq as -> ->. rewrite String.eqb_refl in Hget. congruence.
  - destruct (String.eqb_spec n name) as [->|Hne]; [|by apply IH].
    exfalso. apply Hn. apply list_elem_of_In. apply in_map_iff. by exists (name, c').
Qed.

Lemma sorted_descending (t : series) :
  StronglySorted (fun a b => entry_geb a b = true) t -> descending_nan_last t.
Proof.
  induction 1 as [|e t Ht IH He]; intros i j a b Hij Hi Hj; [done|].
  destruct j as [|j]; [lia|]. simpl in Hj.
  destruct i as [|i]; simpl in Hi.
  - injection Hi as <-. rewrite List.Forall_forall in He.
    assert (entry_geb e b = true) as Hgeb.
    { apply He, list_elem_of_In. by eapply list_elem_of_lookup_2. }
    unfold entry_geb in Hgeb.
    destruct (snd e), (snd b); try done. by destruct (Rle_dec r0 r).
  - apply (IH i j); [lia|done|done].
Qed.

Lemma complete_pairs_length (xs ys : list (option R)) :
  (length (complete_pairs xs ys) <= length xs)%nat.
Proof.
  revert ys. induction xs as [|[x|] xs IH]; intros [|[y|] ys]; simpl; try lia;
    specialize (IH ys); lia.
Qed.

Section Reporter.
Variable float_corr : list (R * R) -> option R.

Lemma matrix_getitem_missing (frame : DataFrame) (names : list string) (target : string) :
  ~ In target names ->
  matrix_getitem (corr float_corr frame names) target = Raise (KeyError target).
Proof.
  intros Hn. unfold matrix_getitem, corr. rewrite map_map. cbn [fst].
  rewrite map_id.
  destruct (existsb (String.eqb target) names) eqn:E; [|done].
  apply existsb_exists in E as (n & Hin & Heq). apply String.eqb_eq in Heq.
  by subst.
Qed.

(** X7. When the target is not a column of the dataset, or is a column
    that is neither float64 nor int64 (text, or a date, a boolean, ...),
    the correlation reporter raises the [KeyError] of the target before
    it prints anything: no header, no table, no heat map. *)
Theorem correlation_target_must_be_numeric df frame target w :
  heap w !! df = Some frame ->
  NoDup (map fst frame) ->
  (frame_get frame target = None
   \/ exists c, frame_get frame target = Some c /\ is_numeric c = false) ->
  correlation_table float_corr df target w = (Raise (KeyError target), w).
Proof.
  intros Hh Hnd Htarget. unfold correlation_table.
  rewrite bind_run, (run_deref df w frame Hh), bind_run. unfold lift.
  rewrite matrix_getitem_missing; [done|].
  intros (c & Hin & Hnum)%selected_names.
  destruct Htarget as [Hnone|(c' & Hc' & Hother)].
  - assert (frame_get frame target <> None) as Hsome; [|done].
    clear -Hin. induction frame as [|[n c0] frame IH]; simpl in *; [done|].
    destruct (String.eqb_spec n target); [done|].
    destruct Hin as [[= ? ?]|Hin]; [done|by apply IH].
  - rewrite (frame_get_unique frame target _ c Hnd Hc' Hin) in Hnum. congruence.
Qed.

(** X8. When the target is a float64 or int64 column, the printed table
    has exactly the entries of the target's column of the correlation
    matrix, one for each float64 or int64 column of the dataset, in
    descending order with the NaN entries last. *)
Theorem correlation_table_sorted df frame target c w :
  heap w !! df = Some frame ->
  frame_get frame target = Some c ->
  is_numeric c = true ->
  exists table,
    correlation_table float_corr df target w
    = (Return tt,
       World (heap w)
             (stdout w ++ [CorrelationHeader; CorrelationTable table;
                           HeatmapShown
                             (corr float_corr frame (select_dtypes is_numeric frame))]))
    /\ Permutation table
         (correlations_with float_corr frame (select_dtypes is_numeric frame) target)
    /\ map fst (correlations_with float_corr frame
                  (select_dtypes is_numeric frame) target)
       = select_dtypes is_numeric frame
    /\ descending_nan_last table.
Proof.
  intros Hh Hc Hn. eexists. split; [|split; [|split]].
  - apply (correlation_table_run float_corr df frame); [done|].
    by apply (numeric_column_selected frame target c).
  - apply sort_perm.
  - unfold correlations_with. rewrite map_map. apply map_id.
  - apply sorted_descending, sort_sorted; [apply entry_geb_total|apply entry_geb_trans].
Qed.

(** X9. On a dataset whose columns are all float64, int64, object or
    category, every column can be the target of the correlation
    reporter after the Encoder, the encoded ones too: the reporter
    returns normally and its table has one entry for each column of the
    dataset. *)
Theorem encoded_dataset_correlates_every_column df frame target w w' :
  heap w !! df = Some frame ->
  NoDup (map fst frame) ->
  Forall (fun p => numeric_or_text (snd p) = true) frame ->
  In target (map fst frame) ->
  encode_categorical_variables df w = (Return df, w') ->
  exists table heatmap,
    correlation_table float_corr df target w'
    = (Return tt,
       World (heap w')
             (stdout w' ++ [CorrelationHeader; CorrelationTable table;
                            HeatmapShown heatmap]))
    /\ Permutation (map fst table) (map fst frame)
    /\ map fst heatmap = map fst frame.
Proof.
  intros Hh Hnd Htypes Hin Hrun. rewrite (encode_run df frame w Hh Hnd) in Hrun.
  injection Hrun as <-. eexists _, _. split; [|split].
  - apply (correlation_table_run float_corr df (encode_frame frame)).
    + cbn [heap]. apply lookup_insert_eq.
    + by rewrite encode_frame_all_numeric.
  - rewrite encode_frame_all_numeric by done. unfold sort_values_desc.
    rewrite (sort_perm entry_geb). unfold correlations_with.
    rewrite map_map. simpl. by rewrite map_id.
  - rewrite encode_frame_all_numeric by done. unfold corr. rewrite map_map. simpl.
    apply map_id.
Qed.

(** X11. On a dataset with at most one row every entry of the printed
    correlation table is NaN: a coefficient needs two rows. *)
Theorem single_row_correlations_are_nan df frame target c w :
  heap w !! df = Some frame ->
  frame_get frame target = Some c ->
  is_numeric c = true ->
  Forall (fun p => (column_length (snd p) <= 1)%nat) frame ->
  exists table,
    correlation_table float_corr df target w
    = (Return tt,
       World (heap w)
             (stdout w ++ [CorrelationHeader; CorrelationTable table;
                           HeatmapShown
                             (corr float_corr frame (select_dtypes is_numeric frame))]))
    /\ Forall (fun e => snd e = None) table.
Proof.
  intros Hh Hc Hn Hrows. eexists. split.
  - apply (correlation_table_run float_corr df frame); [done|].
    by apply (numeric_column_selected frame target c).
  - assert (forall n, length (frame_reals frame n) <= 1)%nat as Hshort.
    { intros n. unfold frame_reals.
      destruct (frame_get frame n) as [cn|] eqn:Hcn; [|simpl; lia].
      rewrite List.Forall_forall in Hrows.
      specialize (Hrows (n, cn)). simpl in Hrows.
      assert (length (reals cn) <= column_length cn)%nat as Hlen.
      { unfold column_length. destruct cn; simpl; rewrite ?length_map; lia. }
      etransitivity; [exact Hlen|]. apply Hrows.
      apply list_elem_of_In. by apply frame_get_elem. }
    rewrite List.Forall_forall. intros e He. unfold sort_values_desc in He.
    apply (proj1 (sort_In entry_geb _ _)) in He.
    unfold correlations_with in He. apply in_map_iff in He as (n & <- & _). simpl.
    unfold coefficient.
    destruct (index_of String.eqb n (select_dtypes is_numeric frame)) as [i|]; [|done].
    destruct (index_of String.eqb target (select_dtypes is_numeric frame)) as [j|];
      [|done].
    destruct (j <=? i)%nat; apply short_pairs_nan;
      (etransitivity; [apply complete_pairs_length|apply Hshort]).
Qed.
End Reporter.

Lemma correlation_target_must_be_numeric_witness :
  correlation_table exact_corr 1%positive "landuse" sample_world
  = (Raise (KeyError "landuse"), sample_world).
Proof.
  apply (correlation_target_must_be_numeric exact_corr 1%positive sample_frame).
  - reflexivity.
  - apply sample_frame_names.
  - right. by eexists.
Defined.

Lemma correlation_table_sorted_witness :
  exists table,
    correlation_table exact_corr 1%positive "saleprice" sample_world
    = (Return tt,
       World (heap sample_world)
             (stdout sample_world
              ++ [CorrelationHeader; CorrelationTable table;
                  HeatmapShown
                    (corr exact_corr sample_frame
                       (select_dtypes is_numeric sample_frame))]))
    /\ Permutation table
         (correlations_with exact_corr sample_frame
            (select_dtypes is_numeric sample_frame) "saleprice")
    /\ map fst (correlations_with exact_corr sample_frame
                  (select_dtypes is_numeric sample_frame) "saleprice")
       = select_dtypes is_numeric sample_frame
    /\ descending_nan_last table.
Proof.
  apply (correlation_table_sorted exact_corr 1%positive sample_frame "saleprice"
           (Int64 [200; 100; 5; 210; 110]) sample_world); reflexivity.
Defined.

Lemma encoded_dataset_correlates_every_column_witness :
  exists table heatmap,
    correlation_table exact_corr 1%positive "landuse"
      (snd (encode_categorical_variables 1%positive sample_world))
    = (Return tt,
       World (heap (snd (encode_categorical_variables 1%positive sample_world)))
             (stdout (snd (encode_categorical_variables 1%positive sample_world))
              ++ [CorrelationHeader; CorrelationTable table; HeatmapShown heatmap]))
    /\ Permutation (map fst table) (map fst sample_frame)
    /\ map fst heatmap = map fst sample_frame.
Proof.
  apply (encoded_dataset_correlates_every_column exact_corr 1%positive sample_frame
           "landuse" sample_world).
  - reflexivity.
  - apply sample_frame_names.
  - repeat constructor.
  - simpl. tauto.
  - vm_compute; reflexivity.
Defined.

Lemma single_row_correlations_are_nan_witness :
  exists table,
    correlation_table exact_corr 1%positive "saleprice"
      (World (<[1%positive := [("saleprice"%string, Int64 [100]);
                               ("acreage"%string, Float64 [Some (2 # 1)])]]> ∅) [])
    = (Return tt,
       World (<[1%positive := [("saleprice"%string, Int64 [100]);
                               ("acreage"%string, Float64 [Some (2 # 1)])]]> ∅)
             ([] ++ [CorrelationHeader; CorrelationTable table;
                     HeatmapShown
                       (corr exact_corr
                          [("saleprice"%string, Int64 [100]);
                           ("acreage"%string, Float64 [Some (2 # 1)])]
                          (select_dtypes is_numeric
                             [("saleprice"%string, Int64 [100]);
                              ("acreage"%string, Float64 [Some (2 # 1)])]))]))
    /\ Forall (fun e => snd e = None) table.
Proof.
  apply (single_row_correlations_are_nan exact_corr 1%positive
           [("saleprice"%string, Int64 [100]); ("acreage"%string, Float64 [Some (2 # 1)])]
           "saleprice" (Int64 [100])).
  - reflexivity.
  - reflexivity.
  - reflexivity.
  - repeat constructor.
Defined.

(** ** More on the hypothesis tester *)

Section TesterFailures.
Variable f_oneway : list (list cell) -> outcome (num * num).
Variable ttest_ind : list cell -> list cell -> bool -> outcome (num * num).

(** X12. On a dataset without the land-use column the hypothesis tester
    prints the header of Test A and raises the [KeyError] of the column:
    Test B is not run. *)
Theorem tester_needs_land_use df frame w :
  heap w !! df = Some frame ->
  frame_get frame "landuse" = None ->
  test_hypotheses f_oneway ttest_ind df w
  = (Raise (KeyError "landuse"),
     World (heap w) (stdout w ++ [HypothesisHeader LandUsePrice])).
Proof.
  intros Hh Hl. unfold test_hypotheses, test_landuse_price.
  rewrite bind_run, bind_run, run_print.
  by rewrite bind_run, (run_getitem_missing df "landuse" _ frame).
Qed.

Lemma groups_run df frame landuse saleprice w :
  heap w !! df = Some frame ->
  frame_get frame "landuse" = Some landuse ->
  frame_get frame "saleprice" = Some saleprice ->
  comprehension
    (List.filter (fun value => negb (isnull value)) (pd_unique landuse))
    (fun value => group_values df "landuse" value "saleprice") w
  = (Return (map (group (cells landuse) (cells saleprice)) (group_keys landuse)), w).
Proof.
  intros Hh Hl Hs.
  rewrite (comprehension_pure _ _ (group (cells landuse) (cells saleprice))); [done|].
  intros value. by apply (group_values_run df frame).
Qed.

(** X13. Nothing in the hypothesis tester catches an exception: when the
    analysis of variance raises, whatever it raises, the tester ends
    with that exception after the header of Test A, and Test B is not
    run. *)
Theorem anova_failure_skips_second_test df frame w landuse saleprice e :
  heap w !! df = Some frame ->
  frame_get frame "landuse" = Some landuse ->
  frame_get frame "saleprice" = Some saleprice ->
  f_oneway (map (group (cells landuse) (cells saleprice)) (group_keys landuse))
  = Raise e ->
  test_hypotheses f_oneway ttest_ind df w
  = (Raise e, World (heap w) (stdout w ++ [HypothesisHeader LandUsePrice])).
Proof.
  intros Hh Hl Hs Hf. unfold test_hypotheses, test_landuse_price.
  rewrite bind_run, bind_run, run_print.
  rewrite bind_run, (run_getitem df "landuse" _ frame landuse) by done.
  rewrite bind_run, (groups_run df frame landuse saleprice) by done.
  rewrite bind_run. unfold lift. by rewrite Hf.
Qed.

(** X14. The sale-price column is read once for each group: when every
    land use is missing the analysis of variance is called with no
    group, also on a dataset without the sale-price column; with at
    least one land use, a dataset without the sale-price column gives
    the [KeyError] of that column. *)
Theorem sale_price_is_read_per_group df frame w landuse :
  heap w !! df = Some frame ->
  frame_get frame "landuse" = Some landuse ->
  frame_get frame "saleprice" = None ->
  test_landuse_price f_oneway df w
  = match group_keys landuse with
    | [] =>
        match f_oneway [] with
        | Return (statistic, p_value) =>
            (Return tt,
             World (heap w)
                   (stdout w ++ [HypothesisHeader LandUsePrice;
                                 TestResult LandUsePrice statistic p_value;
                                 Decision LandUsePrice (num_ltb p_value (5 # 100))]))
        | Raise e =>
            (Raise e, World (heap w) (stdout w ++ [HypothesisHeader LandUsePrice]))
        end
    | _ :: _ =>
        (Raise (KeyError "saleprice"),
         World (heap w) (stdout w ++ [HypothesisHeader LandUsePrice]))
    end.
Proof.
  intros Hh Hl Hs. unfold test_landuse_price.
  rewrite bind_run, run_print.
  rewrite bind_run, (run_getitem df "landuse" _ frame landuse) by done.
  rewrite bind_run. fold (group_keys landuse).
  destruct (group_keys landuse) as [|k keys]; cbn [comprehension].
  - unfold ret at 1. rewrite bind_run. unfold lift.
    destruct (f_oneway []) as [[statistic p_value]|e]; [|done].
    rewrite report_test_run. cbn [heap stdout]. by rewrite <- app_assoc.
  - rewrite bind_run. unfold group_values.
    rewrite bind_run, (run_getitem df "landuse" _ frame landuse) by done.
    by rewrite bind_run, (run_getitem_missing df "saleprice" _ frame).
Qed.

(** X15. On a dataset that the Encoder has not been run on, where the
    sold-as-vacant flag is text, no row has a flag equal to 1 or to 0:
    Test B calls the t-test with two empty groups. *)
Theorem unencoded_flag_gives_empty_groups df frame w d flags acreage statistic p_value :
  heap w !! df = Some frame ->
  frame_get frame "soldasvacant" = Some (Text d flags) ->
  frame_get frame "acreage" = Some acreage ->
  ttest_ind [] [] false = Return (statistic, p_value) ->
  test_vacant_acreage ttest_ind df w
  = (Return tt,
     World (heap w)
           (stdout w ++ [HypothesisHeader VacantAcreage;
                         TestResult VacantAcreage statistic p_value;
                         Decision VacantAcreage (num_ltb p_value (5 # 100))])).
Proof.
  intros Hh Hf Ha Ht.
  assert (forall z, group (cells (Text d flags)) (cells acreage) (CInt z) = []) as Hempty.
  { intros z. unfold group, select_rows. simpl cells.
    generalize (cells acreage). clear. unfold dropna_cells.
    induction flags as [|[s|] flags IH]; intros [|v vs]; cbn; try done; apply IH. }
  unfold test_vacant_acreage. rewrite bind_run, run_print.
  rewrite bind_run, (group_values_run df frame _ _ _ (Text d flags) acreage) by done.
  rewrite bind_run, (group_values_run df frame _ _ _ (Text d flags) acreage) by done.
  rewrite !Hempty, bind_run. unfold lift. rewrite Ht.
  rewrite report_test_run. cbn [heap stdout]. by rewrite <- app_assoc.
Qed.
End TesterFailures.

Lemma tester_needs_land_use_witness :
  test_hypotheses (fun _ => Return (NaN, NaN)) (fun _ _ _ => Return (NaN, NaN))
                  1%positive constant_world
  = (Raise (KeyError "landuse"),
     World (heap constant_world) (stdout constant_world ++ [HypothesisHeader LandUsePrice])).
Proof.
  apply (tester_needs_land_use _ _ 1%positive constant_frame); reflexivity.
Defined.

Lemma anova_failure_skips_second_test_witness :
  test_hypotheses (fun _ => Raise (TypeError "at least two inputs are required"))
                  (fun _ _ _ => Return (NaN, NaN)) 1%positive sample_world
  = (Raise (TypeError "at least two inputs are required"),
     World (heap sample_world) (stdout sample_world ++ [HypothesisHeader LandUsePrice])).
Proof.
  eapply (anova_failure_skips_second_test _ _ 1%positive sample_frame); reflexivity.
Defined.

Lemma sale_price_is_read_per_group_witness :
  test_landuse_price (fun _ => Raise (TypeError "at least two inputs are required"))
    1%positive
    (World (<[1%positive := [("landuse"%string, Text Object [None; None])]]> ∅) [])
  = (Raise (TypeError "at least two inputs are required"),
     World (<[1%positive := [("landuse"%string, Text Object [None; None])]]> ∅)
           [HypothesisHeader LandUsePrice]).
Proof.
  exact (sale_price_is_read_per_group
           (fun _ => Raise (TypeError "at least two inputs are required")) 1%positive
           [("landuse"%string, Text Object [None; None])]
           (World (<[1%positive := [("landuse"%string, Text Object [None; None])]]> ∅) [])
           (Text Object [None; None]) eq_refl eq_refl eq_refl).
Defined.

Lemma unencoded_flag_gives_empty_groups_witness :
  test_vacant_acreage (fun _ _ _ => Return (NaN, NaN)) 1%positive
    (World (<[1%positive := [("soldasvacant"%string, Text Object [Some "Yes"; Some "No"]%string);
                             ("acreage"%string, Int64 [1; 2])]]> ∅) [])
  = (Return tt,
     World (<[1%positive := [("soldasvacant"%string, Text Object [Some "Yes"; Some "No"]%string);
                             ("acreage"%string, Int64 [1; 2])]]> ∅)
           ([] ++ [HypothesisHeader VacantAcreage;
                   TestResult VacantAcreage NaN NaN;
                   Decision VacantAcreage (num_ltb NaN (5 # 100))])).
Proof.
  eapply (unencoded_flag_gives_empty_groups (fun _ _ _ => Return (NaN, NaN)) 1%positive
            [("soldasvacant"%string, Text Object [Some "Yes"; Some "No"]%string);
             ("acreage"%string, Int64 [1; 2])]); reflexivity.
Defined.

(** ** Counting the rows of the groups *)

(** Counting the pairs that satisfy [g], by rows or by columns. *)
Lemma count_swap {A B} (g : A -> B -> bool) (l1 : list A) (l2 : list B) :
  list_sum (map (fun a => length (List.filter (g a) l2)) l1)
  = list_sum (map (fun b => length (List.filter (fun a => g a b) l1)) l2).
Proof.
  induction l1 as [|x l1 IH]; simpl.
  - induction l2 as [|y l2 IH2]; simpl; [done|]. by rewrite <- IH2.
  - rewrite IH. clear IH. induction l2 as [|y l2 IH2]; simpl; [done|].
    destruct (g x y); simpl; rewrite <- IH2; lia.
Qed.

Lemma filter_none {A} (p : A -> bool) (l : list A) :
  (forall x, In x l -> p x = false) -> List.filter p l = [].
Proof.
  induction l as [|x l IH]; simpl; [done|]. intros H.
  rewrite (H x) by tauto. apply IH. intros y Hy. apply H. tauto.
Qed.

Lemma count_one_key (keys : list cell) (c k : cell) :
  pairwise_distinct cell_eqb keys -> In k keys -> cell_eqb c k = true ->
  length (List.filter (cell_eqb c) keys) = 1%nat.
Proof.
  induction keys as [|y keys IH]; simpl; [done|].
  intros [Hy Hd] Hin Hck. rewrite Forall_forall in Hy.
  destruct (cell_eqb c y) eqn:Hcy; simpl.
  - rewrite filter_none; [done|]. intros z Hz.
    destruct (cell_eqb c z) eqn:Hcz; [|done].
    rewrite <- (Hy z) by (by apply list_elem_of_In).
    symmetry. apply (cell_eqb_trans y c z); [|done]. by rewrite cell_eqb_sym.
  - destruct Hin as [->|Hin]; [congruence|]. by apply IH.
Qed.

Lemma group_length (keys values : list cell) (k : cell) :
  length (group keys values k)
  = length (List.filter (fun kv => cell_eqb (fst kv) k)
                        (List.filter (fun kv => negb (isnull (snd kv)))
                                     (combine keys values))).
Proof.
  unfold group, dropna_cells, select_rows.
  induction (combine keys values) as [|[c v] rows IH]; simpl; [done|].
  destruct (cell_eqb c k) eqn:Hc, (isnull v) eqn:Hv; simpl; rewrite ?Hc, ?Hv; simpl;
    by rewrite IH.
Qed.

Lemma filter_both (rows : list (cell * cell)) :
  List.filter (fun kv => negb (isnull (fst kv)) && negb (isnull (snd kv))) rows
  = List.filter (fun kv => negb (isnull (fst kv)))
                (List.filter (fun kv => negb (isnull (snd kv))) rows).
Proof.
  induction rows as [|[c v] l IH]; simpl; [done|].
  destruct (isnull c) eqn:Ec, (isnull v) eqn:Ev; simpl; rewrite ?Ec; simpl;
    by rewrite ?IH.
Qed.

Section Partition.
Variable f_oneway : list (list cell) -> outcome (num * num).

(** X16. The groups of Test A share out the rows: the sizes of the
    groups add up to the number of rows that have both a land use and a
    sale price, so each such row gives its price to exactly one
    group. *)
Theorem groups_share_out_the_rows df frame landuse saleprice w :
  heap w !! df = Some frame ->
  frame_get frame "landuse" = Some landuse ->
  frame_get frame "saleprice" = Some saleprice ->
  exists groups,
    comprehension
      (List.filter (fun value => negb (isnull value)) (pd_unique landuse))
      (fun value => group_values df "landuse" value "saleprice") w
    = (Return groups, w)
    /\ length groups = length (group_keys landuse)
    /\ length (concat groups)
       = length (List.filter
                   (fun kv => negb (isnull (fst kv)) && negb (isnull (snd kv)))
                   (combine (cells landuse) (cells saleprice))).
Proof.
  intros Hh Hl Hs. eexists. split; [by apply (groups_run df frame)|].
  split; [by rewrite length_map|].
  rewrite length_concat, map_map.
  destruct (group_keys_partition landuse) as (Hnn & Hpd & _ & Hnull & Hone).
  set (keys := group_keys landuse) in *.
  set (rows := List.filter (fun kv : cell * cell => negb (isnull (snd kv)))
                           (combine (cells landuse) (cells saleprice))).
  rewrite (map_ext _ (fun k => length (List.filter (fun kv : cell * cell =>
                                                      cell_eqb (fst kv) k) rows)))
    by (intros k; apply group_length).
  rewrite <- (count_swap (fun (kv : cell * cell) k => cell_eqb (fst kv) k) rows keys).
  assert (forall kv, In kv rows ->
            length (List.filter (cell_eqb (fst kv)) keys)
            = if isnull (fst kv) then O else 1%nat) as Hcount.
  { intros [c v] [Hin _]%filter_In. apply in_combine_l in Hin. simpl.
    destruct (isnull c) eqn:Hc.
    - rewrite filter_none; [done|]. intros k Hk. by apply (Hnull c).
    - destruct (Hone c Hin Hc) as (k & Hk & Hck & _).
      by apply (count_one_key keys c k). }
  rewrite filter_both. fold rows.
  clearbody rows. induction rows as [|kv rows IH]; simpl; [done|].
  rewrite IH by (intros; apply Hcount; by right).
  pose proof (Hcount kv (or_introl eq_refl)) as Hkv.
  change (length (List.filter (cell_eqb (fst kv)) keys))
    with (length (List.filter (fun k => cell_eqb (fst kv) k) keys)) in Hkv.
  rewrite Hkv. by destruct (isnull (fst kv)).
Qed.
End Partition.

Lemma groups_share_out_the_rows_witness :
  exists groups,
    comprehension
      (List.filter (fun value => negb (isnull value))
                   (pd_unique (Text Object [Some "B"; Some "A"; None; Some "B"; Some "A"]%string)))
      (fun value => group_values 1%positive "landuse" value "saleprice") sample_world
    = (Return groups, sample_world)
    /\ length groups
       = length (group_keys (Text Object [Some "B"; Some "A"; None; Some "B"; Some "A"]%string))
    /\ length (concat groups)
       = length (List.filter
                   (fun kv => negb (isnull (fst kv)) && negb (isnull (snd kv)))
                   (combine (cells (Text Object [Some "B"; Some "A"; None; Some "B"; Some "A"]%string))
                            (cells (Int64 [200; 100; 5; 210; 110])))).
Proof.
  apply (groups_share_out_the_rows 1%positive sample_frame); reflexivity.
Defined.

(** ** The tests on the encoded dataset *)

Lemma encoded_text_column (d : text_dtype) (xs : list (option string)) :
  encode_column (Text d xs) = Int64 (fst (factorize String.eqb xs)).
Proof. unfold encode_column. simpl. by destruct (factorize String.eqb xs). Qed.

(** The rows of an encoded column that hold a given code. *)
Lemma code_rows (xs : list (option string)) (r : nat) (k : nat) (label : string) :
  snd (factorize String.eqb xs) !! k = Some label ->
  fst (factorize String.eqb xs) !! r = Some (Z.of_nat k) <-> xs !! r = Some (Some label).
Proof.
  intros Hk.
  destruct (factorize_encoding String.eqb String.eqb_eq xs)
    as [_ Hnd Hrange Hround _ _ _].
  set (codes := fst (factorize String.eqb xs)) in *.
  set (uniques := snd (factorize String.eqb xs)) in *.
  assert (xs !! r = decode uniques <$> codes !! r) as Hr
    by (by rewrite <- Hround at 1; rewrite list_lookup_fmap).
  rewrite Hr. split.
  - intros ->. simpl. by rewrite decode_of_nat, Hk.
  - destruct (codes !! r) as [c|] eqn:Hc; [|done]. simpl. intros [= Hd].
    rewrite Forall_forall in Hrange.
    destruct (Hrange c) as [->|Hc0]; [by eapply list_elem_of_lookup_2|done|].
    unfold decode in Hd. destruct (Z.ltb_spec c 0); [lia|].
    pose proof (NoDup_lookup _ _ _ _ Hnd Hd Hk). f_equal. lia.
Qed.

Lemma missing_rows (xs : list (option string)) (r : nat) :
  fst (factorize String.eqb xs) !! r = Some (-1) <-> xs !! r = Some None.
Proof.
  destruct (factorize_encoding String.eqb String.eqb_eq xs) as [_ _ _ _ Hnull _ _].
  symmetry. apply Hnull.
Qed.

Lemma group_of_code (codes : list Z) (values : list cell) (z : Z) (v : cell) :
  In v (group (map CInt codes) values (CInt z))
  <-> isnull v = false
      /\ exists r, codes !! r = Some z /\ values !! r = Some v.
Proof.
  rewrite group_elem. split; intros [Hv (r & H)]; (split; [done|]).
  - destruct H as (c & Hc & Hval & Heq). exists r. split; [|done].
    rewrite list_lookup_fmap in Hc. destruct (codes !! r) as [c0|]; [|done].
    injection Hc as <-. simpl in Heq. apply Z.eqb_eq in Heq. by subst.
  - destruct H as [Hc Hval]. exists r, (CInt z). split; [|split; [done|]].
    + by rewrite list_lookup_fmap, Hc.
    + simpl. apply Z.eqb_refl.
Qed.

Section Encoded.
Variable ttest_ind : list cell -> list cell -> bool -> outcome (num * num).

(** X17. In the entry point Test B runs on the encoded dataset, where a
    text flag is a code of first appearance: the group compared as sold
    as vacant, the rows whose code is 1, holds the acreages of the rows
    whose flag is the second label to appear in the column, and the
    other group, code 0, those of the rows whose flag is the first
    label; what the labels say plays no part. *)
Theorem vacant_group_is_the_second_label df frame w w' d flags acreage :
  heap w !! df = Some frame ->
  NoDup (map fst frame) ->
  frame_get frame "soldasvacant" = Some (Text d flags) ->
  frame_get frame "acreage" = Some acreage ->
  encode_categorical_variables df w = (Return df, w') ->
  exists vacant non_vacant,
    group_values df "soldasvacant" (CInt 1) "acreage" w' = (Return vacant, w')
    /\ group_values df "soldasvacant" (CInt 0) "acreage" w' = (Return non_vacant, w')
    /\ (forall label v,
          snd (factorize String.eqb flags) !! 1%nat = Some label ->
          In v vacant
          <-> isnull v = false
              /\ exists r, flags !! r = Some (Some label)
                           /\ cells (encode_column acreage) !! r = Some v)
    /\ (forall label v,
          snd (factorize String.eqb flags) !! 0%nat = Some label ->
          In v non_vacant
          <-> isnull v = false
              /\ exists r, flags !! r = Some (Some label)
                           /\ cells (encode_column acreage) !! r = Some v).
Proof.
  intros Hh Hnd Hf Ha Hrun. rewrite (encode_run df frame w Hh Hnd) in Hrun.
  injection Hrun as <-.
  assert (forall z,
             group_values df "soldasvacant" (CInt z) "acreage"
               (World (<[df := encode_frame frame]> (heap w))
                      (stdout w ++ encode_output frame))
             = (Return (group (map CInt (fst (factorize String.eqb flags)))
                              (cells (encode_column acreage)) (CInt z)),
                World (<[df := encode_frame frame]> (heap w))
                      (stdout w ++ encode_output frame))) as Hgroup.
  { intros z.
    rewrite (group_values_run df (encode_frame frame) _ _ _
               (encode_column (Text d flags)) (encode_column acreage)).
    - by rewrite encoded_text_column.
    - apply lookup_insert_eq.
    - by rewrite frame_get_encode, Hf.
    - by rewrite frame_get_encode, Ha. }
  eexists _, _. split; [apply Hgroup|]. split; [apply Hgroup|].
  split; intros label v Hlabel; rewrite group_of_code;
    (split; intros [Hv (r & Hr & Hval)]; (split; [done|]); exists r; (split; [|done])).
  - by apply (code_rows flags r 1 label).
  - by apply (code_rows flags r 1 label).
  - by apply (code_rows flags r 0 label).
  - by apply (code_rows flags r 0 label).
Qed.
End Encoded.

(** X18. In the entry point Test A runs on the encoded dataset, where a
    missing land use is the code -1, a value like the others: the rows
    without land use, which are in no group before the Encoder, make a
    group of their own after it. *)
Theorem missing_land_use_becomes_a_group df frame w w' d landuse saleprice :
  heap w !! df = Some frame ->
  NoDup (map fst frame) ->
  frame_get frame "landuse" = Some (Text d landuse) ->
  frame_get frame "saleprice" = Some saleprice ->
  encode_categorical_variables df w = (Return df, w') ->
  exists encoded,
    getitem df "landuse" w' = (Return encoded, w')
    /\ (In (CInt (-1)) (group_keys encoded) <-> In None landuse)
    /\ forall v,
         In v (group (cells encoded) (cells (encode_column saleprice)) (CInt (-1)))
         <-> isnull v = false
             /\ exists r, landuse !! r = Some None
                          /\ cells (encode_column saleprice) !! r = Some v.
Proof.
  intros Hh Hnd Hl Hs Hrun. rewrite (encode_run df frame w Hh Hnd) in Hrun.
  injection Hrun as <-. exists (encode_column (Text d landuse)).
  split; [|split].
  - apply (run_getitem df "landuse" _ (encode_frame frame)).
    + apply lookup_insert_eq.
    + by rewrite frame_get_encode, Hl.
  - rewrite encoded_text_column.
    set (codes := fst (factorize String.eqb landuse)).
    assert (In None landuse <-> In (-1) codes) as ->.
    { split; intros Hin.
      - apply list_elem_of_In, list_elem_of_lookup in Hin as [r Hr].
        apply missing_rows in Hr. apply list_elem_of_In.
        by eapply list_elem_of_lookup_2.
      - apply list_elem_of_In, list_elem_of_lookup in Hin as [r Hr].
        apply missing_rows in Hr. apply list_elem_of_In.
        by eapply list_elem_of_lookup_2. }
    destruct (group_keys_partition (Int64 codes)) as (_ & _ & Hsub & _ & Hrep).
    split.
    + intros Hk. apply Hsub in Hk. simpl in Hk.
      apply in_map_iff in Hk as (z & [= ->] & Hz). done.
    + intros Hz. destruct (Hrep (CInt (-1))) as (k & Hk & Heq & _).
      * simpl. apply in_map_iff. eauto.
      * done.
      * pose proof (Hsub k Hk) as Hkc. simpl in Hkc.
        apply in_map_iff in Hkc as (z & <- & _).
        assert ((-1 =? z) = true) as Hz1 by exact Heq.
        apply Z.eqb_eq in Hz1. by subst.
  - intros v. rewrite encoded_text_column. simpl cells at 1. rewrite group_of_code.
    split; intros [Hv (r & Hr & Hval)]; (split; [done|]); exists r; (split; [|done]);
      by apply missing_rows.
Qed.

Lemma flag_frame_names : NoDup (map fst flag_frame).
Proof. apply NoDup_ListNoDup. repeat constructor; simpl; intuition discriminate. Qed.

Lemma vacant_group_is_the_second_label_witness :
  exists vacant non_vacant,
    group_values 1%positive "soldasvacant" (CInt 1) "acreage"
      (snd (encode_categorical_variables 1%positive flag_world))
    = (Return vacant, snd (encode_categorical_variables 1%positive flag_world))
    /\ group_values 1%positive "soldasvacant" (CInt 0) "acreage"
         (snd (encode_categorical_variables 1%positive flag_world))
       = (Return non_vacant, snd (encode_categorical_variables 1%positive flag_world))
    /\ (forall v, In v vacant
           <-> isnull v = false
               /\ exists r, [Some "Yes"; Some "No"; Some "Yes"]%string !! r
                            = Some (Some "No"%string)
                            /\ cells (encode_column (Int64 [1; 2; 3])) !! r = Some v)
    /\ (forall v, In v non_vacant
           <-> isnull v = false
               /\ exists r, [Some "Yes"; Some "No"; Some "Yes"]%string !! r
                            = Some (Some "Yes"%string)
                            /\ cells (encode_column (Int64 [1; 2; 3])) !! r = Some v).
Proof.
  destruct (vacant_group_is_the_second_label 1%positive flag_frame flag_world
              (snd (encode_categorical_variables 1%positive flag_world))
              Object [Some "Yes"; Some "No"; Some "Yes"]%string (Int64 [1; 2; 3]))
    as (vacant & non_vacant & H1 & H0 & Hv & Hn).
  - reflexivity.
  - apply flag_frame_names.
  - reflexivity.
  - reflexivity.
  - vm_compute; reflexivity.
  - exists vacant, non_vacant. split; [exact H1|]. split; [exact H0|]. split.
    + intros v. apply Hv. reflexivity.
    + intros v. apply Hn. reflexivity.
Defined.

Lemma missing_land_use_becomes_a_group_witness :
  exists encoded,
    getitem 1%positive "landuse" (snd (encode_categorical_variables 1%positive sample_world))
    = (Return encoded, snd (encode_categorical_variables 1%positive sample_world))
    /\ (In (CInt (-1)) (group_keys encoded)
        <-> In None [Some "B"; Some "A"; None; Some "B"; Some "A"]%string)
    /\ forall v,
         In v (group (cells encoded)
                 (cells (encode_column (Int64 [200; 100; 5; 210; 110]))) (CInt (-1)))
         <-> isnull v = false
             /\ exists r, [Some "B"; Some "A"; None; Some "B"; Some "A"]%string !! r
                          = Some None
                          /\ cells (encode_column (Int64 [200; 100; 5; 210; 110])) !! r
                             = Some v.
Proof.
  apply (missing_land_use_becomes_a_group 1%positive sample_frame sample_world
           (snd (encode_categorical_variables 1%positive sample_world)) Object).
  - reflexivity.
  - apply sample_frame_names.
  - reflexivity.
  - reflexivity.
  - vm_compute; reflexivity.
Defined.

(** ** More on the profilers *)

Section NumericColumns.
Variable float_stat : stat -> column -> num.
Variable text_stat : stat -> text_dtype -> list (option string) -> outcome (num + string).
Variable other_stat : stat -> string -> list cell -> outcome (num + string).

(** X19. On a dataset whose columns are all float64, int64, object or
    category, every column is float64 or int64 after the Encoder, so
    the Numeric Profiler, whatever pandas answers for a statistic of a
    column of another type, profiles any columns of the dataset without
    logging an error: it prints the header and the ten statistics of
    each, and nothing else. *)
Theorem encoded_dataset_profiles_without_error df frame w w' columns :
  heap w !! df = Some frame ->
  NoDup (map fst frame) ->
  Forall (fun p => numeric_or_text (snd p) = true) frame ->
  encode_categorical_variables df w = (Return df, w') ->
  Forall (fun col => is_Some (frame_get frame col)) columns ->
  exists out,
    exploratory_analysis_numeric float_stat text_stat other_stat df columns w'
    = (Return tt, World (heap w') (stdout w' ++ out))
    /\ length out = (11 * length columns)%nat
    /\ Forall (fun l => match l with
                        | NumericHeader _ | Stat _ _ => True
                        | _ => False
                        end) out.
Proof.
  intros Hh Hnd Htypes Hrun Hcols. rewrite (encode_run df frame w Hh Hnd) in Hrun.
  injection Hrun as <-.
  assert (forall w1, heap w1 !! df = Some (encode_frame frame) ->
            exists out,
              exploratory_analysis_numeric float_stat text_stat other_stat df columns w1
              = (Return tt, World (heap w1) (stdout w1 ++ out))
              /\ length out = (11 * length columns)%nat
              /\ Forall (fun l => match l with
                                  | NumericHeader _ | Stat _ _ => True
                                  | _ => False
                                  end) out) as Hloop.
  { unfold exploratory_analysis_numeric.
    induction Hcols as [|col columns [c Hc] _ IH]; intros w1 Hw1.
    - exists []. simpl. unfold ret. by rewrite app_nil_r, world_eta.
    - assert (numeric_or_text c = true) as Hnt.
      { rewrite List.Forall_forall in Htypes. apply (Htypes (col, c)).
        apply list_elem_of_In. by apply frame_get_elem. }
      cbn [for_each]. rewrite bind_run.
      rewrite (profile_numeric_of_numeric float_stat text_stat other_stat
                 df (encode_frame frame) col (encode_column c));
        [|done|by rewrite frame_get_encode, Hc|by apply encode_column_numeric].
      destruct (IH (World (heap w1)
                      (stdout w1 ++ NumericHeader col
                         :: map (fun s => Stat s (column_stat float_stat s
                                                    (encode_column c)))
                                numeric_stats)))
        as (out & -> & Hlen & Hall); [done|].
      exists (NumericHeader col
                :: map (fun s => Stat s (column_stat float_stat s (encode_column c)))
                       numeric_stats ++ out).
      cbn [heap stdout]. split; [|split].
      + by rewrite <- app_assoc.
      + simpl. rewrite Hlen. lia.
      + constructor; [done|]. repeat (constructor; [done|]). exact Hall. }
  apply Hloop. cbn [heap]. apply lookup_insert_eq.
Qed.
End NumericColumns.

Lemma encoded_dataset_profiles_without_error_witness :
  exists out,
    exploratory_analysis_numeric exact_float_stat
      (fun _ _ _ => Raise (TypeError "text")) (fun _ _ _ => Raise (TypeError "other"))
      1%positive ["landuse"; "acreage"]%string
      (snd (encode_categorical_variables 1%positive sample_world))
    = (Return tt,
       World (heap (snd (encode_categorical_variables 1%positive sample_world)))
             (stdout (snd (encode_categorical_variables 1%positive sample_world)) ++ out))
    /\ length out = (11 * 2)%nat
    /\ Forall (fun l => match l with
                        | NumericHeader _ | Stat _ _ => True
                        | _ => False
                        end) out.
Proof.
  apply (encoded_dataset_profiles_without_error exact_float_stat
           (fun _ _ _ => Raise (TypeError "text")) (fun _ _ _ => Raise (TypeError "other"))
           1%positive sample_frame sample_world
           (snd (encode_categorical_variables 1%positive sample_world))
           ["landuse"; "acreage"]%string).
  - reflexivity.
  - apply sample_frame_names.
  - repeat constructor.
  - vm_compute; reflexivity.
  - repeat constructor; simpl; eauto.
Defined.

(** *** The Categorical Profiler *)

(** X22. When the dataset has every listed column the Categorical
    Profiler returns normally: it prints four lines for each column,
    whatever its storage type, and leaves the dataset as it is. *)
Theorem categorical_profiler_reports_every_column df frame columns w :
  heap w !! df = Some frame ->
  Forall (fun col => is_Some (frame_get frame col)) columns ->
  exists out,
    exploratory_analysis_categorical df columns w
    = (Return tt, World (heap w) (stdout w ++ out))
    /\ length out = (4 * length columns)%nat
    /\ out = flat_map (fun col => match frame_get frame col with
                                  | Some c => categorical_report col c
                                  | None => []
                                  end) columns.
Proof.
  intros Hh Hcols. eexists. split; [by apply (categorical_run df frame)|].
  split; [|done].
  induction Hcols as [|col columns [c Hc] _ IH]; [done|].
  cbn [flat_map]. rewrite length_app, IH, Hc. simpl. lia.
Qed.

Lemma categorical_profiler_reports_every_column_witness :
  exists out,
    exploratory_analysis_categorical 1%positive ["landuse"; "saleprice"]%string sample_world
    = (Return tt, World (heap sample_world) (stdout sample_world ++ out))
    /\ length out = (4 * 2)%nat
    /\ out = flat_map (fun col => match frame_get sample_frame col with
                                  | Some c => categorical_report col c
                                  | None => []
                                  end) ["landuse"; "saleprice"]%string.
Proof.
  apply (categorical_profiler_reports_every_column 1%positive sample_frame
           ["landuse"; "saleprice"]%string sample_world).
  - reflexivity.
  - repeat constructor; simpl; eauto.
Defined.

Lemma pd_nunique_zero (c : column) :
  pd_nunique c = 0%nat <-> forall v, In v (cells c) -> isnull v = true.
Proof.
  destruct (group_keys_partition c) as (Hnn & _ & Hsub & _ & Hrep).
  change (pd_nunique c) with (length (group_keys c)).
  split.
  - intros Hlen v Hv. destruct (isnull v) eqn:E; [done|].
    destruct (Hrep v Hv E) as (k & Hk & _).
    destruct (group_keys c); [done|discriminate].
  - intros Hall. destruct (group_keys c) as [|k ks] eqn:Hks; [done|].
    rewrite List.Forall_forall in Hnn.
    pose proof (Hnn k (or_introl eq_refl)) as Hk.
    rewrite (Hall k) in Hk; [done|]. apply Hsub. by left.
Qed.

Lemma dropna_nil {A} (f : option A -> cell) (xs : list (option A)) :
  f None = CNull -> (forall a, isnull (f (Some a)) = false) ->
  dropna xs = [] <-> forall v, In v (map f xs) -> isnull v = true.
Proof.
  intros HN HS. induction xs as [|[a|] xs IH]; simpl.
  - split; [by intros _ v []|done].
  - split; [done|]. intros H. specialize (H (f (Some a)) (or_introl eq_refl)).
    by rewrite HS in H.
  - rewrite IH. split.
    + intros H v [<-|Hv]; [by rewrite HN|by apply H].
    + intros H v Hv. apply H. by right.
Qed.

Lemma dropna_cells_nil (cs : list cell) :
  dropna_cells cs = [] <-> forall v, In v cs -> isnull v = true.
Proof.
  unfold dropna_cells. induction cs as [|c cs IH]; simpl.
  - split; [by intros _ v []|done].
  - destruct (isnull c) eqn:E; simpl.
    + rewrite IH. split.
      * intros H v [<-|Hv]; [done|by apply H].
      * intros H v Hv. apply H. by right.
    + split; [done|]. intros H. specialize (H c (or_introl eq_refl)). congruence.
Qed.

Lemma pd_mode_nil (c : column) :
  pd_mode c = [] <-> forall v, In v (cells c) -> isnull v = true.
Proof.
  pose proof (pd_mode_reported c) as H.
  assert (pd_mode c = [] <-> head (pd_mode c) = None) as ->
    by (by destruct (pd_mode c)).
  destruct c as [xs|xs|[|categories] xs|d xs]; simpl cells.
  - rewrite <- (dropna_nil float_cell xs) by done.
    destruct (head (pd_mode (Float64 xs))) as [r|]; simpl in H.
    + destruct H as (m & _ & Hin & _). split; [done|]. intros E. by rewrite E in Hin.
    + done.
  - destruct (head (pd_mode (Int64 xs))) as [r|]; simpl in H.
    + destruct H as (m & _ & Hin & _). split; [done|]. intros Hall.
      specialize (Hall (CInt m)). simpl in Hall.
      exfalso. assert (false = true) by (apply Hall, in_map, Hin). done.
    + subst xs. split; [by intros _ v []|done].
  - rewrite <- (dropna_nil text_cell xs) by done.
    destruct (head (pd_mode (Text Object xs))) as [r|]; simpl in H.
    + destruct H as (m & _ & Hin & _). split; [done|]. intros E. by rewrite E in Hin.
    + done.
  - rewrite <- (dropna_nil text_cell xs) by done.
    destruct (head (pd_mode (Text (Category categories) xs))) as [r|]; simpl in H.
    + destruct H as (m & _ & Hin & _). split; [done|]. intros E. by rewrite E in Hin.
    + done.
  - rewrite <- dropna_cells_nil.
    destruct (head (pd_mode (Other d xs))) as [r|]; simpl in H.
    + destruct H as (Hin & _). split; [done|]. intros E. by rewrite E in Hin.
    + done.
Qed.

(** X23. The two last lines of a column's categorical profile agree:
    no mode is printed exactly when the count of unique values printed
    is 0, which is when every row of the column is missing. *)
Theorem no_mode_exactly_when_no_unique_value (c : column) :
  (pd_mode c = [] <-> pd_nunique c = 0%nat)
  /\ (pd_nunique c = 0%nat <-> forallb isnull (cells c) = true).
Proof.
  rewrite pd_mode_nil, pd_nunique_zero, forallb_forall. done.
Qed.
